(** * Tournament scheduling and stadium network: a shallow embedding of
    [schedule.py]

    The Python module has two independent algorithms: a dynamic program
    that packs an ordered list of matches into as few days as possible
    ([schedule_matches], with [generate_assignments] and
    [get_optimizing_solution]), and Prim's algorithm with a lazy heap
    ([prim_mst], called by [build_stadium_network]).

    Python values are modelled as follows: [int] as [Z], [str] as [string],
    [dict] as [gmap], [list] as [list], [Optional] as [option].  A Python
    exception is a [Raise] outcome of the [res] monad; [OutOfFuel] is the
    outcome of a [while] loop cut off by the bound on its rounds, which
    [prim_mst] is shown never to reach. *)

From Stdlib Require OrdersEx Uint63.
From Stdlib Require Import Floats.PrimFloat Sorting.Sorted.
From stdpp Require Import gmap strings list fin_maps pretty relations.
Import Stdlib.Structures.OrdersEx.

Open Scope Z_scope.
Open Scope nat_scope.

(** ** Outcomes of a Python call *)

Inductive exn := IndexError | KeyError.

Inductive res (A : Type) : Type :=
  | Ret (a : A)
  | Raise (e : exn)
  | OutOfFuel.
Arguments Ret {A} a.
Arguments Raise {A} e.
Arguments OutOfFuel {A}.

Global Instance res_ret : MRet res := λ A a, Ret a.
Global Instance res_bind : MBind res := λ A B f m,
  match m with
  | Ret a => f a
  | Raise e => Raise e
  | OutOfFuel => OutOfFuel
  end.

(** ** Data model of the scheduler *)

Module Sched.

(** [Match = Tuple[int, int]] *)
Abbreviation Match := (Z * Z)%type.

(** [class Stadium] with its two attributes. *)
Record Stadium := mkStadium { id : string; name : string }.

(** [DaySchedule = Dict[str, Match]], [Schedule = List[DaySchedule]] *)
Abbreviation DaySchedule := (gmap string Match).
Abbreviation Schedule := (list DaySchedule).

(** *** [itertools.permutations(arr, k)]

    The library function yields the arrangements of [k] positions of
    [arr], in lexicographic order of the positions.  [picks arr] lists,
    for every position, the element there and the list without it. *)
Fixpoint picks {A} (arr : list A) : list (A * list A) :=
  match arr with
  | [] => []
  | x :: xs => (x, xs) :: map (λ p, (p.1, x :: p.2)) (picks xs)
  end.

Fixpoint k_permutations {A} (arr : list A) (k : nat) : list (list A) :=
  match k with
  | 0 => [[]]
  | S k' => flat_map (λ p, map (cons p.1) (k_permutations p.2 k')) (picks arr)
  end.

(** *** [generate_assignments] *)

(** The inner loop [for i, match in enumerate(block):
    day_sched[perm[i].id] = match], started at index [i]. *)
Fixpoint assign_block (i : nat) (block : list Match) (perm : list Stadium)
    (day_sched : DaySchedule) : res DaySchedule :=
  match block with
  | [] => Ret day_sched
  | mt :: block' =>
      match perm !! i with
      | None => Raise IndexError
      | Some s => assign_block (S i) block' perm (<[id s := mt]> day_sched)
      end
  end.

(** The outer loop [for perm in perms: ...; assignments.append(day_sched)]. *)
Fixpoint collect_assignments (block : list Match) (perms : list (list Stadium))
    (assignments : list DaySchedule) : res (list DaySchedule) :=
  match perms with
  | [] => Ret assignments
  | perm :: perms' =>
      day_sched ← assign_block 0 block perm ∅;
      collect_assignments block perms' (assignments ++ [day_sched])
  end.

Definition generate_assignments (block : list Match) (stadiums : list Stadium)
    : res (list DaySchedule) :=
  if decide (length stadiums < length block) then Ret []
  else collect_assignments block (k_permutations stadiums (length block)) [].

(** *** [get_optimizing_solution] *)

(** [for assignment in day_assignments: candidate = [assignment] + dp[i+k];
    if best is None or len(candidate) < len(best): best = candidate] *)
Fixpoint try_assignments (day_assignments : list DaySchedule) (rest : Schedule)
    (best : option Schedule) : option Schedule :=
  match day_assignments with
  | [] => best
  | assignment :: das =>
      let candidate := assignment :: rest in
      let best' :=
        match best with
        | None => Some candidate
        | Some b => if decide (length candidate < length b)
                    then Some candidate else best
        end in
      try_assignments das rest best'
  end.

(** The loop [for k in range(1, m + 1)] over the remaining values [ks] of
    [k]; [break] returns the current [best], [continue] goes on with the
    next [k]. *)
Fixpoint block_loop (ks : list nat) (i : nat) (dp : list (option Schedule))
    (matches : list Match) (stadiums : list Stadium) (best : option Schedule)
    : res (option Schedule) :=
  match ks with
  | [] => Ret best
  | k :: ks' =>
      if decide (length matches < i + k) then Ret best
      else
        let block := take k (drop i matches) in
        day_assignments ← generate_assignments block stadiums;
        match day_assignments with
        | [] => block_loop ks' i dp matches stadiums best
        | _ :: _ =>
            match dp !! (i + k) with
            | None => Raise IndexError
            | Some None => block_loop ks' i dp matches stadiums best
            | Some (Some rest) =>
                block_loop ks' i dp matches stadiums
                  (try_assignments day_assignments rest best)
            end
        end
  end.

Definition get_optimizing_solution (i : nat) (dp : list (option Schedule))
    (matches : list Match) (stadiums : list Stadium) : res (option Schedule) :=
  let m := length stadiums in
  block_loop (seq 1 m) i dp matches stadiums None.

(** *** [schedule_matches] *)

(** [[Stadium(f"s{i+1}", f"Stadium {i+1}") for i in range(num_stadiums)]];
    [range] of a negative number is empty. *)
Definition make_stadiums (num_stadiums : Z) : list Stadium :=
  map (λ i, mkStadium ("s" +:+ pretty (i + 1)) ("Stadium " +:+ pretty (i + 1)))
      (seq 0 (Z.to_nat num_stadiums)).

(** [dp[i] = v] on a Python list. *)
Definition list_set {A} (l : list A) (i : nat) (v : A) : res (list A) :=
  if decide (i < length l) then Ret (<[i := v]> l) else Raise IndexError.

(** [for i in range(n-1, -1, -1): dp[i] = get_optimizing_solution(...)],
    over the remaining values [idxs] of [i]. *)
Fixpoint dp_fill (idxs : list nat) (dp : list (option Schedule))
    (matches : list Match) (stadiums : list Stadium)
    : res (list (option Schedule)) :=
  match idxs with
  | [] => Ret dp
  | i :: idxs' =>
      s ← get_optimizing_solution i dp matches stadiums;
      dp' ← list_set dp i s;
      dp_fill idxs' dp' matches stadiums
  end.

Definition schedule_matches (matches : list Match) (num_stadiums : Z)
    : res (option Schedule) :=
  let n := length matches in
  let stadiums := make_stadiums num_stadiums in
  dp0 ← list_set (replicate (n + 1) None) n (Some []);
  dp ← dp_fill (rev (seq 0 n)) dp0 matches stadiums;
  match dp !! 0 with
  | None => Raise IndexError
  | Some r => Ret r
  end.

(** [create_matches(length)] *)
Definition create_matches (length : nat) : list Match :=
  map (λ i, (2 * Z.of_nat i + 1, 2 * Z.of_nat i + 2)%Z) (seq 0 length).

End Sched.

Import Sched.

(** ** Data model of the network builder *)

Module Prim.

(** A heap entry [(cost, frm, to)]. *)
Abbreviation entry := (Z * string * string)%type.

(** The table of weights.  [prim_mst] is annotated with
    [Dict[Tuple[str, str], float]]; its caller [build_stadium_network]
    passes a table of Python integers, and this module reads the program
    on such tables: a weight is an integer, and [+], [<] and [==] on
    weights are exact.  What is proved about sums of weights is proved for
    tables of integers only; the module [PrimF] below reads the same
    program on tables of floats. *)
Abbreviation table := (gmap (string * string) Z).

(** Python compares tuples lexicographically, numbers by value and strings
    by code points. *)
Definition entry_ltb (x y : entry) : bool :=
  match (x.1.1 ?= y.1.1)%Z with
  | Lt => true
  | Gt => false
  | Eq =>
      match String.compare x.1.2 y.1.2 with
      | Lt => true
      | Gt => false
      | Eq => String.ltb x.2 y.2
      end
  end.

(** *** [heapq]

    The heap is modelled by the list of its entries: [heappush] adds an
    entry and [heappop] takes a least entry out.  The order on entries is
    total and entries that compare equal are the same tuple, so what
    [heappop] returns does not depend on how the library lays the heap
    out. *)
Definition heappush (heap : list entry) (x : entry) : list entry := x :: heap.

Fixpoint heap_min (x : entry) (heap : list entry) : entry :=
  match heap with
  | [] => x
  | y :: heap' => heap_min (if entry_ltb y x then y else x) heap'
  end.

Fixpoint heap_remove (x : entry) (heap : list entry) : list entry :=
  match heap with
  | [] => []
  | y :: heap' => if decide (y = x) then heap' else y :: heap_remove x heap'
  end.

Definition heappop (heap : list entry) : res (entry * list entry) :=
  match heap with
  | [] => Raise IndexError
  | x :: heap' => let least := heap_min x heap' in
                  Ret (least, heap_remove least heap)
  end.

(** *** [prim_mst] *)

(** The local variables of [prim_mst] that the loop updates. *)
Record state := mkState {
  visited : gmap string bool;
  min_heap : list entry;
  mst : list (string * string);
  total_cost : Z
}.

(** [for neighbor in stadiums: if not visited[neighbor] and (to, neighbor)
    in distances: push ... elif not visited[neighbor] and (neighbor, to) in
    distances: push ...], over the remaining [neighbors]. *)
Fixpoint push_neighbors (neighbors : list string) (to : string)
    (visited : gmap string bool) (distances : table) (min_heap : list entry)
    : res (list entry) :=
  match neighbors with
  | [] => Ret min_heap
  | neighbor :: neighbors' =>
      match visited !! neighbor with
      | None => Raise KeyError
      | Some true => push_neighbors neighbors' to visited distances min_heap
      | Some false =>
          match distances !! (to, neighbor) with
          | Some w =>
              push_neighbors neighbors' to visited distances
                (heappush min_heap (w, to, neighbor))
          | None =>
              match distances !! (neighbor, to) with
              | Some w =>
                  push_neighbors neighbors' to visited distances
                    (heappush min_heap (w, to, neighbor))
              | None =>
                  push_neighbors neighbors' to visited distances min_heap
              end
          end
      end
  end.

(** The condition of the [while] loop. *)
Definition loop_cond (stadiums : list string) (st : state) : bool :=
  bool_decide (min_heap st ≠ [])
  && bool_decide (Z.of_nat (length (mst st)) < Z.of_nat (length stadiums) - 1)%Z.

(** The body of the [while] loop. *)
Definition prim_step (stadiums : list string) (distances : table) (st : state)
    : res state :=
  popped ← heappop (min_heap st);
  let '(cost, frm, to, heap') := popped in
  match visited st !! to with
  | None => Raise KeyError
  | Some true => Ret (mkState (visited st) heap' (mst st) (total_cost st))
  | Some false =>
      let visited' := <[to := true]> (visited st) in
      let total_cost' := (total_cost st + cost)%Z in
      let mst' := if decide (frm ≠ to) then mst st ++ [(frm, to)] else mst st in
      heap'' ← push_neighbors stadiums to visited' distances heap';
      Ret (mkState visited' heap'' mst' total_cost')
  end.

Fixpoint prim_loop (fuel : nat) (stadiums : list string) (distances : table)
    (st : state) : res state :=
  if loop_cond stadiums st then
    match fuel with
    | 0 => OutOfFuel
    | S fuel' =>
        st' ← prim_step stadiums distances st;
        prim_loop fuel' stadiums distances st'
    end
  else Ret st.

(** The loop pops one entry each time round; one entry is there at the
    start and every vertex pushes at most [len(stadiums)] entries when it
    is visited, so this many rounds are enough. *)
Definition prim_fuel (stadiums : list string) : nat :=
  S (length stadiums * length stadiums).

(** [visited = {stadium: False for stadium in stadiums}] *)
Definition init_visited (stadiums : list string) : gmap string bool :=
  foldl (λ d stadium, <[stadium := false]> d) ∅ stadiums.

Definition init_state (stadiums : list string) (s0 : string) : state :=
  mkState (init_visited stadiums) [(0%Z, s0, s0)] [] 0%Z.

Definition prim_mst (stadiums : list string) (distances : table)
    : res (Z * list (string * string)) :=
  match stadiums !! 0 with
  | None => Raise IndexError
  | Some s0 =>
      st ← prim_loop (prim_fuel stadiums) stadiums distances
             (init_state stadiums s0);
      Ret (total_cost st, mst st)
  end.

(** The table of [build_stadium_network]. *)
Definition stadium_distances : table :=
  list_to_map
    [ (("s1", "s2"), 5%Z); (("s1", "s3"), 10%Z); (("s1", "s4"), 15%Z);
      (("s1", "s5"), 20%Z); (("s2", "s3"), 25%Z); (("s2", "s4"), 20%Z);
      (("s2", "s5"), 15%Z); (("s3", "s4"), 10%Z); (("s3", "s5"), 5%Z);
      (("s4", "s5"), 10%Z) ].

End Prim.
Import Prim.

(** ** The network builder on a table of floats

    [prim_mst] is annotated with [Dict[Tuple[str, str], float]].  The
    module [Prim] above reads the program on tables of Python integers,
    where [+] and the comparisons are exact; this module reads the same
    lines on tables of floats, where [total_cost += cost] rounds at every
    step.  The two differ in the type of the weights and in nothing
    else. *)

Module PrimF.

(** A heap entry [(cost, frm, to)]. *)

Abbreviation entry := (float * string * string)%type.
(** [Dict[Tuple[str, str], float]] *)
Abbreviation table := (gmap (string * string) float).

(** Python compares tuples at the first position where the two differ
    by [==]: the costs as floats, the names by code points. *)
Definition entry_ltb (x y : entry) : bool :=
  if PrimFloat.eqb x.1.1 y.1.1 then
    match String.compare x.1.2 y.1.2 with
    | Lt => true
    | Gt => false
    | Eq => String.ltb x.2 y.2
    end
  else PrimFloat.ltb x.1.1 y.1.1.

(** The same tuple: the same float and the same two names. *)
Definition entry_is (x y : entry) : bool :=
  PrimFloat.Leibniz.eqb x.1.1 y.1.1
  && bool_decide (x.1.2 = y.1.2) && bool_decide (x.2 = y.2).

(** [heapq], as in [Prim]: the list of the entries, [heappop] taking a
    least one out.  On costs that are numbers (no NaN) the order is
    total, so the entry that [heappop] returns does not depend on the
    layout of the heap. *)
Definition heappush (heap : list entry) (x : entry) : list entry := x :: heap.

Fixpoint heap_min (x : entry) (heap : list entry) : entry :=
  match heap with
  | [] => x
  | y :: heap' => heap_min (if entry_ltb y x then y else x) heap'
  end.

Fixpoint heap_remove (x : entry) (heap : list entry) : list entry :=
  match heap with
  | [] => []
  | y :: heap' => if entry_is y x then heap' else y :: heap_remove x heap'
  end.

Definition heappop (heap : list entry) : res (entry * list entry) :=
  match heap with
  | [] => Raise IndexError
  | x :: heap' => let least := heap_min x heap' in
                  Ret (least, heap_remove least heap)
  end.

(** The local variables of [prim_mst] that the loop updates. *)
Record state := mkState {
  visited : gmap string bool;
  min_heap : list entry;
  mst : list (string * string);
  total_cost : float
}.

Fixpoint push_neighbors (neighbors : list string) (to : string)
    (visited : gmap string bool) (distances : table) (min_heap : list entry)
    : res (list entry) :=
  match neighbors with
  | [] => Ret min_heap
  | neighbor :: neighbors' =>
      match visited !! neighbor with
      | None => Raise KeyError
      | Some true => push_neighbors neighbors' to visited distances min_heap
      | Some false =>
          match distances !! (to, neighbor) with
          | Some w =>
              push_neighbors neighbors' to visited distances
                (heappush min_heap (w, to, neighbor))
          | None =>
              match distances !! (neighbor, to) with
              | Some w =>
                  push_neighbors neighbors' to visited distances
                    (heappush min_heap (w, to, neighbor))
              | None =>
                  push_neighbors neighbors' to visited distances min_heap
              end
          end
      end
  end.

(** The condition of the [while] loop. *)
Definition loop_cond (stadiums : list string) (st : state) : bool :=
  bool_decide (min_heap st ≠ [])
  && bool_decide (Z.of_nat (length (mst st)) < Z.of_nat (length stadiums) - 1)%Z.

(** The body of the [while] loop; [total_cost += cost] is the float sum. *)
Definition prim_step (stadiums : list string) (distances : table) (st : state)
    : res state :=
  popped ← heappop (min_heap st);
  let '(cost, frm, to, heap') := popped in
  match visited st !! to with
  | None => Raise KeyError
  | Some true => Ret (mkState (visited st) heap' (mst st) (total_cost st))
  | Some false =>
      let visited' := <[to := true]> (visited st) in
      let total_cost' := (total_cost st + cost)%float in
      let mst' := if decide (frm ≠ to) then mst st ++ [(frm, to)] else mst st in
      heap'' ← push_neighbors stadiums to visited' distances heap';
      Ret (mkState visited' heap'' mst' total_cost')
  end.

Fixpoint prim_loop (fuel : nat) (stadiums : list string) (distances : table)
    (st : state) : res state :=
  if loop_cond stadiums st then
    match fuel with
    | 0 => OutOfFuel
    | S fuel' =>
        st' ← prim_step stadiums distances st;
        prim_loop fuel' stadiums distances st'
    end
  else Ret st.

Definition prim_fuel (stadiums : list string) : nat :=
  S (length stadiums * length stadiums).

Definition init_visited (stadiums : list string) : gmap string bool :=
  foldl (λ d stadium, <[stadium := false]> d) ∅ stadiums.

(** [min_heap = [(0, stadiums[0], stadiums[0])]] and [total_cost = 0]:
    the integer 0 compares and adds as the float 0.0. *)
Definition init_state (stadiums : list string) (s0 : string) : state :=
  mkState (init_visited stadiums) [(0%float, s0, s0)] [] 0%float.

Definition prim_mst (stadiums : list string) (distances : table)
    : res (float * list (string * string)) :=
  match stadiums !! 0 with
  | None => Raise IndexError
  | Some s0 =>
      st ← prim_loop (prim_fuel stadiums) stadiums distances
             (init_state stadiums s0);
      Ret (total_cost st, mst st)
  end.

(** A path [a - b - c - d] with weights 0.1, 0.2 and 0.3 (the doubles
    nearest to these decimals, as in Python). *)
Set Warnings "-inexact-float".
Definition tenths : table :=
  list_to_map
    [ (("a", "b"), 0.1%float); (("b", "c"), 0.2%float);
      (("c", "d"), 0.3%float) ].
Set Warnings "inexact-float".

End PrimF.

(** ** The report of the network *)

Module Report.

(** Standard output is modelled by the list of the texts written, one
    for each call of [print], each with the end that [print] adds. *)
Definition nl : string := String (Ascii.ascii_of_nat 10) "".

Definition print_end (out : list string) (text ending : string)
    : list string :=
  out ++ [text +:+ ending].

Definition print (out : list string) (text : string) : list string :=
  print_end out text nl.

(** [f"{total_cost:.2f}"] for an integer: its decimal digits and two
    zeros after the point.  (Python converts the integer to a float
    first, which is exact below [2^53]; the total of a tree of the fixed
    table stays far below.) *)
Definition format_2f (z : Z) : string := pretty z +:+ ".00".

(** The line printed for one edge of the tree. *)
Definition edge_line (e : string * string) : string :=
  " - " +:+ e.1 +:+ " connected to " +:+ e.2.

(** [build_stadium_network].  The handler [except ValueError] catches
    nothing that [prim_mst] raises ([IndexError], [KeyError]): these
    exceptions leave the function. *)
Definition build_stadium_network (stadiums : list string)
    (out : list string) : res (list string) :=
  let distances := stadium_distances in
  match prim_mst stadiums distances with
  | Ret (total_cost, mst) =>
      let out := print out (nl +:+ "====== MINIMAL STADIUMS ROADS NETWORK (MST) ====") in
      let out := print out ("Total length of roads network : "
                            +:+ format_2f total_cost +:+ " miles") in
      Ret (foldl (λ out e, print out (edge_line e)) out mst)
  | Raise e => Raise e
  | OutOfFuel => OutOfFuel
  end.

End Report.
Import Report.

(** ** The tournament ([tournament.py]) *)

Module Tourn.

(** *** Teams *)

(** The dictionary of a team, with its six keys. *)
Record team := mkTeam {
  name : string;
  level : string;
  points : Z;
  group : option Z;
  rank : option Z;
  prize : float
}.

Global Instance team_inhabited : Inhabited team :=
  populate (mkTeam "" "" 0 None None 0%float).

(** The dictionaries are shared between the lists of the tournament and
    changed in place.  They live in a heap, the list of all dictionaries
    made so far, and the program holds references to them, their
    positions in the heap.  Every reference that the program holds comes
    from the allocation of a dictionary. *)
Abbreviation ref := nat.

(** *** The [random] module

    The generator is modelled by its state and the three functions the
    tournament calls; [RandomLaws] states what the library promises of
    them.  [choice] returns [None] where the library raises
    [IndexError] (on an empty sequence). *)
Class Random (rng : Type) := {
  randint : Z → Z → rng → Z * rng;
  choice : ∀ A : Type, list A → rng → option A * rng;
  shuffle : ∀ A : Type, list A → rng → list A * rng
}.
Arguments choice {rng _ A} _ _.
Arguments shuffle {rng _ A} _ _.

Class RandomLaws (rng : Type) `{Random rng} : Prop := {
  randint_range : ∀ a b g, (a ≤ b)%Z → (a ≤ (randint a b g).1 ≤ b)%Z;
  choice_elem : ∀ A (l : list A) g,
    match (choice l g).1 with
    | Some x => x ∈ l
    | None => l = []
    end;
  shuffle_perm : ∀ A (l : list A) g, (shuffle l g).1 ≡ₚ l
}.

(** *** What the interpreter does with texts and dictionaries

    [format_float] is the text of [f"{x:.2f}"] for a float, [repr_team]
    the text that [print] writes for the dictionary of a team, and
    [items] the pairs of a day of the schedule in the order in which
    [dict.items()] gives them.  [HostLaws]: [items] gives every pair of
    the dictionary once. *)
Class Host := {
  format_float : float → string;
  repr_team : team → string;
  items : DaySchedule → list (string * Match)
}.

Class HostLaws `{Host} : Prop := {
  items_perm : ∀ d, items d ≡ₚ map_to_list d
}.

(** *** Programs that draw random numbers, print and change teams *)

Record world (rng : Type) := mkWorld {
  gen : rng;
  out : list string;
  heap : list team
}.
Arguments mkWorld {rng} gen out heap.
Arguments gen {rng} w.
Arguments out {rng} w.
Arguments heap {rng} w.

Definition M (rng A : Type) : Type := world rng → res (A * world rng).

Global Instance M_ret rng : MRet (M rng) := λ A a w, Ret (a, w).
Global Instance M_bind rng : MBind (M rng) := λ A B f m w,
  match m w with
  | Ret (a, w') => f a w'
  | Raise e => Raise e
  | OutOfFuel => OutOfFuel
  end.

Section Actions.
Context {rng : Type} `{Random rng}.

Definition raise {A} (e : exn) : M rng A := λ _, Raise e.

Definition out_of_fuel {A} : M rng A := λ _, OutOfFuel.

(** [res] results inside [M]. *)
Definition lift {A} (r : res A) : M rng A :=
  λ w, match r with
       | Ret a => Ret (a, w)
       | Raise e => Raise e
       | OutOfFuel => OutOfFuel
       end.

(** [print(text)] and [print(text, end=ending)] *)
Definition say (text : string) : M rng unit :=
  λ w, Ret (tt, mkWorld (gen w) (print (out w) text) (heap w)).

Definition say_end (text ending : string) : M rng unit :=
  λ w, Ret (tt, mkWorld (gen w) (print_end (out w) text ending) (heap w)).

(** [random.randint(a, b)], [random.choice(l)], [random.shuffle(l)] *)
Definition rand_int (a b : Z) : M rng Z :=
  λ w, let r := randint a b (gen w) in
       Ret (r.1, mkWorld r.2 (out w) (heap w)).

Definition rand_choice {A} (l : list A) : M rng A :=
  λ w, let r := choice l (gen w) in
       match r.1 with
       | Some x => Ret (x, mkWorld r.2 (out w) (heap w))
       | None => Raise IndexError
       end.

Definition rand_shuffle {A} (l : list A) : M rng (list A) :=
  λ w, let r := shuffle l (gen w) in
       Ret (r.1, mkWorld r.2 (out w) (heap w)).

(** [l[i]] on a Python list, for an index that is not negative. *)
Definition item {A} (l : list A) (i : nat) : M rng A :=
  match l !! i with
  | Some x => mret x
  | None => raise IndexError
  end.

(** [l[z]] on a Python list, for any integer: a negative index counts
    from the end. *)
Definition py_item {A} (l : list A) (z : Z) : M rng A :=
  if decide (0 ≤ z)%Z then item l (Z.to_nat z)
  else if decide (- Z.of_nat (length l) ≤ z)%Z
  then item l (Z.to_nat (Z.of_nat (length l) + z))
  else raise IndexError.

(** The dictionary behind a reference, a change of it in place, and a
    new dictionary. *)
Definition deref (tm : ref) : M rng team :=
  λ w, Ret (heap w !!! tm, w).

Definition update (tm : ref) (f : team → team) : M rng unit :=
  λ w, Ret (tt, mkWorld (gen w) (out w) (alter f tm (heap w))).

Definition alloc (t : team) : M rng ref :=
  λ w, Ret (length (heap w), mkWorld (gen w) (out w) (heap w ++ [t])).

Definition get_heap : M rng (list team) := λ w, Ret (heap w, w).

End Actions.

(** [sorted(l, key=...)]: the sort is stable, so the keys fix its
    result, the one that sorting by insertion gives.  [ltb] is [<] on
    the keys. *)
Fixpoint insert_sorted {A K} (ltb : K → K → bool) (key : A → K) (x : A)
    (l : list A) : list A :=
  match l with
  | [] => [x]
  | y :: l' =>
      if ltb (key y) (key x) then y :: insert_sorted ltb key x l'
      else x :: l
  end.

Definition sorted {A K} (ltb : K → K → bool) (key : A → K) (l : list A)
    : list A :=
  foldr (insert_sorted ltb key) [] l.

(** [<] on the pairs of an integer and a string. *)
Definition pair_ltb (x y : Z * string) : bool :=
  match (x.1 ?= y.1)%Z with
  | Lt => true
  | Gt => false
  | Eq => String.ltb x.2 y.2
  end.

(** [str(x)] for an integer or [None]. *)
Definition py_str (x : option Z) : string :=
  match x with
  | Some z => pretty z
  | None => "None"
  end.

(** [ordinal] *)
Definition ordinal (rank : option Z) : string :=
  if decide (rank = Some 1%Z) then "first"
  else if decide (rank = Some 2%Z) then "second"
  else if decide (rank = Some 3%Z) then "third"
  else if decide (rank = Some 4%Z) then "fourth"
  else "#" +:+ py_str rank.

(** Assignments to the keys of a team. *)
Definition set_points (n : Z) (t : team) : team :=
  mkTeam (name t) (level t) n (group t) (rank t) (prize t).

Definition add_points (n : Z) (t : team) : team :=
  mkTeam (name t) (level t) (points t + n)%Z (group t) (rank t) (prize t).

Definition set_group (g : Z) (t : team) : team :=
  mkTeam (name t) (level t) (points t) (Some g) (rank t) (prize t).

Definition set_rank (r : Z) (t : team) : team :=
  mkTeam (name t) (level t) (points t) (group t) (Some r) (prize t).

Definition add_prize (x : float) (t : team) : team :=
  mkTeam (name t) (level t) (points t) (group t) (rank t) (prize t + x)%float.

(** *** [determine_winner], on the heap *)
Definition determine_winner (scoreA scoreB : Z) (teamA teamB : ref)
    (store : list team) : list team :=
  if decide (scoreB < scoreA)%Z then alter (add_points 3) teamA store
  else if decide (scoreA < scoreB)%Z then alter (add_points 3) teamB store
  else alter (add_points 1) teamB (alter (add_points 1) teamA store).

(** *** [create_knockout_matches] *)

(** [l[i]] where the failure is the result. *)
Definition index {A} (l : list A) (i : nat) : res A :=
  match l !! i with
  | Some x => Ret x
  | None => Raise IndexError
  end.

(** The loop [for i in range(0, len(qualified), 2)], over the remaining
    values [idxs] of [i]. *)
Fixpoint knockout_pairs {A} (idxs : list nat) (qualified : list (list A))
    (matches : list (A * A)) : res (list (A * A)) :=
  match idxs with
  | [] => Ret matches
  | i :: idxs' =>
      if decide (i + 1 < length qualified) then
        grp1 ← index qualified i;
        grp2 ← index qualified (i + 1);
        a1 ← index grp1 0;
        b2 ← index grp2 1;
        a2 ← index grp1 1;
        b1 ← index grp2 0;
        knockout_pairs idxs' qualified (matches ++ [(a1, b2)] ++ [(a2, b1)])
      else knockout_pairs idxs' qualified matches
  end.

(** [range(0, n, 2)] *)
Definition evens (n : nat) : list nat := (λ j, 2 * j) <$> seq 0 ((n + 1) / 2).

Definition create_knockout_matches {A} (qualified_for_stage2 : list (list A))
    : res (list (A * A)) :=
  knockout_pairs (evens (length qualified_for_stage2)) qualified_for_stage2 [].

(** *** [Tournament] *)

Record Tournament := mkTournament {
  num_teams : Z;
  num_stadiums : Z;
  user_budget : float;
  teams : list ref;
  final_standings_per_group : list (list ref);
  qualified_for_stage2 : list (list ref);
  stadiums : list string
}.

(** The argument [num_teams] of the constructor: an integer, or an object
    that is no instance of [int]. *)
Inductive pyobj := PyInt (z : Z) | PyOther.

(** The constructor returns the object or raises [ValueError] with a
    message. *)
Inductive built := Built (t : Tournament) | ValueError (msg : string).

Definition Tournament_init (num_teams : pyobj) (num_stadiums : Z)
    (user_budget : float) : built :=
  match num_teams with
  | PyOther => ValueError "Number of teams must be an integer."
  | PyInt n =>
      if decide (n < 4)%Z then ValueError "Number of teams must be >= 4."
      else if decide (n `mod` 4 ≠ 0)%Z
      then ValueError "Number of teams must be a multiple of 4."
      else Built (mkTournament n num_stadiums user_budget [] [] []
                    ((λ i, "s" +:+ pretty (i + 1))
                       <$> seq 0 (Z.to_nat num_stadiums)))
  end.

(** The six matches of a group of four. *)
Definition matchups : list Match :=
  [(0, 1); (0, 2); (0, 3); (1, 2); (1, 3); (2, 3)]%Z.

(** The dictionary [rank_shares] of [award_budget_greedy]; the decimal
    numbers are read as the nearest floats. *)
Set Warnings "-inexact-float".
Definition rank_shares : gmap Z float :=
  {[ 1%Z := 0.50%float; 2%Z := 0.30%float; 3%Z := 0.15%float;
     4%Z := 0.05%float ]}.
Set Warnings "inexact-float".

(** The float of the length of a list. *)
Definition float_of_len (n : nat) : float :=
  PrimFloat.of_uint63 (Uint63.of_Z (Z.of_nat n)).

Section Programs.
Context {rng : Type} `{Random rng} `{Host}.

(** *** [create_teams] *)

(** The loop [for i in range(1, self.num_teams + 1)], over the remaining
    values [idxs] of [i]. *)
Fixpoint append_teams (idxs : list nat) (levels : list string)
    (teams : list ref) : M rng (list ref) :=
  match idxs with
  | [] => mret teams
  | i :: idxs' =>
      lv ← item levels (i - 1);
      tm ← alloc (mkTeam ("Team " +:+ pretty i) lv 0 None None 0%float);
      append_teams idxs' levels (teams ++ [tm])
  end.

Definition create_teams (self : Tournament) : M rng Tournament :=
  let quarter := Z.to_nat (num_teams self / 4) in
  let levels := replicate quarter "A" ++ replicate quarter "B"
                ++ replicate quarter "C" ++ replicate quarter "D" in
  levels ← rand_shuffle levels;
  teams' ← append_teams (seq 1 (Z.to_nat (num_teams self))) levels
             (teams self);
  mret (mkTournament (num_teams self) (num_stadiums self) (user_budget self)
          teams' (final_standings_per_group self)
          (qualified_for_stage2 self) (stadiums self)).

(** *** [run_group_stage] *)

(** The loop [while levelA and levelB and levelC and levelD], cut off
    after [fuel] groups. *)
Fixpoint form_groups (fuel : nat) (levelA levelB levelC levelD : list ref)
    (groups : list (list ref)) : res (list (list ref)) :=
  match last levelA, last levelB, last levelC, last levelD with
  | Some a, Some b, Some c, Some d =>
      match fuel with
      | 0 => OutOfFuel
      | S fuel' =>
          form_groups fuel' (removelast levelA) (removelast levelB)
            (removelast levelC) (removelast levelD) (groups ++ [[a; b; c; d]])
      end
  | _, _, _, _ => Ret groups
  end.

(** [for tm in group: tm['points'] = 0] *)
Fixpoint reset_points (group : list ref) : M rng unit :=
  match group with
  | [] => mret tt
  | tm :: group' => update tm (set_points 0);; reset_points group'
  end.

(** [[(group[i], group[j]) for (i, j) in matchups]] *)
Fixpoint group_pairs (group : list ref) (pairs : list Match)
    : M rng (list (ref * ref)) :=
  match pairs with
  | [] => mret []
  | (i, j) :: pairs' =>
      a ← py_item group i;
      b ← py_item group j;
      rest ← group_pairs group pairs';
      mret ((a, b) :: rest)
  end.

(** The call of [determine_winner] on the dictionaries in place. *)
Definition award_points (scoreA scoreB : Z) (teamA teamB : ref) : M rng unit :=
  λ w, Ret (tt, mkWorld (gen w) (out w)
                  (determine_winner scoreA scoreB teamA teamB (heap w))).

(** The loop [for stadium_id, match in day_schedule.items()]. *)
Fixpoint play_items (group : list ref) (day_items : list (string * Match))
    : M rng unit :=
  match day_items with
  | [] => mret tt
  | (stadium_id, mtch) :: day_items' =>
      teamA ← py_item group mtch.1;
      teamB ← py_item group mtch.2;
      scoreA ← rand_int 0 5;
      scoreB ← rand_int 0 5;
      a ← deref teamA;
      b ← deref teamB;
      say ("Match: " +:+ name a +:+ "(L:" +:+ level a +:+ ") vs "
           +:+ name b +:+ "(L:" +:+ level b +:+ ") at " +:+ stadium_id
           +:+ " => " +:+ pretty scoreA +:+ "-" +:+ pretty scoreB);;
      award_points scoreA scoreB teamA teamB;;
      play_items group day_items'
  end.

(** The loop [for day_schedule in schedule]. *)
Fixpoint play_days (group : list ref) (schedule : Schedule) : M rng unit :=
  match schedule with
  | [] => mret tt
  | day_schedule :: schedule' =>
      play_items group (items day_schedule);;
      play_days group schedule'
  end.

(** The loop [for tm in sorted_group] of the standings. *)
Fixpoint assign_ranks (sorted_group : list ref) (group_index : Z)
    (rank_counter : Z) : M rng unit :=
  match sorted_group with
  | [] => mret tt
  | tm :: sorted_group' =>
      update tm (set_group group_index);;
      update tm (set_rank rank_counter);;
      t ← deref tm;
      say (" " +:+ pretty rank_counter +:+ ") " +:+ name t
           +:+ ", Points = " +:+ pretty (points t));;
      assign_ranks sorted_group' group_index (rank_counter + 1)
  end.

(** The loop [for group in groups], with [group_index] and the list
    [self.final_standings_per_group]. *)
Fixpoint play_groups (num_stadiums : Z) (groups : list (list ref))
    (group_index : Z) (standings : list (list ref))
    : M rng (list (list ref)) :=
  match groups with
  | [] => mret standings
  | group :: groups' =>
      reset_points group;;
      say (nl +:+ "==== GROUP " +:+ pretty group_index
           +:+ " STAGE MATCHES ===");;
      matches ← group_pairs group matchups;
      let match_tuples := matchups in
      schedule ← lift (schedule_matches match_tuples num_stadiums);
      match schedule with
      | None =>
          say "No valid schedule found for the group stage.";;
          play_groups num_stadiums groups' group_index standings
      | Some schedule =>
          play_days group schedule;;
          store ← get_heap;
          let sorted_group :=
            sorted pair_ltb
              (λ t, ((- points (store !!! t))%Z, name (store !!! t))) group in
          say (nl +:+ "-- FINAL GROUP STANDINGS --");;
          assign_ranks sorted_group group_index 1;;
          play_groups num_stadiums groups' (group_index + 1)
            (standings ++ [sorted_group])
      end
  end.

(** *** [augment_greedily] and [award_budget_greedy] *)

(** The loop [for tm in rank_teams]. *)
Fixpoint share_out (rank_teams : list ref) (share_each : float) : M rng unit :=
  match rank_teams with
  | [] => mret tt
  | tm :: rank_teams' =>
      update tm (add_prize share_each);;
      t ← deref tm;
      let rank_str := ordinal (rank t) in
      say (name t +:+ " " +:+ rank_str +:+ " in group " +:+ py_str (group t)
           +:+ " awarded $" +:+ format_float share_each);;
      share_out rank_teams' share_each
  end.

Definition augment_greedily (rank_teams : list ref) (portion : float)
    : M rng unit :=
  match rank_teams with
  | [] => mret tt
  | _ :: _ =>
      let share_each := (portion / float_of_len (length rank_teams))%float in
      share_out rank_teams share_each
  end.

(** The loop [for r in [1, 2, 3, 4]], over the remaining values of [r]. *)
Fixpoint award_ranks (rs : list Z) (self : Tournament) : M rng unit :=
  match rs with
  | [] => mret tt
  | r :: rs' =>
      store ← get_heap;
      let rank_teams :=
        flat_map (λ g, filter (λ tm, rank (store !!! tm) = Some r) g)
          (final_standings_per_group self) in
      match rank_teams with
      | [] => award_ranks rs' self
      | _ :: _ =>
          share ← lift (match rank_shares !! r with
                        | Some x => Ret x
                        | None => Raise KeyError
                        end);
          let portion := (share * user_budget self)%float in
          augment_greedily rank_teams portion;;
          award_ranks rs' self
      end
  end.

Definition award_budget_greedy (self : Tournament) : M rng unit :=
  award_ranks [1; 2; 3; 4]%Z self.

(** The loop [for g_idx, grp in enumerate(..., start=1)] of the
    qualifiers. *)
Fixpoint pick_qualifiers (standings : list (list ref)) (g_idx : Z)
    (qualified : list (list ref)) : M rng (list (list ref)) :=
  match standings with
  | [] => mret qualified
  | grp :: standings' =>
      top1 ← item grp 0;
      top2 ← item grp 1;
      t1 ← deref top1;
      t2 ← deref top2;
      say (nl +:+ "==> Group " +:+ pretty g_idx +:+ " Qualifiers: "
           +:+ name t1 +:+ ", " +:+ name t2);;
      pick_qualifiers standings' (g_idx + 1) (qualified ++ [[top1; top2]])
  end.

Definition with_standings (self : Tournament) (standings : list (list ref))
    : Tournament :=
  mkTournament (num_teams self) (num_stadiums self) (user_budget self)
    (teams self) standings (qualified_for_stage2 self) (stadiums self).

Definition with_qualified (self : Tournament) (qualified : list (list ref))
    : Tournament :=
  mkTournament (num_teams self) (num_stadiums self) (user_budget self)
    (teams self) (final_standings_per_group self) qualified (stadiums self).

Definition run_group_stage (self : Tournament) : M rng Tournament :=
  store ← get_heap;
  let sorted_by_level :=
    sorted String.ltb (λ t, level (store !!! t)) (teams self) in
  let levelA := filter (λ t, level (store !!! t) = "A") sorted_by_level in
  let levelB := filter (λ t, level (store !!! t) = "B") sorted_by_level in
  let levelC := filter (λ t, level (store !!! t) = "C") sorted_by_level in
  let levelD := filter (λ t, level (store !!! t) = "D") sorted_by_level in
  groups ← lift (form_groups (length levelA) levelA levelB levelC levelD []);
  standings ← play_groups (num_stadiums self) groups 1
                (final_standings_per_group self);
  let self := with_standings self standings in
  say (nl +:+ "===== First Stage Awards ====");;
  award_budget_greedy self;;
  qualified ← pick_qualifiers (final_standings_per_group self) 1 [];
  mret (with_qualified self qualified).

(** *** [simulate_match] *)
Definition simulate_match (teamA teamB : ref) : M rng (Z * Z) :=
  scoreA ← rand_int 0 5;
  scoreB ← rand_int 0 5;
  mret (scoreA, scoreB).

(** *** [run_matches] *)

(** The loop [for (teamA, teamB) in matches]. *)
Fixpoint run_matches_loop (matches : list (ref * ref))
    (winners : list ref) : M rng (list ref) :=
  match matches with
  | [] => mret winners
  | (teamA, teamB) :: matches' =>
      scores ← simulate_match teamA teamB;
      a ← deref teamA;
      b ← deref teamB;
      let a_rank_str := ordinal (rank a) in
      let b_rank_str := ordinal (rank b) in
      say_end (name a +:+ " " +:+ a_rank_str +:+ " in group "
               +:+ py_str (group a) +:+ " vs "
               +:+ name b +:+ " " +:+ b_rank_str +:+ " in group "
               +:+ py_str (group b) +:+ " => "
               +:+ pretty scores.1 +:+ "-" +:+ pretty scores.2) " ";;
      if decide (scores.2 < scores.1)%Z then
        say ("-> Winner: " +:+ name a);;
        run_matches_loop matches' (winners ++ [teamA])
      else if decide (scores.1 < scores.2)%Z then
        say ("-> Winner: " +:+ name b);;
        run_matches_loop matches' (winners ++ [teamB])
      else
        winner ← rand_choice [teamA; teamB];
        t ← deref winner;
        say ("-> Tie! Random winner: " +:+ name t);;
        run_matches_loop matches' (winners ++ [winner])
  end.

Definition run_matches (matches : list (ref * ref)) (stage_name : string)
    : M rng (list ref) :=
  say (nl +:+ "==== " +:+ stage_name +:+ " KNOCKOUT MATCHES ====");;
  run_matches_loop matches [].

(** *** [run_final_knockout] *)

(** The loop [for i in range(0, len(current), 2)] of one round. *)
Fixpoint play_pairs (idxs : list nat) (current : list ref)
    (next_round_winners : list ref) : M rng (list ref) :=
  match idxs with
  | [] => mret next_round_winners
  | i :: idxs' =>
      teamA ← item current i;
      teamB ← item current (i + 1);
      scores ← simulate_match teamA teamB;
      a ← deref teamA;
      b ← deref teamB;
      say_end (name a +:+ " vs " +:+ name b +:+ " => "
               +:+ pretty scores.1 +:+ "-" +:+ pretty scores.2) " ";;
      if decide (scores.2 < scores.1)%Z then
        say ("-> Winner: " +:+ name a);;
        play_pairs idxs' current (next_round_winners ++ [teamA])
      else if decide (scores.1 < scores.2)%Z then
        say ("-> Winner: " +:+ name b);;
        play_pairs idxs' current (next_round_winners ++ [teamB])
      else
        winner ← rand_choice [teamA; teamB];
        t ← deref winner;
        say ("-> Tie! Random winner: " +:+ name t);;
        play_pairs idxs' current (next_round_winners ++ [winner])
  end.

(** [bye = current.pop()], with the list that is left. *)
Definition pop_last (current : list ref) : M rng (ref * list ref) :=
  match last current with
  | Some bye => mret (bye, take (length current - 1) current)
  | None => raise IndexError
  end.

(** One round: the body of the loop [while len(current) > 1], with the
    new value of [current]. *)
Definition play_round (current : list ref) : M rng (list ref) :=
  say (nl +:+ "==== KNOCKOUT SINGLE ELiMINATION ====");;
  field ←
    (if decide (length current `mod` 2 = 1) then
       popped ← pop_last current;
       bye ← deref popped.1;
       say (name bye +:+ " gets a bye automatically.");;
       mret (popped.2, [popped.1])
     else mret (current, []));
  next_round_winners ← play_pairs (evens (length field.1)) field.1 [];
  new_field ← rand_shuffle (next_round_winners ++ field.2);
  mret new_field.

(** The loop [while len(current) > 1], cut off after [fuel] rounds. *)
Fixpoint knockout_loop (fuel : nat) (current : list ref) : M rng ref :=
  if decide (1 < length current) then
    match fuel with
    | 0 => out_of_fuel
    | S fuel' =>
        current ← play_round current;
        knockout_loop fuel' current
    end
  else item current 0.

(** Every round leaves fewer teams, so [len(teams)] rounds are enough. *)
Definition run_final_knockout (teams : list ref) : M rng ref :=
  current ← rand_shuffle teams;
  knockout_loop (length teams) current.

(** *** [run_tournament] *)

(** The part after the group stage: the choice of [stage2_winners], the
    final knockout and the line that names the champion.  The value is
    the local [champion]. *)
Definition knockout_stages (self : Tournament) : M rng ref :=
  stage2_winners ←
    (if decide (length (final_standings_per_group self) = 1) then
       standing ← item (final_standings_per_group self) 0;
       mret (take 2 standing)
     else
       stage2_pairs ← lift (create_knockout_matches (qualified_for_stage2 self));
       run_matches stage2_pairs "STAGE 2");
  champion ← run_final_knockout stage2_winners;
  t ← deref champion;
  say (nl +:+ "* CHAMPION: " +:+ name t +:+ " ***");;
  mret champion.

(** [for tm in self.teams: print(tm)] *)
Fixpoint print_teams (teams : list ref) : M rng unit :=
  match teams with
  | [] => mret tt
  | tm :: teams' =>
      t ← deref tm;
      say (repr_team t);;
      print_teams teams'
  end.

(** The value is the object as the method leaves it, with the local
    [champion]. *)
Definition run_tournament (self : Tournament) : M rng (Tournament * ref) :=
  self ← create_teams self;
  say (nl +:+ "=== INITIAL TEAMS ===");;
  print_teams (teams self);;
  self ← run_group_stage self;
  champion ← knockout_stages self;
  mret (self, champion).

End Programs.

End Tourn.
Import Tourn.

(** ** Vocabulary of the scheduler's properties *)

(** [P(n, k) = n * (n-1) * ... * (n-k+1)] *)
Fixpoint falling (n k : nat) : nat :=
  match k with
  | 0 => 1
  | S k' => n * falling (n - 1) k'
  end.

(** [day_sched[stadium.id] = match] *)
Definition store_pair (d : DaySchedule) (p : Stadium * Match) : DaySchedule :=
  <[id p.1 := p.2]> d.

(** The dictionary built from one permutation: the i-th stadium of [perm]
    is paired with the i-th match of [block]; a later entry overrides an
    earlier one with the same key, as the dictionary store does. *)
Definition pair_up (block : list Match) (perm : list Stadium) : DaySchedule :=
  foldl store_pair ∅ (zip perm block).

(** The matches hosted on a day. *)
Definition day_matches (d : DaySchedule) : list Match := (map_to_list d).*2.

(** The venues of a day are among [venues]. *)
Definition day_ok (venues : list string) (d : DaySchedule) : Prop :=
  ∀ v, is_Some (d !! v) → v ∈ venues.

(** Every match is played exactly once: the matches of all days, taken
    together, are the given list up to order. *)
Definition covers (matches : list Match) (s : Schedule) : Prop :=
  concat (day_matches <$> s) ≡ₚ matches.

(** A schedule for [matches] on [venues]: every venue hosts at most one
    match a day (a day is a map from venues) and every match is played. *)
Definition feasible (venues : list string) (matches : list Match)
    (s : Schedule) : Prop :=
  Forall (day_ok venues) s ∧ covers matches s.

(** The identifiers of the stadiums that [schedule_matches] creates. *)
Definition venue_ids (num_stadiums : Z) : list string :=
  id <$> make_stadiums num_stadiums.

(** The six matches of a group of four teams. *)
Definition round_robin : list Match :=
  [(0, 1); (0, 2); (0, 3); (1, 2); (1, 3); (2, 3)]%Z.

(** One day of the program: a block of matches paired with as many
    different stadiums. *)
Definition valid_day (stadiums : list Stadium) (block : list Match)
    (d : DaySchedule) : Prop :=
  ∃ perm, perm ⊆+ stadiums ∧ length perm = length block ∧
          d = pair_up block perm.

(** What the table holds at position [j]. *)
Definition sched_ok (matches : list Match) (stadiums : list Stadium)
    (j : nat) (s : Schedule) : Prop :=
  (∃ blocks, concat blocks = drop j matches ∧
             Forall2 (valid_day stadiums) blocks s) ∧
  (∀ d, length matches - j ≤ d * length stadiums → length s ≤ d) ∧
  (j < length matches → 1 ≤ length s).

(** The table is filled from position [i] on. *)
Definition table_ok (matches : list Match) (stadiums : list Stadium)
    (i : nat) (dp : list (option Schedule)) : Prop :=
  length dp = S (length matches) ∧
  ∀ j, i ≤ j ≤ length matches →
       ∃ s, dp !! j = Some (Some s) ∧ sched_ok matches stadiums j s.

(** A candidate at position [i]: one day for a block, then the schedule
    the table holds for what follows the block. *)
Definition cand (matches : list Match) (stadiums : list Stadium)
    (i : nat) (dp : list (option Schedule)) (b : Schedule) : Prop :=
  ∃ k d rest, 1 ≤ k ∧ i + k ≤ length matches ∧
              valid_day stadiums (take k (drop i matches)) d ∧
              dp !! (i + k) = Some (Some rest) ∧ b = d :: rest.

(** The invariant of the loop over [k], before the round for [k = a]:
    [best] is a candidate, and no longer than the candidates of the block
    lengths tried so far. *)
Definition loop_inv (matches : list Match) (stadiums : list Stadium)
    (i : nat) (dp : list (option Schedule)) (a : nat)
    (best : option Schedule) : Prop :=
  (∀ b, best = Some b → cand matches stadiums i dp b) ∧
  (∀ k rest, 1 ≤ k < a → i + k ≤ length matches →
             dp !! (i + k) = Some (Some rest) →
             ∃ b, best = Some b ∧ length b ≤ S (length rest)).

(** ** Vocabulary of the network builder's properties *)

(** The weight that [prim_mst] finds for the pair [(a, b)]: the entry
    keyed [(a, b)] if there is one, else the entry keyed [(b, a)]. *)
Definition edge_weight (distances : table) (a b : string) : option Z :=
  match distances !! (a, b) with
  | Some w => Some w
  | None => distances !! (b, a)
  end.

(** The visited vertices, as a set. *)
Definition vset (st : state) : gset string :=
  dom (filter (λ kv, kv.2 = true) (visited st)).

(** What is left to do: the entries to pop, and for every vertex not yet
    visited the entries it may push. *)
Definition work (stadiums : list string) (st : state) : nat :=
  length (min_heap st)
  + length stadiums * size (dom (visited st) ∖ vset st).

(** [es] holds the pair [(a, b)]. *)
Definition link (es : list (string * string)) (a b : string) : Prop :=
  (a, b) ∈ es.

(** [a] and [b] are joined by a path of edges of [es], each taken in
    either direction. *)
Definition connects (es : list (string * string)) : relation string :=
  rtsc (link es).

(** Two listed vertices with an entry of the table between them, in one
    orientation or the other. *)
Definition adjacent (stadiums : list string) (distances : table)
    (a b : string) : Prop :=
  a ∈ stadiums ∧ b ∈ stadiums ∧ is_Some (edge_weight distances a b).

(** The weight of an edge and of a list of edges. *)
Definition weight (distances : table) (e : string * string) : Z :=
  default 0%Z (edge_weight distances e.1 e.2).

Definition total_weight (distances : table) (es : list (string * string))
    : Z :=
  foldr (λ e acc, (weight distances e + acc)%Z) 0%Z es.

(** The vertices that a path of graph edges joins to the start vertex. *)
Definition reachable (stadiums : list string) (distances : table)
    (s0 v : string) : Prop :=
  rtc (adjacent stadiums distances) s0 v.

(** The vertices that a list of edges touches, with the start vertex. *)
Definition covered (s0 : string) (es : list (string * string)) (v : string)
    : Prop :=
  v = s0 ∨ ∃ w, (v, w) ∈ es ∨ (w, v) ∈ es.

(** [es] is made of edges of the graph and joins every listed vertex to
    the start vertex. *)
Definition spanning (stadiums : list string) (distances : table)
    (s0 : string) (es : list (string * string)) : Prop :=
  (∀ a b, (a, b) ∈ es → adjacent stadiums distances a b) ∧
  (∀ v, v ∈ stadiums → connects es s0 v).

(** [es] can be completed to a spanning edge list that weighs no more
    than a given one. *)
Definition extendable (stadiums : list string) (distances : table)
    (s0 : string) (es : list (string * string)) : Prop :=
  ∀ H, spanning stadiums distances s0 H →
       ∃ R, spanning stadiums distances s0 (es ++ R) ∧
            (total_weight distances (es ++ R) ≤ total_weight distances H)%Z.

(** A step of [es] between two vertices outside [S]. *)
Definition outside (es : list (string * string)) (S : string → Prop)
    (u w : string) : Prop :=
  sc (link es) u w ∧ ¬ S u ∧ ¬ S w.

(** No weight is negative. *)
Definition nonneg_weights (distances : table) : Prop :=
  map_Forall (λ _ w, (0 ≤ w)%Z) distances.

(** The table holds at most one orientation of every pair of different
    vertices. *)
Definition one_orientation (distances : table) : Prop :=
  map_Forall (λ k _, k.1 ≠ k.2 → distances !! (k.2, k.1) = None) distances.

(** Storing an entry under the other orientation of its key. *)
Definition flip_entry (distances : table) (a b : string) (w : Z) : table :=
  <[(b, a) := w]> (delete (a, b) distances).

(** The five stadiums of the reference network. *)
Definition five_stadiums : list string := ["s1"; "s2"; "s3"; "s4"; "s5"].

(** The invariant of the loop of [prim_mst], once the start vertex is
    visited: the heap holds every edge from a visited to an unvisited
    vertex, and the tree joins the visited vertices. *)
Record Inv (stadiums : list string) (distances : table) (s0 : string)
    (st : state) : Prop := {
  inv_dom : ∀ v, v ∈ stadiums ↔ is_Some (visited st !! v);
  inv_start : visited st !! s0 = Some true;
  inv_heap : ∀ c a b, (c, a, b) ∈ min_heap st →
      b ∈ stadiums ∧ visited st !! a = Some true ∧
      edge_weight distances a b = Some c;
  inv_cross : ∀ a b c,
      visited st !! a = Some true → visited st !! b = Some false →
      edge_weight distances a b = Some c → (c, a, b) ∈ min_heap st;
  inv_mst : ∀ a b, (a, b) ∈ mst st →
      visited st !! a = Some true ∧ visited st !! b = Some true ∧
      is_Some (edge_weight distances a b);
  inv_conn : ∀ v, visited st !! v = Some true → connects (mst st) s0 v;
  inv_cost : total_cost st = total_weight distances (mst st);
  inv_count : S (length (mst st)) = size (vset st)
}.

(** The states of the loop: the initial one, and then states that satisfy
    the invariant. *)
Definition started (stadiums : list string) (distances : table)
    (s0 : string) (st : state) : Prop :=
  st = init_state stadiums s0 ∨ Inv stadiums distances s0 st.

(** ** Vocabulary of the heap model's properties *)

(** The strict order on strings. *)
Definition string_lt (a b : string) : Prop := String.compare a b = Lt.

(** [entry_ltb] is the lexicographic order of the three components. *)
Definition entry_lt (x y : entry) : Prop :=
  (x.1.1 < y.1.1)%Z ∨
  (x.1.1 = y.1.1 ∧
   (string_lt x.1.2 y.1.2 ∨ (x.1.2 = y.1.2 ∧ string_lt x.2 y.2))).

(** An entry that no entry of the heap is below. *)
Definition least_of (heap : list entry) (x : entry) : Prop :=
  x ∈ heap ∧ ∀ y, y ∈ heap → ¬ entry_lt y x.

(** Two outcomes that agree up to [R] on the value returned. *)
Definition res_rel {A} (R : relation A) (r1 r2 : res A) : Prop :=
  match r1, r2 with
  | Ret a1, Ret a2 => R a1 a2
  | Raise e1, Raise e2 => e1 = e2
  | OutOfFuel, OutOfFuel => True
  | _, _ => False
  end.

(** Two states that differ only in the order of the heap entries. *)
Definition same_layout (st1 st2 : state) : Prop :=
  visited st1 = visited st2 ∧ min_heap st1 ≡ₚ min_heap st2 ∧
  mst st1 = mst st2 ∧ total_cost st1 = total_cost st2.


(** ** Further vocabulary of the scheduler *)

(** The day that [get_optimizing_solution] builds first for the block of
    [k] matches at position [i]: the first permutation gives the matches
    the first [k] stadiums, in order. *)
Definition first_day (matches : list Match) (stadiums : list Stadium)
    (i k : nat) : DaySchedule :=
  pair_up (take k (drop i matches)) (take k stadiums).

(** A block length that the loop of [get_optimizing_solution] tries at
    position [i]. *)
Definition tried (matches : list Match) (stadiums : list Stadium)
    (i k : nat) : Prop :=
  1 ≤ k ≤ length stadiums ∧ i + k ≤ length matches.

(** The state of the loop of [get_optimizing_solution] before the round
    for [k = a]: [best] is the first day of a tried block followed by the
    table entry behind it, that entry is a shortest one so far, and every
    earlier block with an entry has a strictly longer entry. *)
Definition chosen (matches : list Match) (stadiums : list Stadium)
    (i : nat) (dp : list (option Schedule)) (a : nat)
    (best : option Schedule) : Prop :=
  (best = None →
   ∀ k, tried matches stadiums i k → k < a → dp !! (i + k) = Some None) ∧
  (∀ b, best = Some b →
     ∃ k rest, tried matches stadiums i k ∧ k < a ∧
       dp !! (i + k) = Some (Some rest) ∧
       b = first_day matches stadiums i k :: rest ∧
       ∀ k' rest', tried matches stadiums i k' → k' < a →
         dp !! (i + k') = Some (Some rest') →
         length rest ≤ length rest' ∧ (k' < k → length rest < length rest')).

(** A table for three matches in which only the end is filled. *)
Definition sample_table : list (option Schedule) :=
  [None; None; None; Some []].

(** The blocks of the schedule, in words: the first block takes as many
    matches as are left over when the others are grouped [m] at a time
    (a full [m] when nothing is left over), and so on for what remains. *)
Fixpoint split_days (fuel m : nat) (l : list Match) : list (list Match) :=
  match fuel with
  | 0 => []
  | S fuel' =>
      match l with
      | [] => []
      | _ :: _ =>
          let r := (length l - 1) `mod` m + 1 in
          take r l :: split_days fuel' m (drop r l)
      end
  end.

Definition day_blocks (m : nat) (l : list Match) : list (list Match) :=
  split_days (length l) m l.

(** A block played on the first stadiums, in order. *)
Definition day_of (stadiums : list Stadium) (block : list Match)
    : DaySchedule :=
  pair_up block (take (length block) stadiums).

(** The schedule of the matches from position [j] on. *)
Definition schedule_from (matches : list Match) (stadiums : list Stadium)
    (j : nat) : Schedule :=
  day_of stadiums <$> day_blocks (length stadiums) (drop j matches).

(** The table that [schedule_matches] builds, from position [i] on. *)
Definition table_exact (matches : list Match) (stadiums : list Stadium)
    (i : nat) (dp : list (option Schedule)) : Prop :=
  length dp = S (length matches) ∧
  ∀ j, i ≤ j ≤ length matches →
       dp !! j = Some (Some (schedule_from matches stadiums j)).

(** ** Further vocabulary of the network builder *)

(** [es], read from the left, grows a tree from the vertices [seen]: every
    edge starts at a vertex seen so far and ends at a new one. *)
Fixpoint grows (seen : list string) (es : list (string * string)) : Prop :=
  match es with
  | [] => True
  | (a, b) :: es' => a ∈ seen ∧ (b ∉ seen) ∧ grows (b :: seen) es'
  end.

(** The entries of the table between listed vertices. *)
Definition listed_entries (stadiums : list string) (distances : table)
    : table :=
  filter (λ kv, kv.1.1 ∈ stadiums ∧ kv.1.2 ∈ stadiums) distances.

(** *** Vocabulary of the tournament *)

(** The points of all teams of a store together. *)
Definition total_points (store : list team) : Z :=
  foldr Z.add 0%Z (points <$> store).

(** The groups that stage 2 pairs up: all of them, but for the last of
    an odd number. *)
Definition paired {A} (qualified : list (list A)) : list (list A) :=
  take (2 * (length qualified / 2)) qualified.

(** The teams of a list of matches, in the order of play. *)
Definition players {A} (matches : list (A * A)) : list A :=
  flat_map (λ p, [p.1; p.2]) matches.

(** The two matches between the groups at positions [i] and [i + 1]. *)
Definition cross {A} (qualified : list (list A)) (i : nat) : list (A * A) :=
  if decide (i + 1 < length qualified) then
    match qualified !! i, qualified !! (i + 1) with
    | Some (a1 :: a2 :: _), Some (b1 :: b2 :: _) => [(a1, b2); (a2, b1)]
    | _, _ => []
    end
  else [].

(** A group short of two teams among the two at positions [i], [i + 1]. *)
Definition short {A} (qualified : list (list A)) (i : nat) : Prop :=
  i + 1 < length qualified ∧
  (length (default [] (qualified !! i)) < 2
   ∨ length (default [] (qualified !! (i + 1))) < 2).

(** A generator without chance: the least number, the first element, the
    order as it is. *)
Definition first_random : Random unit :=
  {| randint := λ a _ g, (a, g);
     choice := λ A l g, (head l, g);
     shuffle := λ A l g, (l, g) |}.

Definition sample_team (n : string) (r : Z) : team :=
  mkTeam n "A" 0 (Some 1%Z) (Some r) 0%float.

(** Texts that say nothing, and the pairs of a day in the order of the
    stadiums' names. *)
Definition plain_host : Host :=
  {| format_float := λ _, "0.00";
     repr_team := name;
     items := map_to_list |}.

(** The teams that enter the final knockout with a chance: the first two
    of the only group, or the first two of every paired group. *)
Definition entrants (self : Tournament) : list ref :=
  if decide (length (final_standings_per_group self) = 1)
  then take 2 (default [] (final_standings_per_group self !! 0))
  else concat (take 2 <$> paired (qualified_for_stage2 self)).

(** The line that names the champion. *)
Definition champion_line (champion : team) : string :=
  (nl +:+ "* CHAMPION: " +:+ name champion +:+ " ***") +:+ nl.

(** Four teams after a group stage with two groups, and the tournament. *)
Definition sample_heap : list team :=
  [sample_team "Team 1" 1; sample_team "Team 2" 2;
   sample_team "Team 3" 1; sample_team "Team 4" 2].

Definition sample_tournament : Tournament :=
  mkTournament 8 2 0%float [0; 1; 2; 3] [[0; 1]; [2; 3]] [[0; 1]; [2; 3]]
    ["s1"; "s2"].

(** The team that [create_teams] makes for the number [i] and a level. *)
Definition new_team (i : nat) (lv : string) : team :=
  mkTeam ("Team " +:+ pretty i) lv 0 None None 0%float.

(** A program runs from a world when it returns a value and a world, and
    [Q] holds of them. *)
Definition runs {rng A} (m : M rng A) (w : world rng)
    (Q : A → world rng → Prop) : Prop :=
  ∃ a w', m w = Ret (a, w') ∧ Q a w'.

(** A program fails from a world when it raises the exception. *)
Definition fails {rng A} (m : M rng A) (w : world rng) (e : exn) : Prop :=
  m w = Raise e.

(** *** Vocabulary of the group stage *)

(** The names and the levels of the teams of a heap stay as they are. *)
Definition steady (h h' : list team) : Prop :=
  name <$> h' = name <$> h ∧ level <$> h' = level <$> h.

(** The lists of four made of the elements at the same positions of four
    lists. *)
Fixpoint zip4 {A} (la lb lc ld : list A) : list (list A) :=
  match la, lb, lc, ld with
  | a :: la', b :: lb', c :: lc', d :: ld' =>
      [a; b; c; d] :: zip4 la' lb' lc' ld'
  | _, _, _, _ => []
  end.

(** The teams of a list at a level, in a heap. *)
Definition at_level (h : list team) (lv : string) (ts : list ref) : list ref :=
  filter (λ t, level (h !!! t) = lv) ts.

(** The groups that [run_group_stage] forms from the teams of a heap. *)
Definition groups_of (h : list team) (ts : list ref) : list (list ref) :=
  let sorted_by_level := sorted String.ltb (λ t, level (h !!! t)) ts in
  zip4 (reverse (at_level h "A" sorted_by_level))
       (reverse (at_level h "B" sorted_by_level))
       (reverse (at_level h "C" sorted_by_level))
       (reverse (at_level h "D" sorted_by_level)).

(** Four new teams, one of each level, and their tournament before the
    group stage. *)
Definition fresh_heap : list team :=
  [new_team 1 "C"; new_team 2 "A"; new_team 3 "D"; new_team 4 "B"].

Definition fresh_tournament : Tournament :=
  mkTournament 4 2 0%float [0; 1; 2; 3] [] [] ["s1"; "s2"].

(** *** Vocabulary of the standings *)

(** In a heap, [a] is placed before [b] in a standing only if it has
    more points, or as many and a name that does not come later. *)
Definition above (h : list team) (a b : ref) : Prop :=
  (points (h !!! b) < points (h !!! a))%Z
  ∨ (points (h !!! a) = points (h !!! b)
     ∧ ¬ string_lt (name (h !!! b)) (name (h !!! a))).

Definition ordered (h : list team) (sg : list ref) : Prop :=
  ∀ i j a b, i < j → sg !! i = Some a → sg !! j = Some b → above h a b.

(** The teams of a standing carry their place as rank, and the number
    of the group. *)
Definition ranked (h : list team) (group_index : Z) (sg : list ref) : Prop :=
  ∀ i t, sg !! i = Some t →
    rank (h !!! t) = Some (Z.of_nat i + 1)%Z
    ∧ group (h !!! t) = Some group_index.

(** The points of the teams of a group together. *)
Definition group_points (h : list team) (g : list ref) : Z :=
  foldr Z.add 0%Z ((λ t, points (h !!! t)) <$> g).

(** The teams outside [G] are as they were. *)
Definition untouched (G : list ref) (h h' : list team) : Prop :=
  ∀ t, t ∉ G → h' !! t = h !! t.

(** The strict order on the keys of the standings. *)
Definition pair_lt (x y : Z * string) : Prop :=
  (x.1 < y.1)%Z ∨ (x.1 = y.1 ∧ string_lt x.2 y.2).

(** The key of a team in the standings. *)
Definition standing_key (h : list team) (t : ref) : Z * string :=
  ((- points (h !!! t))%Z, name (h !!! t)).

(** How many of the matches have the team at place [p] of the group. *)
Definition plays (p : Z) (ms : list Match) : nat :=
  length (filter (λ m : Match, m.1 = p ∨ m.2 = p) ms).

(** A standing after its group stage: ranks in the order of the
    standing, better teams first, between 12 and 18 points in the group
    and at most 9 for a team. *)
Definition settled (h : list team) (group_index : Z) (sg : list ref) : Prop :=
  ranked h group_index sg
  ∧ ordered h sg
  ∧ (12 ≤ group_points h sg ≤ 18)%Z
  ∧ Forall (λ t, (0 ≤ points (h !!! t) ≤ 9)%Z) sg.

(** The matches of a schedule in the order in which they are played. *)
Definition played `{Host} (schedule : Schedule) : list Match :=
  concat ((λ d, (items d).*2) <$> schedule).

(** ** Properties of the permutation generator *)

Section Perms.
Context {A : Type}.
Implicit Types (arr l : list A) (k : nat).


Lemma falling_fact n k : k ≤ n → falling n k * fact (n - k) = fact n.
Proof.
  revert n. induction k as [|k IH]; intros n Hk; simpl.
  - rewrite Nat.sub_0_r. lia.
  - destruct n as [|n]; [lia|].
    replace (S n - 1) with n by lia. replace (S n - S k) with (n - k) by lia.
    rewrite <- Nat.mul_assoc, IH by lia. reflexivity.
Qed.

Lemma falling_pos n k : k ≤ n → 0 < falling n k.
Proof.
  intros Hk. pose proof (falling_fact n k Hk) as H.
  pose proof (lt_O_fact n). destruct (falling n k); simpl in *; lia.
Qed.

Lemma falling_zero n k : n < k → falling n k = 0.
Proof.
  revert n. induction k as [|k IH]; intros n Hk; [lia|]. simpl.
  destruct n as [|n]; [done|]. rewrite IH by lia. lia.
Qed.

Lemma picks_length arr : length (picks arr) = length arr.
Proof. induction arr as [|x xs IH]; simpl; [done|]. by rewrite length_map, IH. Qed.

Lemma picks_perm arr x r : (x, r) ∈ picks arr → arr ≡ₚ x :: r.
Proof.
  revert x r. induction arr as [|y ys IH]; intros x r; simpl.
  - by intros ?%elem_of_nil.
  - intros [Heq|Hin]%elem_of_cons.
    + by inversion Heq; subst.
    + apply list_elem_of_fmap in Hin as ([x' r'] & Heq & Hin); simpl in *.
      inversion Heq; subst. rewrite (IH _ _ Hin). apply Permutation_swap.
Qed.

Lemma picks_elem arr x : x ∈ arr → ∃ r, (x, r) ∈ picks arr.
Proof.
  induction arr as [|y ys IH]; simpl.
  - by intros ?%elem_of_nil.
  - intros [->|Hin]%elem_of_cons.
    + eexists. by left.
    + destruct (IH Hin) as [r Hr]. exists (y :: r). right.
      apply list_elem_of_fmap. by exists (x, r).
Qed.

Lemma flat_map_const_length {B C} (f : B → list C) (l : list B) c :
  (∀ x, x ∈ l → length (f x) = c) → length (flat_map f l) = length l * c.
Proof.
  induction l as [|x l IH]; intros Hf; simpl; [done|].
  rewrite length_app, Hf, IH; [done| |by left].
  intros y Hy. apply Hf. by right.
Qed.

Lemma k_permutations_length arr k :
  length (k_permutations arr k) = falling (length arr) k.
Proof.
  revert arr. induction k as [|k IH]; intros arr; simpl; [done|].
  rewrite (flat_map_const_length _ _ (falling (length arr - 1) k)).
  - by rewrite picks_length.
  - intros [x r] Hin; simpl. rewrite length_map, IH.
    apply picks_perm, Permutation_length in Hin. simpl in Hin.
    f_equal. lia.
Qed.

Lemma k_permutations_elem arr k l :
  l ∈ k_permutations arr k ↔ length l = k ∧ l ⊆+ arr.
Proof.
  revert arr l. induction k as [|k IH]; intros arr l; simpl.
  - rewrite list_elem_of_singleton. split.
    + intros ->. split; [done|]. apply submseteq_nil_l.
    + intros [Hl _]. by destruct l.
  - rewrite list_elem_of_In, in_flat_map. split.
    + intros ([x r] & Hin%list_elem_of_In & Hl%list_elem_of_In); simpl in *.
      apply list_elem_of_fmap in Hl as (l' & -> & Hl').
      apply IH in Hl' as [Hlen Hsub]. split; [simpl; by f_equal|].
      rewrite (picks_perm _ _ _ Hin). by apply submseteq_skip.
    + intros [Hlen Hsub]. destruct l as [|x l']; [done|].
      apply submseteq_cons_l in Hsub as (r' & Hperm & Hsub).
      assert (x ∈ arr) as Hx by (rewrite Hperm; by left).
      destruct (picks_elem _ _ Hx) as [r Hr]. exists (x, r).
      split; [by apply list_elem_of_In|]. apply list_elem_of_In. simpl.
      apply list_elem_of_fmap. exists l'. split; [done|]. apply IH.
      split; [simpl in Hlen; lia|].
      pose proof (picks_perm _ _ _ Hr) as Hp. rewrite Hperm in Hp.
      apply Permutation_cons_inv in Hp. by rewrite <- Hp.
Qed.

End Perms.

(** ** Properties of the day generator *)




Lemma assign_block_spec block : ∀ i perm acc,
  i + length block ≤ length perm →
  assign_block i block perm acc
  = Ret (foldl store_pair acc (zip (drop i perm) block)).
Proof.
  induction block as [|mt block IH]; intros i perm acc Hlen; simpl in *.
  - by rewrite zip_with_nil_r.
  - destruct (lookup_lt_is_Some_2 perm i) as [s Hs]; [lia|].
    rewrite Hs, IH by lia. by rewrite (drop_S _ _ _ Hs).
Qed.

Lemma collect_assignments_spec block perms : ∀ acc,
  (∀ perm, perm ∈ perms → length block ≤ length perm) →
  collect_assignments block perms acc = Ret (acc ++ (pair_up block <$> perms)).
Proof.
  induction perms as [|perm perms IH]; intros acc Hlen; simpl.
  - by rewrite app_nil_r.
  - rewrite assign_block_spec by (simpl; apply Hlen; by left). simpl.
    rewrite IH by (intros; apply Hlen; by right).
    by rewrite <- app_assoc.
Qed.

Lemma generate_assignments_spec block stadiums :
  generate_assignments block stadiums
  = Ret (if decide (length stadiums < length block) then []
         else pair_up block <$> k_permutations stadiums (length block)).
Proof.
  unfold generate_assignments. case_decide; [done|].
  rewrite collect_assignments_spec; [done|].
  intros perm [Hl _]%k_permutations_elem. lia.
Qed.

Lemma foldl_store_pair_lookup ps : ∀ acc v,
  v ∉ (id <$> ps.*1) → foldl store_pair acc ps !! v = acc !! v.
Proof.
  induction ps as [|[s mt] ps IH]; intros acc v Hv; simpl; [done|].
  simpl in Hv. apply not_elem_of_cons in Hv as [Hne Hv].
  rewrite IH by done. unfold store_pair; simpl. by rewrite lookup_insert_ne.
Qed.

Lemma foldl_store_pair_entries ps : ∀ acc,
  NoDup (id <$> ps.*1) →
  (∀ p, p ∈ ps → acc !! id p.1 = None) →
  map_to_list (foldl store_pair acc ps)
  ≡ₚ ((λ p, (id p.1, p.2)) <$> ps) ++ map_to_list acc.
Proof.
  induction ps as [|[s mt] ps IH]; intros acc Hnd Hfresh; simpl; [done|].
  simpl in Hnd. apply NoDup_cons in Hnd as [Hs Hnd].
  rewrite IH; [|done|].
  - simpl. unfold store_pair at 1; simpl. rewrite map_to_list_insert.
    + by rewrite Permutation_middle.
    + apply (Hfresh (s, mt)). by left.
  - intros p Hp. unfold store_pair; simpl. rewrite lookup_insert_ne.
    + apply Hfresh. by right.
    + intros Heq. apply Hs. rewrite Heq. apply list_elem_of_fmap.
      exists p.1. split; [done|]. apply list_elem_of_fmap. by exists p.
Qed.

Lemma zip_id_fmap (perm : list Stadium) (block : list Match) :
  (λ p : Stadium * Match, (id p.1, p.2)) <$> zip perm block
  = zip (id <$> perm) block.
Proof. revert block. induction perm; intros [|??]; simpl; by f_equal. Qed.

Lemma pair_up_entries block perm :
  NoDup (id <$> perm) → length perm = length block →
  map_to_list (pair_up block perm) ≡ₚ zip (id <$> perm) block.
Proof.
  intros Hnd Hlen. unfold pair_up. rewrite foldl_store_pair_entries.
  - by rewrite map_to_list_empty, app_nil_r, zip_id_fmap.
  - rewrite fst_zip by lia. done.
  - intros. apply lookup_empty.
Qed.

Lemma pair_up_matches block perm :
  NoDup (id <$> perm) → length perm = length block →
  day_matches (pair_up block perm) ≡ₚ block.
Proof.
  intros Hnd Hlen. unfold day_matches. rewrite pair_up_entries by done.
  rewrite snd_zip; [done|]. rewrite length_fmap. lia.
Qed.

Lemma pair_up_dom block perm v :
  is_Some (pair_up block perm !! v) → v ∈ id <$> perm.
Proof.
  intros Hv. destruct (decide (v ∈ id <$> perm)) as [|Hn]; [done|].
  unfold pair_up in Hv. rewrite foldl_store_pair_lookup, lookup_empty in Hv.
  - by destruct Hv.
  - intros Hin. apply Hn. apply list_elem_of_fmap in Hin as (s & -> & Hin).
    apply list_elem_of_fmap. exists s. split; [done|].
    apply list_elem_of_fmap in Hin as ([s' mt] & -> & Hin).
    apply elem_of_zip_l in Hin. done.
Qed.

Lemma pair_up_lookup block perm i s mt :
  NoDup (id <$> perm) → perm !! i = Some s → block !! i = Some mt →
  pair_up block perm !! id s = Some mt.
Proof.
  intros Hnd Hs Hmt. unfold pair_up.
  assert (zip perm block !! i = Some (s, mt)) as Hz.
  { rewrite lookup_zip_with, Hs. simpl. by rewrite Hmt. }
  apply list_elem_of_split_length in Hz as (l1 & l2 & Hz & Hi).
  rewrite Hz, foldl_app. simpl.
  rewrite foldl_store_pair_lookup.
  - unfold store_pair at 1; simpl. apply lookup_insert_eq.
  - assert (NoDup (id <$> (zip perm block).*1)) as Hnd'.
    { apply (sublist_NoDup _ (id <$> perm)); [done|].
      apply fmap_sublist. clear. revert block.
      induction perm as [|x perm IHp]; intros [|y block]; simpl.
      - constructor.
      - constructor.
      - apply sublist_nil_l.
      - by apply sublist_skip. }
    rewrite Hz in Hnd'. rewrite !fmap_app in Hnd'. simpl in Hnd'.
    apply NoDup_app in Hnd' as (_ & _ & Hnd').
    by apply NoDup_cons in Hnd' as [? _].
Qed.

(** ** Properties of the dynamic program *)





Lemma try_assignments_spec das rest : ∀ best,
  let r := try_assignments das rest best in
  (r = best ∨ ∃ d, d ∈ das ∧ r = Some (d :: rest)) ∧
  (∀ b0, best = Some b0 → ∃ b, r = Some b ∧ length b ≤ length b0) ∧
  (das ≠ [] → ∃ b, r = Some b ∧ length b ≤ S (length rest)).
Proof.
  induction das as [|d das IH]; intros best; simpl.
  - split; [by left|]. split; [|done]. intros b0 ->. by exists b0.
  - match goal with |- context [try_assignments das rest ?b] =>
      set (best' := b); destruct (IH best') as (IH1 & IH2 & _) end.
    assert (∃ b1, best' = Some b1 ∧ length b1 ≤ S (length rest)
                  ∧ (best' = best ∨ b1 = d :: rest)
                  ∧ ∀ b0, best = Some b0 → length b1 ≤ length b0)
      as (b1 & Hb1 & Hle & Hor & Hmono).
    { subst best'. destruct best as [b|].
      - case_decide; simpl in *.
        + exists (d :: rest). repeat split; auto.
          intros b0 [= ->]. simpl. lia.
        + exists b. repeat split; auto; [lia|]. by intros b0 [= ->].
      - exists (d :: rest). repeat split; auto. by intros. }
    destruct (IH2 _ Hb1) as (b & Hr & Hb). split; [|split].
    + destruct IH1 as [IH1|(d' & Hd' & IH1)].
      * destruct Hor as [Hor| ->].
        -- left. by rewrite IH1.
        -- right. exists d. split; [by left|]. by rewrite IH1.
      * right. exists d'. split; [by right|done].
    + intros b0 Hb0. exists b. split; [done|].
      specialize (Hmono _ Hb0). lia.
    + intros _. exists b. split; [done|lia].
Qed.

Section DP.
Context (matches : list Match) (stadiums : list Stadium).
Hypothesis ids_nodup : NoDup (id <$> stadiums).

Local Abbreviation n := (length matches).
Local Abbreviation m := (length stadiums).
Local Abbreviation valid_day := (valid_day stadiums).
Local Abbreviation sched_ok := (sched_ok matches stadiums).
Local Abbreviation table_ok := (table_ok matches stadiums).
Local Abbreviation cand := (cand matches stadiums).
Local Abbreviation loop_inv := (loop_inv matches stadiums).






Lemma block_loop_spec i dp :
  (∀ j, i < j ≤ n → ∃ s, dp !! j = Some (Some s)) →
  ∀ c a best, 1 ≤ a → a + c = S m → loop_inv i dp a best →
  ∃ best', block_loop (seq a c) i dp matches stadiums best = Ret best' ∧
           loop_inv i dp (S m) best'.
Proof.
  intros Hdp. induction c as [|c IH]; intros a best Ha Hac Hinv; simpl.
  - exists best. split; [done|]. by replace (S m) with a by lia.
  - case_decide as Hbrk.
    + exists best. split; [done|]. destruct Hinv as [Hc Hk]. split; [done|].
      intros k rest Hk1 Hk2. apply Hk; lia.
    + rewrite generate_assignments_spec. simpl.
      assert (length (take a (drop i matches)) = a) as Hblk.
      { rewrite length_take, length_drop. lia. }
      rewrite Hblk. case_decide; [lia|].
      destruct (pair_up _ <$> k_permutations stadiums a) as [|d0 das] eqn:Hdas.
      { apply (f_equal length) in Hdas.
        rewrite length_fmap, k_permutations_length in Hdas.
        pose proof (falling_pos m a). simpl in Hdas. lia. }
      destruct (Hdp (i + a)) as [rest Hrest]; [lia|]. rewrite Hrest.
      apply IH; [lia|lia|].
      destruct (try_assignments_spec (d0 :: das) rest best) as (T1 & T2 & T3).
      destruct Hinv as [Hc Hk]. split.
      * intros b Hb. destruct T1 as [T1|(d & Hd & T1)].
        -- apply Hc. by rewrite <- T1.
        -- rewrite T1 in Hb. injection Hb as <-.
           exists a, d, rest. repeat split; [lia|lia| |done].
           rewrite <- Hdas in Hd.
           apply list_elem_of_fmap in Hd as (perm & -> & Hperm).
           apply k_permutations_elem in Hperm as [Hl Hsub].
           exists perm. repeat split; [done|]. by rewrite Hblk.
      * intros k rest' Hk1 Hk2 Hrest'.
        destruct (decide (k = a)) as [->|Hne].
        -- rewrite Hrest in Hrest'. injection Hrest' as <-. by apply T3.
        -- destruct (Hk k rest') as (b & Hb & Hle); [lia|done|done|].
           destruct (T2 _ Hb) as (b' & Hb' & Hle'). exists b'.
           split; [done|lia].
Qed.

Lemma get_optimizing_solution_spec i dp :
  1 ≤ m → i < n → table_ok (S i) dp →
  ∃ s, get_optimizing_solution i dp matches stadiums = Ret (Some s) ∧
       sched_ok i s.
Proof.
  intros Hm Hi [Hlen Htab]. unfold get_optimizing_solution.
  destruct (block_loop_spec i dp) with (c := m) (a := 1) (best := @None Schedule)
    as (best & Hrun & Hc & Hk); [| lia | lia | |].
  { intros j Hj. destruct (Htab j) as (s & Hs & _); [lia|]. by exists s. }
  { split; [done|]. intros; lia. }
  destruct (Htab (i + 1)) as (r1 & Hr1 & _); [lia|].
  destruct (Hk 1 r1) as (b & -> & _); [lia|lia|done|].
  exists b. split; [done|].
  destruct (Hc b eq_refl) as (k & d & rest & Hk1 & Hk2 & Hd & Hrest & ->).
  destruct (Htab (i + k)) as (rest' & Hrest' & (blocks & Hcat & Hall) & Hmin & _);
    [lia|].
  rewrite Hrest in Hrest'. injection Hrest' as <-.
  split; [|split].
  - exists (take k (drop i matches) :: blocks). split.
    + simpl. rewrite Hcat, <- drop_drop. apply take_drop.
    + by constructor.
  - intros dd Hdd.
    set (k' := Nat.min m (n - i)).
    destruct (Htab (i + k')) as (rk & Hrk & _ & Hmin' & _); [lia|].
    destruct (Hk k' rk) as (b' & Hb' & Hle); [lia|lia|done|].
    injection Hb' as <-.
    assert (1 ≤ dd) by (destruct dd; simpl in *; lia).
    assert (length rk ≤ dd - 1); [|lia].
    apply Hmin'. destruct (decide (m ≤ length matches - i)) as [Hmi|Hmi].
    + replace k' with m by lia. nia.
    + replace k' with (length matches - i) by lia.
      replace (length matches - (i + (length matches - i))) with 0 by lia.
      apply Nat.le_0_l.
  - intros _. simpl. lia.
Qed.

Lemma dp_fill_spec : ∀ i dp,
  1 ≤ m → i ≤ n → table_ok i dp →
  ∃ dp', dp_fill (rev (seq 0 i)) dp matches stadiums = Ret dp' ∧
         table_ok 0 dp'.
Proof.
  induction i as [|i IH]; intros dp Hm Hi Hok.
  - by exists dp.
  - rewrite seq_S, rev_unit. simpl.
    destruct (get_optimizing_solution_spec i dp) as (s & -> & Hs);
      [done|lia|done|].
    simpl. destruct Hok as [Hlen Htab]. unfold list_set.
    case_decide; [|lia]. simpl. apply IH; [done|lia|]. split.
    + by rewrite length_insert.
    + intros j Hj. destruct (decide (j = i)) as [->|Hne].
      * exists s. split; [|done]. apply list_lookup_insert_eq. lia.
      * rewrite list_lookup_insert_ne by done. apply Htab. lia.
Qed.

Lemma table_ok_init :
  table_ok n (<[n := Some []]> (replicate (n + 1) None)).
Proof.
  split.
  - rewrite length_insert, length_replicate. lia.
  - intros j Hj. assert (j = n) as -> by lia. exists []. split.
    + apply list_lookup_insert_eq. rewrite length_replicate. lia.
    + split; [|split].
      * exists []. rewrite drop_all. split; [done|constructor].
      * intros; simpl; lia.
      * lia.
Qed.

Lemma schedule_run :
  1 ≤ m →
  ∃ s, (dp0 ← list_set (replicate (n + 1) None) n (Some []);
        dp ← dp_fill (rev (seq 0 n)) dp0 matches stadiums;
        match dp !! 0 with
        | None => Raise IndexError
        | Some r => Ret r
        end) = Ret (Some s) ∧ sched_ok 0 s.
Proof.
  intros Hm. unfold list_set. rewrite length_replicate.
  case_decide; [|lia]. simpl.
  destruct (dp_fill_spec n _ Hm (le_n _) table_ok_init) as (dp & -> & _ & Htab).
  simpl. destruct (Htab 0) as (s & -> & Hs); [lia|]. by exists s.
Qed.

(** Without stadiums the loop body of [get_optimizing_solution] never
    runs and every position before the end stays empty. *)
Lemma dp_fill_no_stadium : ∀ i dp,
  m = 0 → i ≤ length dp →
  dp_fill (rev (seq 0 i)) dp matches stadiums
  = Ret (replicate i None ++ drop i dp).
Proof.
  induction i as [|i IH]; intros dp Hm Hi.
  - by rewrite drop_0.
  - rewrite seq_S, rev_unit. simpl. unfold get_optimizing_solution.
    rewrite Hm. simpl. unfold list_set. case_decide; [|lia]. simpl.
    rewrite IH by (rewrite ?length_insert; lia). f_equal.
    rewrite drop_insert_ge by lia. rewrite Nat.sub_diag.
    destruct (lookup_lt_is_Some_2 dp i) as [x Hx]; [lia|].
    rewrite (drop_S _ _ _ Hx), app_comm_cons, replicate_cons_app. simpl.
    by rewrite <- app_assoc.
Qed.

End DP.

(** ** The stadiums of [schedule_matches] *)

Lemma make_stadiums_length vc : length (make_stadiums vc) = Z.to_nat vc.
Proof. unfold make_stadiums. by rewrite length_map, length_seq. Qed.

Lemma make_stadiums_ids vc :
  venue_ids vc = (λ i, "s" +:+ pretty (i + 1)) <$> seq 0 (Z.to_nat vc).
Proof.
  unfold venue_ids, make_stadiums.
  generalize (seq 0 (Z.to_nat vc)). intros l.
  induction l as [|i l IH]; simpl; [done|]. by f_equal.
Qed.

Lemma make_stadiums_nodup vc : NoDup (id <$> make_stadiums vc).
Proof.
  fold (venue_ids vc). rewrite make_stadiums_ids.
  apply NoDup_fmap_2; [|apply NoDup_seq].
  intros i j Heq. simpl in Heq. injection Heq as Heq.
  change ("" +:+ ?x)%string with x in Heq.
  apply (inj pretty) in Heq. lia.
Qed.

Lemma submseteq_nodup {A} (l k : list A) : l ⊆+ k → NoDup k → NoDup l.
Proof.
  intros (k' & Hk)%submseteq_Permutation Hnd. rewrite Hk in Hnd.
  by apply NoDup_app in Hnd as [? _].
Qed.

Section Feasible.
Context (matches : list Match) (stadiums : list Stadium).
Hypothesis ids_nodup : NoDup (id <$> stadiums).

Lemma valid_day_perm_nodup perm :
  perm ⊆+ stadiums → NoDup (id <$> perm).
Proof.
  intros Hsub. apply (submseteq_nodup _ (id <$> stadiums)); [|done].
  by apply fmap_submseteq.
Qed.

Lemma valid_day_matches block d :
  valid_day stadiums block d → day_matches d ≡ₚ block.
Proof.
  intros (perm & Hsub & Hlen & ->).
  apply pair_up_matches; [|done]. by apply valid_day_perm_nodup.
Qed.

Lemma valid_day_ok block d :
  valid_day stadiums block d → day_ok (id <$> stadiums) d.
Proof.
  intros (perm & Hsub & Hlen & ->) v Hv%pair_up_dom.
  apply list_elem_of_fmap in Hv as (s & -> & Hs).
  apply list_elem_of_fmap. exists s. split; [done|].
  by apply (elem_of_submseteq perm).
Qed.

(** The entries of a day: a block of matches zipped with venues that are
    all different. *)
Lemma valid_day_entries block d :
  valid_day stadiums block d →
  ∃ venues, NoDup venues ∧ length venues = length block ∧
            (∀ v, v ∈ venues → v ∈ id <$> stadiums) ∧
            map_to_list d ≡ₚ zip venues block.
Proof.
  intros (perm & Hsub & Hlen & ->). exists (id <$> perm).
  pose proof (valid_day_perm_nodup perm Hsub) as Hnd.
  repeat split; [done|by rewrite length_fmap| |by apply pair_up_entries].
  intros v Hv. apply (elem_of_submseteq (id <$> perm)); [done|].
  by apply fmap_submseteq.
Qed.

Lemma valid_days_feasible blocks s :
  Forall2 (valid_day stadiums) blocks s →
  Forall (day_ok (id <$> stadiums)) s ∧
  concat (day_matches <$> s) ≡ₚ concat blocks.
Proof.
  induction 1 as [|block d blocks s Hd _ [IH1 IH2]]; simpl.
  - split; [constructor|done].
  - split.
    + constructor; [by apply (valid_day_ok block)|done].
    + by rewrite IH2, (valid_day_matches block d).
Qed.

(** A day on [venues] holds no more matches than there are venues. *)
Lemma day_ok_size venues d :
  day_ok venues d → length (day_matches d) ≤ length venues.
Proof.
  intros Hd. unfold day_matches. rewrite length_fmap.
  rewrite <- (length_fmap fst). apply submseteq_length.
  apply NoDup_submseteq; [apply NoDup_fst_map_to_list|].
  intros v Hv. apply Hd.
  apply list_elem_of_fmap in Hv as ([v' mt] & -> & Hin).
  apply elem_of_map_to_list in Hin. by exists mt.
Qed.

Lemma feasible_days_bound venues alt :
  Forall (day_ok venues) alt →
  length (concat (day_matches <$> alt)) ≤ length alt * length venues.
Proof.
  induction 1 as [|d alt Hd _ IH]; [done|].
  rewrite fmap_cons. simpl concat. simpl length.
  rewrite length_app. pose proof (day_ok_size _ _ Hd). lia.
Qed.

Lemma feasible_lower_bound venues alt :
  feasible venues matches alt →
  length matches ≤ length alt * length venues.
Proof.
  intros [Hok Hcov]. rewrite <- Hcov. by apply feasible_days_bound.
Qed.

Lemma sched_ok_feasible s :
  sched_ok matches stadiums 0 s → feasible (id <$> stadiums) matches s.
Proof.
  intros [(blocks & Hcat & Hall) _]. rewrite drop_0 in Hcat.
  destruct (valid_days_feasible _ _ Hall) as [H1 H2].
  split; [done|]. unfold covers. by rewrite H2, Hcat.
Qed.

End Feasible.

(** The two regimes of [schedule_matches]. *)
Lemma schedule_matches_some matches vc :
  (1 ≤ vc)%Z →
  ∃ s, schedule_matches matches vc = Ret (Some s) ∧
       sched_ok matches (make_stadiums vc) 0 s.
Proof.
  intros Hvc. unfold schedule_matches. apply schedule_run.
  rewrite make_stadiums_length. lia.
Qed.

Lemma schedule_matches_no_stadium matches vc :
  (vc ≤ 0)%Z →
  schedule_matches matches vc
  = Ret (match matches with [] => Some [] | _ :: _ => None end).
Proof.
  intros Hvc. unfold schedule_matches, list_set.
  rewrite length_replicate. case_decide; [|lia]. simpl.
  rewrite dp_fill_no_stadium.
  - simpl. destruct matches as [|mt matches]; [done|]. done.
  - rewrite make_stadiums_length. lia.
  - rewrite length_insert, length_replicate. lia.
Qed.

(** ** Properties of the heap model *)

Lemma entry_ltb_true x y : entry_ltb y x = true → (y.1.1 ≤ x.1.1)%Z.
Proof.
  unfold entry_ltb. destruct (y.1.1 ?= x.1.1)%Z eqn:Hc; [| |done].
  - apply Z.compare_eq in Hc. lia.
  - rewrite Z.compare_lt_iff in Hc. lia.
Qed.

Lemma entry_ltb_false x y : entry_ltb y x = false → (x.1.1 ≤ y.1.1)%Z.
Proof.
  unfold entry_ltb. destruct (y.1.1 ?= x.1.1)%Z eqn:Hc; [|done|].
  - apply Z.compare_eq in Hc. lia.
  - rewrite Z.compare_gt_iff in Hc. lia.
Qed.

Lemma heap_min_elem heap : ∀ x, heap_min x heap = x ∨ heap_min x heap ∈ heap.
Proof.
  induction heap as [|y heap IH]; intros x; simpl; [by left|].
  destruct (IH (if entry_ltb y x then y else x)) as [->|Hin].
  - destruct (entry_ltb y x); [right; by left|by left].
  - right. by right.
Qed.

Lemma heap_min_le heap : ∀ x,
  ((heap_min x heap).1.1 ≤ x.1.1)%Z ∧
  ∀ y, y ∈ heap → ((heap_min x heap).1.1 ≤ y.1.1)%Z.
Proof.
  induction heap as [|y heap IH]; intros x; simpl.
  - split; [lia|]. by intros ? ?%elem_of_nil.
  - destruct (IH (if entry_ltb y x then y else x)) as [IH1 IH2].
    assert (((if entry_ltb y x then y else x).1.1 ≤ x.1.1)%Z ∧
            ((if entry_ltb y x then y else x).1.1 ≤ y.1.1)%Z) as [Hx Hy].
    { destruct (entry_ltb y x) eqn:Hlt.
      - split; [by apply entry_ltb_true|lia].
      - split; [lia|by apply entry_ltb_false]. }
    split; [lia|]. intros z [->|Hz]%elem_of_cons; [lia|by apply IH2].
Qed.

Lemma heap_remove_perm x heap : x ∈ heap → heap ≡ₚ x :: heap_remove x heap.
Proof.
  induction heap as [|y heap IH]; simpl.
  - by intros ?%elem_of_nil.
  - intros Hin. case_decide as Hy; [by subst|].
    apply elem_of_cons in Hin as [->|Hin]; [done|].
    rewrite (IH Hin) at 1. apply Permutation_swap.
Qed.

Lemma heappop_spec heap :
  heap ≠ [] →
  ∃ least heap', heappop heap = Ret (least, heap') ∧
                 heap ≡ₚ least :: heap' ∧
                 ∀ y, y ∈ heap → (least.1.1 ≤ y.1.1)%Z.
Proof.
  destruct heap as [|x heap]; [done|]. intros _.
  exists (heap_min x heap), (heap_remove (heap_min x heap) (x :: heap)).
  split; [done|]. split.
  - apply heap_remove_perm. destruct (heap_min_elem heap x) as [->|Hin].
    + by left.
    + by right.
  - destruct (heap_min_le heap x) as [H1 H2].
    intros y [->|Hy]%elem_of_cons; [done|by apply H2].
Qed.

(** ** The graph that [prim_mst] works on *)


Lemma edge_weight_is_Some_sym distances a b :
  is_Some (edge_weight distances a b) → is_Some (edge_weight distances b a).
Proof.
  unfold edge_weight. intros [w Hw].
  destruct (distances !! (a, b)) eqn:Hab, (distances !! (b, a)) eqn:Hba; eauto.
Qed.

Lemma push_neighbors_spec to vis distances neighbors : ∀ heap,
  (∀ v, v ∈ neighbors → is_Some (vis !! v)) →
  ∃ heap', push_neighbors neighbors to vis distances heap = Ret heap' ∧
    length heap' ≤ length heap + length neighbors ∧
    ∀ x, x ∈ heap' ↔
         x ∈ heap ∨
         ∃ nb c, nb ∈ neighbors ∧ vis !! nb = Some false ∧
                 edge_weight distances to nb = Some c ∧ x = (c, to, nb).
Proof.
  induction neighbors as [|nb neighbors IH]; intros heap Hdom; simpl.
  - exists heap. split; [done|]. split; [lia|]. intros x. split; [by left|].
    intros [?|(? & ? & ?%elem_of_nil & _)]; done.
  - destruct (Hdom nb) as [v Hv]; [by left|]. rewrite Hv.
    assert (∀ v, v ∈ neighbors → is_Some (vis !! v)) as Hdom'
      by (intros; apply Hdom; by right).
    assert (∃ heap1, (heap1 = heap ∧ (v = true ∨ edge_weight distances to nb = None)
                      ∨ ∃ c, v = false ∧ edge_weight distances to nb = Some c ∧
                             heap1 = heappush heap (c, to, nb)) ∧
              match v with
              | true => push_neighbors neighbors to vis distances heap
              | false =>
                match distances !! (to, nb) with
                | Some w => push_neighbors neighbors to vis distances
                              (heappush heap (w, to, nb))
                | None =>
                  match distances !! (nb, to) with
                  | Some w => push_neighbors neighbors to vis distances
                                (heappush heap (w, to, nb))
                  | None => push_neighbors neighbors to vis distances heap
                  end
                end
              end = push_neighbors neighbors to vis distances heap1)
      as (heap1 & Hcase & ->).
    { unfold edge_weight. destruct v.
      - exists heap. split; [left; auto|done].
      - destruct (distances !! (to, nb)) as [w|] eqn:H1.
        + eexists. split; [right; by exists w|done].
        + destruct (distances !! (nb, to)) as [w|] eqn:H2.
          * eexists. split; [right; by exists w|done].
          * exists heap. split; [left; auto|done]. }
    destruct (IH heap1 Hdom') as (heap' & -> & Hlen & Hmem).
    exists heap'. split; [done|]. split.
    + destruct Hcase as [[-> _]|(c & _ & _ & ->)]; simpl in *; lia.
    + intros x. rewrite Hmem. split.
      * intros [Hx|(nb' & c & Hnb' & Hvis & Hw & ->)].
        -- destruct Hcase as [[-> _]|(c & -> & Hw & ->)]; [by left|].
           apply elem_of_cons in Hx as [->|Hx]; [|by left].
           right. exists nb, c. split; [by left|done].
        -- right. exists nb', c. split; [by right|done].
      * intros [Hx|(nb' & c & Hnb' & Hvis & Hw & ->)].
        -- left. destruct Hcase as [[-> _]|(c & _ & _ & ->)]; [done|by right].
        -- apply elem_of_cons in Hnb' as [->|Hnb'].
           ++ left. rewrite Hv in Hvis. injection Hvis as ->.
              destruct Hcase as [[_ [?|Hn]]|(c' & _ & Hw' & ->)]; [done| |].
              ** rewrite Hn in Hw. done.
              ** rewrite Hw in Hw'. injection Hw' as <-. by left.
           ++ right. by exists nb', c.
Qed.

Lemma push_neighbors_ext to vis distances distances' neighbors : ∀ heap,
  (∀ a b, edge_weight distances' a b = edge_weight distances a b) →
  push_neighbors neighbors to vis distances' heap
  = push_neighbors neighbors to vis distances heap.
Proof.
  induction neighbors as [|nb neighbors IH]; intros heap Hext; simpl; [done|].
  destruct (vis !! nb) as [[|]|]; [by apply IH| |done].
  pose proof (Hext to nb) as Hw. unfold edge_weight in Hw.
  destruct (distances' !! (to, nb)) as [w'|], (distances !! (to, nb)) as [w|].
  - injection Hw as ->. by apply IH.
  - rewrite <- Hw. by apply IH.
  - rewrite Hw. by apply IH.
  - rewrite Hw. destruct (distances !! (nb, to)); by apply IH.
Qed.

(** ** The loop rule *)


Lemma elem_of_vset st v : v ∈ vset st ↔ visited st !! v = Some true.
Proof.
  unfold vset. rewrite elem_of_dom. split.
  - intros [b Hb]. apply map_lookup_filter_Some in Hb as [Hb Ht].
    simpl in Ht. by subst.
  - intros Hv. exists true. by apply map_lookup_filter_Some.
Qed.


Lemma prim_loop_rule (stadiums : list string) (distances : table)
    (I : state → Prop) :
  (∀ st, I st → loop_cond stadiums st = true →
         ∃ st', prim_step stadiums distances st = Ret st' ∧ I st' ∧
                work stadiums st' < work stadiums st) →
  ∀ fuel st, I st → work stadiums st ≤ fuel →
  ∃ st', prim_loop fuel stadiums distances st = Ret st' ∧ I st' ∧
         loop_cond stadiums st' = false.
Proof.
  intros Hstep. induction fuel as [|fuel IH]; intros st HI Hwork; simpl.
  - destruct (loop_cond stadiums st) eqn:Hc; [|by exists st].
    destruct (Hstep st HI Hc) as (? & _ & _ & ?). lia.
  - destruct (loop_cond stadiums st) eqn:Hc; [|by exists st].
    destruct (Hstep st HI Hc) as (st' & -> & HI' & Hlt). simpl.
    apply IH; [done|lia].
Qed.

(** ** The invariant of the loop *)



Lemma connects_mono es es' a b :
  (∀ e, e ∈ es → e ∈ es') → connects es a b → connects es' a b.
Proof.
  intros Hsub. apply rtc_subrel. intros x y [H|H]; [left|right]; by apply Hsub.
Qed.

Lemma connects_edge es a b : (a, b) ∈ es → connects es a b.
Proof. intros. by apply rtsc_lr. Qed.

Lemma init_visited_lookup stadiums v :
  init_visited stadiums !! v
  = if decide (v ∈ stadiums) then Some false else None.
Proof.
  unfold init_visited.
  assert (∀ acc : gmap string bool,
             foldl (λ d s, <[s := false]> d) acc stadiums !! v
                 = if decide (v ∈ stadiums) then Some false else acc !! v) as H.
  { induction stadiums as [|s stadiums IH]; intros acc; simpl.
    - done.
    - rewrite IH. destruct (decide (v ∈ stadiums)) as [Hin|Hin].
      + rewrite decide_True; [done|by right].
      + destruct (decide (v = s)) as [->|Hne].
        * rewrite decide_True by (by left). apply lookup_insert_eq.
        * rewrite decide_False, lookup_insert_ne; [done|done|].
          intros [?|?]%elem_of_cons; done. }
  rewrite H. by rewrite lookup_empty.
Qed.

Section PrimInv.
Context (stadiums : list string) (distances : table) (s0 : string).
Hypothesis start_listed : s0 ∈ stadiums.

Local Abbreviation adjacent := (adjacent stadiums distances).
Local Abbreviation weight := (weight distances).
Local Abbreviation total_weight := (total_weight distances).
Local Abbreviation Inv := (Inv stadiums distances s0).




Lemma total_weight_app es es' :
  total_weight (es ++ es') = (total_weight es + total_weight es')%Z.
Proof. induction es as [|e es IH]; simpl; [done|]. rewrite IH. lia. Qed.


Lemma vset_visit st to heap mst' cost :
  vset (mkState (<[to := true]> (visited st)) heap mst' cost)
  = {[to]} ∪ vset st.
Proof.
  apply set_eq. intros v. rewrite elem_of_union, elem_of_singleton.
  rewrite !elem_of_vset. simpl. destruct (decide (v = to)) as [->|Hne].
  - rewrite lookup_insert_eq. naive_solver.
  - rewrite lookup_insert_ne by done. naive_solver.
Qed.

Lemma vset_same st heap mst' cost :
  vset (mkState (visited st) heap mst' cost) = vset st.
Proof. done. Qed.

(** Visiting [to] pays for the entries it pushes. *)
Lemma work_visit st to (heap' heap'' : list entry) mst' cost n :
  is_Some (visited st !! to) → to ∉ vset st →
  S (length heap') = length (min_heap st) →
  length heap'' ≤ length heap' + n → n = length stadiums →
  work stadiums (mkState (<[to := true]> (visited st)) heap'' mst' cost)
  < work stadiums st.
Proof.
  intros Hto Hnv Hpop Hpush ->. unfold work. rewrite vset_visit. simpl.
  rewrite dom_insert_L.
  assert (to ∈ dom (visited st)) as Hd by (by apply elem_of_dom).
  assert (dom (visited st) ∖ vset st
          = {[to]} ∪ ({[to]} ∪ dom (visited st)) ∖ ({[to]} ∪ vset st)) as ->.
  { apply set_eq. intros v. destruct (decide (v = to)); set_solver. }
  assert ({[to]} ## ({[to]} ∪ dom (visited st)) ∖ ({[to]} ∪ vset st))
    as Hdisj by set_solver.
  rewrite (size_union _ _ Hdisj), size_singleton. nia.
Qed.

(** One round of the loop, from a state that satisfies the invariant. *)
Lemma prim_step_cases st :
  Inv st → min_heap st ≠ [] →
  ∃ c a b heap',
    min_heap st ≡ₚ (c, a, b) :: heap' ∧
    (∀ y, y ∈ min_heap st → (c ≤ y.1.1)%Z) ∧
    visited st !! a = Some true ∧ b ∈ stadiums ∧
    edge_weight distances a b = Some c ∧
    ((visited st !! b = Some true ∧
      prim_step stadiums distances st
      = Ret (mkState (visited st) heap' (mst st) (total_cost st))) ∨
     (visited st !! b = Some false ∧ a ≠ b ∧
      ∃ heap'',
        length heap'' ≤ length heap' + length stadiums ∧
        (∀ x, x ∈ heap'' ↔
              x ∈ heap' ∨
              ∃ nb w, nb ∈ stadiums ∧
                      <[b := true]> (visited st) !! nb = Some false ∧
                      edge_weight distances b nb = Some w ∧ x = (w, b, nb)) ∧
        prim_step stadiums distances st
        = Ret (mkState (<[b := true]> (visited st)) heap''
                       (mst st ++ [(a, b)]) (total_cost st + c)%Z))).
Proof.
  intros HI Hne.
  destruct (heappop_spec _ Hne) as ([[c a] b] & heap' & Hpop & Hperm & Hmin).
  exists c, a, b, heap'.
  destruct (inv_heap _ _ _ st HI c a b) as (Hb & Ha & Hw).
  { rewrite Hperm. by left. }
  repeat (split; [done|]).
  unfold prim_step. rewrite Hpop. simpl.
  destruct (proj1 (inv_dom _ _ _ st HI b) Hb) as [[|] Hvb]; rewrite Hvb.
  - by left.
  - right. split; [done|].
    assert (a ≠ b) as Hab by (intros ->; congruence).
    split; [done|].
    destruct (push_neighbors_spec b (<[b := true]> (visited st)) distances
                stadiums heap') as (heap'' & Hpush & Hlen & Hmem).
    { intros v Hv. rewrite lookup_insert_is_Some.
      destruct (decide (b = v)); [by left|right].
      split; [done|]. by apply (inv_dom _ _ _ st HI). }
    exists heap''. split; [done|]. split; [done|].
    rewrite Hpush. simpl. by rewrite decide_True.
Qed.

Lemma Inv_step st :
  Inv st → loop_cond stadiums st = true →
  ∃ st', prim_step stadiums distances st = Ret st' ∧ Inv st' ∧
         work stadiums st' < work stadiums st.
Proof.
  intros HI Hc. unfold loop_cond in Hc.
  apply andb_true_iff in Hc as [Hne%bool_decide_eq_true _].
  destruct (prim_step_cases st HI Hne)
    as (c & a & b & heap' & Hperm & Hmin & Ha & Hb & Hw & Hcase).
  assert (∀ x, x ∈ min_heap st ↔ x = (c, a, b) ∨ x ∈ heap') as Hheap.
  { intros x. rewrite Hperm. apply elem_of_cons. }
  assert (length (min_heap st) = S (length heap')) as Hlen
    by (by rewrite Hperm).
  destruct Hcase as [[Hvb ->]|(Hvb & Hab & heap'' & Hlen' & Hmem & ->)].
  - eexists. split; [done|]. split.
    + destruct HI. constructor; simpl; try done.
      * intros c' a' b' Hin. apply inv_heap0, Hheap. by right.
      * intros a' b' c' Ha' Hb' Hw'.
        destruct (proj1 (Hheap _) (inv_cross0 _ _ _ Ha' Hb' Hw'))
          as [[= -> -> ->]|Hin]; [congruence|done].
    + unfold work. simpl. rewrite vset_same. lia.
  - eexists. split; [done|]. split.
    + destruct HI. constructor; simpl.
      * intros v. rewrite lookup_insert_is_Some, inv_dom0.
        destruct (decide (b = v)) as [<-|]; [|naive_solver].
        split; [by left|]. intros _. by apply inv_dom0.
      * rewrite lookup_insert_ne; [done|]. intros ->. congruence.
      * intros c' a' b' [Hin|(nb & w & Hnb & Hvnb & Hwnb & [= -> -> ->])]%Hmem.
        -- destruct (inv_heap0 c' a' b') as (? & Ha' & ?);
             [apply Hheap; by right|].
           repeat split; [done| |done].
           destruct (decide (b = a')) as [->|];
             [apply lookup_insert_eq|by rewrite lookup_insert_ne].
        -- repeat split; [done| |done]. apply lookup_insert_eq.
      * intros a' b' c' Ha' Hb' Hw'. apply Hmem.
        assert (b ≠ b') as Hbb' by (intros <-; rewrite lookup_insert_eq in Hb'; done).
        destruct (decide (b = a')) as [<-|Hba'].
        -- right. exists b', c'. repeat split; [|done|done].
           apply inv_dom0. rewrite lookup_insert_ne in Hb' by done. eauto.
        -- left. rewrite lookup_insert_ne in Ha' by done.
           rewrite lookup_insert_ne in Hb' by done.
           destruct (proj1 (Hheap _) (inv_cross0 _ _ _ Ha' Hb' Hw'))
             as [[= -> -> ->]|Hin]; done.
      * intros a' b' [Hin|[= -> ->]%list_elem_of_singleton]%elem_of_app.
        -- destruct (inv_mst0 _ _ Hin) as (Ha' & Hb' & ?).
           repeat split; [| |done].
           ++ destruct (decide (b = a')) as [->|];
                [apply lookup_insert_eq|by rewrite lookup_insert_ne].
           ++ destruct (decide (b = b')) as [->|];
                [apply lookup_insert_eq|by rewrite lookup_insert_ne].
        -- repeat split; [| |by rewrite Hw].
           ++ by rewrite lookup_insert_ne.
           ++ apply lookup_insert_eq.
      * intros v Hv. destruct (decide (b = v)) as [<-|Hbv].
        -- etrans.
           ++ eapply connects_mono; [|apply (inv_conn0 a Ha)].
              intros e He. apply elem_of_app. by left.
           ++ apply connects_edge. apply elem_of_app. right. by left.
        -- rewrite lookup_insert_ne in Hv by done.
           eapply connects_mono; [|apply (inv_conn0 v Hv)].
           intros e He. apply elem_of_app. by left.
      * rewrite total_weight_app, inv_cost0. simpl. unfold weight. simpl.
        rewrite Hw. simpl. lia.
      * rewrite vset_visit. rewrite size_union.
        -- rewrite size_singleton, length_app. simpl. lia.
        -- apply disjoint_singleton_l. rewrite elem_of_vset. congruence.
    + apply work_visit with (heap' := heap') (n := length stadiums);
        try done; try (rewrite elem_of_vset; congruence); eauto.
Qed.

(** The first round visits the start vertex and establishes the
    invariant. *)
Lemma Inv_first :
  loop_cond stadiums (init_state stadiums s0) = true →
  ∃ st', prim_step stadiums distances (init_state stadiums s0) = Ret st' ∧
         Inv st' ∧ mst st' = [] ∧
         work stadiums st' < work stadiums (init_state stadiums s0).
Proof.
  intros _. unfold prim_step. simpl.
  rewrite !decide_True by done. simpl.
  rewrite init_visited_lookup, decide_True by done.
  destruct (push_neighbors_spec s0 (<[s0 := true]> (init_visited stadiums))
              distances stadiums []) as (heap'' & -> & Hlen & Hmem).
  { intros v Hv. rewrite lookup_insert_is_Some.
    destruct (decide (s0 = v)); [by left|right]. split; [done|].
    rewrite init_visited_lookup, decide_True by done. eauto. }
  simpl. rewrite decide_False by (intros ?; done).
  eexists. split; [done|].
  assert (∀ v, <[s0 := true]> (init_visited stadiums) !! v = Some true → v = s0)
    as Honly.
  { intros v. destruct (decide (s0 = v)) as [->|]; [done|].
    rewrite lookup_insert_ne, init_visited_lookup by done.
    case_decide; done. }
  split; [|split; [done|]].
  - constructor; simpl.
    + intros v. rewrite lookup_insert_is_Some, init_visited_lookup.
      destruct (decide (s0 = v)) as [<-|]; [naive_solver|].
      case_decide; [naive_solver|]. split; [done|].
      intros [?|[_ [? ?]]]; done.
    + apply lookup_insert_eq.
    + intros c a b [Hin|(nb & w & Hnb & _ & Hw & [= -> -> ->])]%Hmem.
      * by apply elem_of_nil in Hin.
      * repeat split; [done| |done]. apply lookup_insert_eq.
    + intros a b c Ha%Honly Hb Hw. subst a. apply Hmem. right.
      exists b, c. repeat split; [|done|done].
      destruct (decide (s0 = b)) as [<-|];
        [by rewrite lookup_insert_eq in Hb|].
      rewrite lookup_insert_ne, init_visited_lookup in Hb by done.
      by case_decide.
    + by intros a b ?%elem_of_nil.
    + intros v ->%Honly. reflexivity.
    + done.
    + set (st1 := mkState _ _ _ _).
      assert (vset st1 = {[s0]}) as ->; [|by rewrite size_singleton].
      apply set_eq. intros v. rewrite elem_of_vset, elem_of_singleton.
      split; [apply Honly|intros ->; apply lookup_insert_eq].
  - apply (work_visit (init_state stadiums s0) s0 [] heap'' [] _ (length stadiums));
      simpl; try done.
    + rewrite init_visited_lookup, decide_True by done. eauto.
    + rewrite elem_of_vset. simpl. rewrite init_visited_lookup. by case_decide.
Qed.

End PrimInv.

(** ** Paths that leave a set of vertices *)

Global Instance connects_equivalence es : Equivalence (connects es).
Proof. unfold connects. apply _. Qed.

Lemma rtc_bind {A} (R1 R2 : relation A) x y :
  (∀ u w, R1 u w → rtc R2 u w) → rtc R1 x y → rtc R2 x y.
Proof.
  intros Hstep. induction 1 as [|x y z Hxy _ IH]; [done|].
  etrans; [by apply Hstep|done].
Qed.


(** A path that ends outside [S] either never meets [S], or has a last
    edge that leaves [S], after which it stays outside. *)
Lemma path_crossing es (S : string → Prop) `{!∀ x, Decision (S x)} x v :
  connects es x v → ¬ S v →
  (¬ S x ∧ rtc (outside es S) x v) ∨
  (∃ a b, S a ∧ ¬ S b ∧ sc (link es) a b ∧ rtc (outside es S) b v).
Proof.
  intros Hpath Hv. induction Hpath as [x|x y z Hxy _ IH].
  - left. split; [done|constructor].
  - destruct (IH Hv) as [[Hy Hrest]|Hlater]; [|by right].
    destruct (decide (S x)) as [Hx|Hx].
    + right. by exists x, y.
    + left. split; [done|]. by apply rtc_l with y.
Qed.

(** ** The minimality invariant *)

Section PrimOpt.
Context (stadiums : list string) (distances : table) (s0 : string).
Hypothesis start_listed : s0 ∈ stadiums.
Hypothesis weight_sym :
  ∀ a b, edge_weight distances a b = edge_weight distances b a.

Local Abbreviation adjacent := (adjacent stadiums distances).
Local Abbreviation total_weight := (total_weight distances).
Local Abbreviation Inv := (Inv stadiums distances s0).
Local Abbreviation spanning := (spanning stadiums distances s0).
Local Abbreviation extendable := (extendable stadiums distances s0).



Lemma total_weight_perm es es' :
  es ≡ₚ es' → total_weight es = total_weight es'.
Proof.
  induction 1 as [|e es es' _ IH|e e' es|es es' es'' _ IH1 _ IH2]; simpl.
  - done.
  - by rewrite IH.
  - lia.
  - by rewrite IH1.
Qed.

Lemma adjacent_sym a b : adjacent a b → adjacent b a.
Proof.
  intros (Ha & Hb & Hw). repeat split; [done|done|].
  by apply edge_weight_is_Some_sym.
Qed.

Lemma extendable_nil : extendable [].
Proof. intros H HH. by exists H. Qed.

Lemma extendable_visit st c a b :
  Inv st →
  visited st !! a = Some true → visited st !! b = Some false →
  edge_weight distances a b = Some c →
  (∀ y, y ∈ min_heap st → (c ≤ y.1.1)%Z) →
  extendable (mst st) → extendable (mst st ++ [(a, b)]).
Proof.
  intros HI Ha Hb Hw Hmin Hext H HH.
  destruct (Hext H HH) as (R & [Hadj Hconn] & Hle).
  set (S := λ x, visited st !! x = Some true).
  assert (b ∈ stadiums) as Hbl by (apply (inv_dom _ _ _ st HI); eauto).
  assert (a ∈ stadiums) as Hal by (apply (inv_dom _ _ _ st HI); eauto).
  assert (¬ S b) as HSb by (unfold S; congruence).
  destruct (path_crossing (mst st ++ R) S s0 b (Hconn b Hbl) HSb)
    as [[Hs0 _]|(x & y & Hx & Hy & Hxy & Hout)].
  { destruct Hs0. apply (inv_start _ _ _ st HI). }
  (* the edge that leaves the visited set belongs to [R] *)
  assert (∃ e, e ∈ R ∧ (e = (x, y) ∨ e = (y, x))) as (e & HeR & He).
  { destruct Hxy as [Hin|Hin]; unfold link in Hin;
      apply elem_of_app in Hin as [Hin|Hin]; eauto.
    - destruct (inv_mst _ _ _ st HI _ _ Hin) as (_ & ? & _). done.
    - destruct (inv_mst _ _ _ st HI _ _ Hin) as (? & _ & _). done. }
  apply elem_of_Permutation in HeR as [R' HR].
  assert (adjacent x y) as Hadjxy.
  { destruct He as [->| ->].
    - apply Hadj. rewrite HR. apply elem_of_app. right. by left.
    - apply adjacent_sym, Hadj. rewrite HR. apply elem_of_app. right. by left. }
  destruct Hadjxy as (Hxl & Hyl & [c' Hc']).
  assert (visited st !! y = Some false) as Hyf.
  { destruct (proj1 (inv_dom _ _ _ st HI y) Hyl) as [[|] Hvy]; done. }
  assert (weight distances e = c') as Hwe.
  { unfold weight. destruct He as [->| ->]; simpl.
    - by rewrite Hc'.
    - by rewrite weight_sym, Hc'. }
  assert (c ≤ c')%Z as Hcc'.
  { apply (Hmin (c', x, y)). by apply (inv_cross _ _ _ st HI). }
  exists R'. split; [split|].
  - intros u w [[Hin|Hin%list_elem_of_singleton]%elem_of_app|Hin]%elem_of_app.
    + apply Hadj. apply elem_of_app. by left.
    + injection Hin as -> ->. repeat split; [done|done|by rewrite Hw].
    + apply Hadj. rewrite HR. apply elem_of_app. right. by right.
  - (* every old path can be rerouted *)
    set (new := (mst st ++ [(a, b)]) ++ R').
    assert (∀ e0, e0 ∈ mst st → e0 ∈ new) as Hold.
    { intros e0 ?. unfold new. rewrite !elem_of_app. auto. }
    assert (∀ e0, e0 ∈ R' → e0 ∈ new) as Hrest.
    { intros e0 ?. unfold new. rewrite !elem_of_app. auto. }
    assert (connects new x y) as Hbridge.
    { trans s0.
      { symmetry. eapply connects_mono; [exact Hold|].
        by apply (inv_conn _ _ _ st HI). }
      trans a.
      { eapply connects_mono; [exact Hold|]. by apply (inv_conn _ _ _ st HI). }
      trans b.
      { apply connects_edge. unfold new. rewrite !elem_of_app.
        left. right. by left. }
      symmetry. eapply rtc_bind; [|exact Hout].
      intros u w (Huw & Hu & Hw'). apply rtc_once.
      assert (∀ p q, (p, q) ∈ mst st ++ R → ¬ S p → ¬ S q → (p, q) ∈ new) as Hkeep.
      { intros p q [Hin|Hin]%elem_of_app Hp Hq.
        - destruct (inv_mst _ _ _ st HI _ _ Hin) as (? & _ & _). done.
        - rewrite HR in Hin. apply elem_of_cons in Hin as [Hin|Hin].
          + destruct He as [->| ->]; injection Hin as -> ->; done.
          + by apply Hrest. }
      destruct Huw as [Huw|Huw]; [left|right]; by apply Hkeep. }
    intros v Hv. eapply rtc_bind; [|exact (Hconn v Hv)].
    intros u w Huw.
    assert (∀ p q, (p, q) ∈ mst st ++ R → connects new p q) as Hstep.
    { intros p q [Hin|Hin]%elem_of_app.
      - by apply connects_edge, Hold.
      - rewrite HR in Hin. apply elem_of_cons in Hin as [Hin|Hin].
        + destruct He as [->| ->]; injection Hin as -> ->;
            [done|by symmetry].
        + by apply connects_edge, Hrest. }
    destruct Huw as [Huw|Huw]; [by apply Hstep|].
    symmetry. by apply Hstep.
  - rewrite !total_weight_app in *. rewrite (total_weight_perm _ _ HR) in Hle.
    simpl in *. unfold weight at 1. simpl. rewrite Hw. simpl.
    rewrite Hwe in Hle. lia.
Qed.

End PrimOpt.

(** ** Running the loop *)



Lemma size_list_to_set_le (l : list string) :
  size (list_to_set (C := gset string) l) ≤ length l.
Proof.
  unfold size, set_size. simpl. apply submseteq_length.
  apply NoDup_submseteq; [apply NoDup_elements|].
  intros x. rewrite elem_of_elements. by rewrite elem_of_list_to_set.
Qed.

Section PrimRun.
Context (stadiums : list string) (distances : table) (s0 : string).
Hypothesis start_first : stadiums !! 0 = Some s0.

Local Abbreviation Inv := (Inv stadiums distances s0).
Local Abbreviation init := (init_state stadiums s0).
Local Abbreviation started := (started stadiums distances s0).

Lemma start_listed : s0 ∈ stadiums.
Proof. by apply list_elem_of_lookup_2 with 0. Qed.

Lemma dom_init_visited : dom (init_visited stadiums) = list_to_set stadiums.
Proof.
  apply set_eq. intros v.
  rewrite elem_of_dom, init_visited_lookup, elem_of_list_to_set.
  case_decide; split; eauto; try done; by intros [? ?].
Qed.

Lemma work_init : work stadiums init ≤ prim_fuel stadiums.
Proof.
  unfold work, prim_fuel. simpl. rewrite dom_init_visited.
  pose proof (size_list_to_set_le stadiums) as Hle.
  assert (size (list_to_set stadiums ∖ vset init) ≤ size (list_to_set (C := gset string) stadiums))
    as Hle' by (apply subseteq_size; set_solver).
  nia.
Qed.


Lemma prim_run (J : state → Prop) :
  J init →
  (∀ st st', started st → J st → loop_cond stadiums st = true →
             prim_step stadiums distances st = Ret st' → J st') →
  ∃ st, prim_loop (prim_fuel stadiums) stadiums distances init = Ret st ∧
        started st ∧ J st ∧ loop_cond stadiums st = false.
Proof.
  intros HJ0 HJ.
  destruct (prim_loop_rule stadiums distances (λ st, started st ∧ J st))
    with (fuel := prim_fuel stadiums) (st := init)
    as (st & Hrun & [Hst HJst] & Hc).
  - intros st [Hst HJst] Hc.
    assert (∃ st', prim_step stadiums distances st = Ret st' ∧ Inv st' ∧
                   work stadiums st' < work stadiums st)
      as (st' & Hstep & HI' & Hlt).
    { destruct Hst as [->|HI].
      - destruct (Inv_first stadiums distances s0 start_listed Hc)
          as (st' & ? & ? & _ & ?). by exists st'.
      - by apply Inv_step; [apply start_listed|..]. }
    exists st'. split; [done|]. split; [|done]. split; [by right|].
    by apply (HJ st st').
  - split; [by left|done].
  - apply work_init.
  - by exists st.
Qed.

Lemma length_stadiums_pos : 0 < length stadiums.
Proof. apply lookup_lt_Some in start_first. lia. Qed.

Lemma init_final : loop_cond stadiums init = false → stadiums = [s0].
Proof.
  unfold loop_cond. simpl. intros Hc%bool_decide_eq_false.
  destruct stadiums as [|s [|??]]; simpl in *; [done| |lia].
  by injection start_first as ->.
Qed.

Lemma visited_listed st v :
  Inv st → visited st !! v = Some true → v ∈ stadiums.
Proof. intros HI Hv. apply (inv_dom _ _ _ st HI). eauto. Qed.

Lemma visited_reachable st v :
  Inv st → visited st !! v = Some true → reachable stadiums distances s0 v.
Proof.
  intros HI Hv. unfold reachable.
  eapply rtc_bind; [|exact (inv_conn _ _ _ st HI v Hv)].
  intros u w Huw. apply rtc_once.
  assert (∀ p q, (p, q) ∈ mst st → adjacent stadiums distances p q) as Hadj.
  { intros p q Hin. destruct (inv_mst _ _ _ st HI _ _ Hin) as (Hp & Hq & Hw).
    repeat split; [by apply (visited_listed st)|by apply (visited_listed st)|done]. }
  destruct Huw as [Huw|Huw]; [by apply Hadj|].
  by apply adjacent_sym, Hadj.
Qed.

Lemma reachable_visited st v :
  Inv st → min_heap st = [] →
  reachable stadiums distances s0 v → visited st !! v = Some true.
Proof.
  intros HI Hempty Hreach. unfold reachable in Hreach.
  revert v Hreach. apply rtc_ind_r.
  - apply (inv_start _ _ _ st HI).
  - intros v w _ (_ & Hw & [c Hc]) IH.
    destruct (proj1 (inv_dom _ _ _ st HI w) Hw) as [[|] Hvw]; [done|].
    pose proof (inv_cross _ _ _ st HI v w c IH Hvw Hc) as Hin.
    rewrite Hempty in Hin. by apply elem_of_nil in Hin.
Qed.

Lemma visited_covered st v :
  Inv st → visited st !! v = Some true ↔ covered s0 (mst st) v.
Proof.
  intros HI. split.
  - intros Hv. apply (inv_conn _ _ _ st HI) in Hv.
    apply rtc_inv_r in Hv as [->|(u & _ & Huv)]; [by left|].
    right. exists u. destruct Huv as [Huv|Huv]; [by right|by left].
  - intros [->|(w & [Hin|Hin])].
    + apply (inv_start _ _ _ st HI).
    + by destruct (inv_mst _ _ _ st HI _ _ Hin) as (? & _ & _).
    + by destruct (inv_mst _ _ _ st HI _ _ Hin) as (_ & ? & _).
Qed.

Lemma vset_listed st : Inv st → vset st ⊆ list_to_set stadiums.
Proof.
  intros HI v Hv%elem_of_vset. apply elem_of_list_to_set.
  by apply (visited_listed st).
Qed.

(** When the loop stops after visiting every vertex it can reach, the
    tree has one edge less than there are visited vertices. *)
Lemma final_all_visited st :
  Inv st → NoDup stadiums → loop_cond stadiums st = false →
  (∀ v, v ∈ stadiums → reachable stadiums distances s0 v) →
  (∀ v, v ∈ stadiums → visited st !! v = Some true) ∧
  S (length (mst st)) = length stadiums.
Proof.
  intros HI Hnd Hc Hall.
  assert (vset st = list_to_set stadiums) as Hset.
  { unfold loop_cond in Hc. apply andb_false_iff in Hc as [Hc|Hc].
    - apply bool_decide_eq_false in Hc.
      assert (min_heap st = []) as Hempty.
      { destruct (min_heap st); [done|]. by destruct Hc. }
      apply set_eq. intros v. split; [apply (vset_listed st HI)|].
      intros Hv%elem_of_list_to_set. apply elem_of_vset.
      by apply reachable_visited, Hall.
    - apply bool_decide_eq_false in Hc.
      apply set_subseteq_size_eq; [by apply vset_listed|].
      rewrite size_list_to_set by done.
      rewrite <- (inv_count _ _ _ st HI). lia. }
  split.
  - intros v Hv. apply elem_of_vset. rewrite Hset.
    by apply elem_of_list_to_set.
  - rewrite (inv_count _ _ _ st HI), Hset. by apply size_list_to_set.
Qed.

(** When some listed vertex cannot be reached, the loop stops on an
    empty heap with fewer edges than a spanning tree has. *)
Lemma final_disconnected st u :
  Inv st → loop_cond stadiums st = false →
  u ∈ stadiums → ¬ reachable stadiums distances s0 u →
  min_heap st = [] ∧ S (length (mst st)) < length stadiums.
Proof.
  intros HI Hc Hu Hnr.
  assert (S (length (mst st)) < length stadiums) as Hlt.
  { rewrite (inv_count _ _ _ st HI).
    eapply Nat.lt_le_trans; [|apply (size_list_to_set_le stadiums)].
    apply subset_size. split; [by apply vset_listed|].
    intros Hsub. apply Hnr, (visited_reachable st); [done|].
    apply elem_of_vset, Hsub. by apply elem_of_list_to_set. }
  split; [|done].
  unfold loop_cond in Hc. apply andb_false_iff in Hc as [Hc|Hc].
  - apply bool_decide_eq_false in Hc.
    destruct (min_heap st); [done|]. by destruct Hc.
  - apply bool_decide_eq_false in Hc. lia.
Qed.

End PrimRun.

(** ** The order on heap entries *)

(** The comparison of strings is the lexicographic order of the standard
    library's ordered type of strings. *)
Lemma string_compare_OT a b : String.compare a b = String_as_OT.compare a b.
Proof.
  revert b. induction a as [|c a IH]; intros [|d b]; simpl; try done.
Qed.


Lemma string_lt_irrefl a : ¬ string_lt a a.
Proof.
  unfold string_lt. rewrite string_compare_OT.
  apply (irreflexivity String_as_OT.lt).
Qed.

Lemma string_lt_trans a b c : string_lt a b → string_lt b c → string_lt a c.
Proof.
  unfold string_lt. rewrite !string_compare_OT.
  apply (transitivity (R := String_as_OT.lt)).
Qed.

Lemma string_compare_cases a b :
  (String.compare a b = Eq ∧ a = b) ∨
  (String.compare a b = Lt ∧ string_lt a b) ∨
  (String.compare a b = Gt ∧ string_lt b a).
Proof.
  unfold string_lt. rewrite !string_compare_OT.
  destruct (String_as_OT.compare_spec a b) as [H|H|H]; auto.
Qed.


Lemma entry_ltb_lt x y : entry_ltb x y = true ↔ entry_lt x y.
Proof.
  unfold entry_ltb, entry_lt, String.ltb.
  destruct (Z.compare_spec x.1.1 y.1.1) as [Hc|Hc|Hc].
  - destruct (string_compare_cases x.1.2 y.1.2) as [[-> He]|[[-> Hl]|[-> Hg]]].
    + destruct (string_compare_cases x.2 y.2) as [[-> He']|[[-> Hl]|[-> Hg]]].
      * split; [done|]. intros [?|[_ [Hl|[_ Hl]]]]; [lia| |].
        -- rewrite He in Hl. by apply string_lt_irrefl in Hl.
        -- rewrite He' in Hl. by apply string_lt_irrefl in Hl.
      * split; [|done]. intros _. right. split; [done|]. right. done.
      * split; [done|]. intros [?|[_ [Hl|[_ Hl]]]]; [lia| |].
        -- rewrite He in Hl. by apply string_lt_irrefl in Hl.
        -- by destruct (string_lt_irrefl x.2 (string_lt_trans _ _ _ Hl Hg)).
    + split; [|done]. intros _. right. split; [done|]. by left.
    + split; [done|]. intros [?|[_ [Hl|[He Hl]]]]; [lia| |].
      * by destruct (string_lt_irrefl x.1.2 (string_lt_trans _ _ _ Hl Hg)).
      * rewrite He in Hg. by apply string_lt_irrefl in Hg.
  - split; [|done]. intros _. by left.
  - split; [done|]. intros [?|[? _]]; lia.
Qed.

Lemma entry_lt_irrefl x : ¬ entry_lt x x.
Proof.
  intros [?|[_ [H|[_ H]]]]; [lia| |]; by apply string_lt_irrefl in H.
Qed.

Lemma entry_lt_trans x y z : entry_lt x y → entry_lt y z → entry_lt x z.
Proof.
  unfold entry_lt.
  intros [?|[E1 [H1|[E1' H1]]]] [?|[E2 [H2|[E2' H2]]]];
    try (left; lia); right; (split; [lia|]).
  - left. by eapply string_lt_trans.
  - left. by rewrite <- E2'.
  - left. by rewrite E1'.
  - right. split; [congruence|]. by eapply string_lt_trans.
Qed.

Lemma entry_lt_total x y : entry_lt x y ∨ x = y ∨ entry_lt y x.
Proof.
  destruct x as [[c a] b], y as [[c' a'] b']. unfold entry_lt. simpl.
  destruct (Z.lt_total c c') as [?|[->|?]];
    [by left; left| |by right; right; left].
  destruct (string_compare_cases a a') as [[_ ->]|[[_ ?]|[_ ?]]];
    [|left; right; auto|right; right; right; auto].
  destruct (string_compare_cases b b') as [[_ ->]|[[_ ?]|[_ ?]]];
    [by right; left|left; right; auto|right; right; right; auto].
Qed.


Lemma least_of_unique heap x x' : least_of heap x → least_of heap x' → x = x'.
Proof.
  intros [Hx Hmin] [Hx' Hmin'].
  destruct (entry_lt_total x x') as [Hlt|[->|Hlt]]; [|done|].
  - by destruct (Hmin' x Hx).
  - by destruct (Hmin x' Hx').
Qed.

Lemma heap_min_least heap : ∀ x, least_of (x :: heap) (heap_min x heap).
Proof.
  induction heap as [|y heap IH]; intros x; simpl.
  - split; [by left|]. intros y ->%list_elem_of_singleton.
    apply entry_lt_irrefl.
  - destruct (IH (if entry_ltb y x then y else x)) as [Hin Hmin].
    set (p := if entry_ltb y x then y else x) in *.
    assert (p ∈ x :: y :: heap ∧ ¬ entry_lt x p ∧ ¬ entry_lt y p)
      as (Hp & Hxp & Hyp).
    { subst p. destruct (entry_ltb y x) eqn:Hyx.
      - apply entry_ltb_lt in Hyx. split; [right; by left|]. split.
        + intros Hxy. by destruct (entry_lt_irrefl y (entry_lt_trans _ _ _ Hyx Hxy)).
        + apply entry_lt_irrefl.
      - split; [by left|]. split; [apply entry_lt_irrefl|].
        intros Hlt%entry_ltb_lt. congruence. }
    assert (∀ z, ¬ entry_lt z p → ¬ entry_lt z (heap_min p heap)) as Hle.
    { intros z Hz Hlt. apply Hz.
      destruct (entry_lt_total (heap_min p heap) p) as [H|[H|H]].
      - by eapply entry_lt_trans.
      - by rewrite <- H.
      - destruct (Hmin p); [by left|done]. }
    split.
    + apply elem_of_cons in Hin as [->|Hin]; [done|]. right. by right.
    + intros z [->|[->|Hz]%elem_of_cons]%elem_of_cons.
      * by apply Hle.
      * by apply Hle.
      * apply Hmin. by right.
Qed.

(** [heappop] takes out the one least entry, whatever the order in which
    the list holds the entries. *)
Lemma heappop_least heap least heap' :
  heappop heap = Ret (least, heap') →
  least_of heap least ∧ heap ≡ₚ least :: heap'.
Proof.
  destruct heap as [|x heap]; [done|]. simpl. intros [= <- <-].
  pose proof (heap_min_least heap x) as Hl. split; [done|].
  apply (heap_remove_perm _ (x :: heap)). apply Hl.
Qed.

Lemma heappop_layout heap1 heap2 least1 rest1 :
  heap1 ≡ₚ heap2 → heappop heap1 = Ret (least1, rest1) →
  ∃ rest2, heappop heap2 = Ret (least1, rest2) ∧ rest1 ≡ₚ rest2.
Proof.
  intros Hperm Hpop1.
  destruct (heappop_least _ _ _ Hpop1) as [[Hin1 Hmin1] Hp1].
  destruct heap2 as [|x heap2].
  { apply Permutation_nil_r in Hperm. by subst. }
  destruct (heappop_least (x :: heap2) _ _ eq_refl) as [Hl2 Hp2].
  assert (heap_min x heap2 = least1) as Heq.
  { apply (least_of_unique (x :: heap2)); [done|]. split.
    - by rewrite <- Hperm.
    - intros y Hy. apply Hmin1. by rewrite Hperm. }
  eexists. split; [simpl; by rewrite Heq|].
  rewrite Heq in Hp2. rewrite Hperm, Hp2 in Hp1.
  by apply Permutation_cons_inv in Hp1.
Qed.

(** ** The result does not depend on the layout of the heap *)



Lemma push_neighbors_layout to vis distances neighbors : ∀ heap1 heap2,
  heap1 ≡ₚ heap2 →
  res_rel (≡ₚ) (push_neighbors neighbors to vis distances heap1)
               (push_neighbors neighbors to vis distances heap2).
Proof.
  induction neighbors as [|nb neighbors IH]; intros heap1 heap2 Hperm; simpl.
  - done.
  - destruct (vis !! nb) as [[|]|]; [by apply IH| |done].
    destruct (distances !! (to, nb)).
    { apply IH. unfold heappush. by constructor. }
    destruct (distances !! (nb, to)); [|by apply IH].
    apply IH. unfold heappush. by constructor.
Qed.

Lemma loop_cond_layout stadiums st1 st2 :
  same_layout st1 st2 → loop_cond stadiums st1 = loop_cond stadiums st2.
Proof.
  intros (_ & Hheap & Hmst & _). unfold loop_cond. rewrite Hmst. f_equal.
  apply bool_decide_ext. split; intros Hne Hnil; apply Hne.
  - rewrite Hnil in Hheap. by apply Permutation_nil_r in Hheap.
  - rewrite Hnil in Hheap. by apply Permutation_nil_l in Hheap.
Qed.

Lemma prim_step_layout stadiums distances st1 st2 :
  same_layout st1 st2 →
  res_rel same_layout (prim_step stadiums distances st1)
                      (prim_step stadiums distances st2).
Proof.
  intros (Hvis & Hheap & Hmst & Hcost). unfold prim_step.
  destruct (heappop (min_heap st1)) as [[[[c a] b] rest1]|e|] eqn:Hpop1.
  - destruct (heappop_layout _ _ _ _ Hheap Hpop1) as (rest2 & -> & Hrest).
    simpl. rewrite <- Hvis, <- Hmst, <- Hcost.
    destruct (visited st1 !! b) as [[|]|]; [done| |done].
    pose proof (push_neighbors_layout b (<[b := true]> (visited st1))
                  distances stadiums rest1 rest2 Hrest) as Hpush.
    destruct (push_neighbors _ _ _ _ rest1), (push_neighbors _ _ _ _ rest2);
      simpl in *; try done.
  - destruct (min_heap st1) as [|x h1]; [|done]. injection Hpop1 as <-.
    apply Permutation_nil_l in Hheap. by rewrite <- Hheap.
  - by destruct (min_heap st1).
Qed.

Lemma prim_loop_layout stadiums distances fuel : ∀ st1 st2,
  same_layout st1 st2 →
  res_rel same_layout (prim_loop fuel stadiums distances st1)
                      (prim_loop fuel stadiums distances st2).
Proof.
  induction fuel as [|fuel IH]; intros st1 st2 Hsame; simpl;
    rewrite <- (loop_cond_layout stadiums st1 st2 Hsame);
    destruct (loop_cond stadiums st1); try done.
  pose proof (prim_step_layout stadiums distances st1 st2 Hsame) as Hstep.
  destruct (prim_step stadiums distances st1),
           (prim_step stadiums distances st2); simpl in *; try done.
  by apply IH.
Qed.

(** ** Assumptions on the weight table *)



Lemma edge_weight_sym distances a b :
  one_orientation distances →
  edge_weight distances a b = edge_weight distances b a.
Proof.
  intros Hone. unfold edge_weight.
  destruct (decide (a = b)) as [->|Hne]; [done|].
  destruct (distances !! (a, b)) as [w|] eqn:Hab.
  - pose proof (Hone _ _ Hab Hne) as Hba. simpl in Hba. by rewrite Hba.
  - by destruct (distances !! (b, a)).
Qed.

Lemma edge_weight_nonneg distances a b w :
  nonneg_weights distances → edge_weight distances a b = Some w → (0 ≤ w)%Z.
Proof.
  intros Hnn. unfold edge_weight.
  destruct (distances !! (a, b)) as [w'|] eqn:Hab.
  - intros [= <-]. by apply (Hnn _ _ Hab).
  - intros Hba. by apply (Hnn _ _ Hba).
Qed.

Lemma total_weight_nonneg distances es :
  nonneg_weights distances → (0 ≤ total_weight distances es)%Z.
Proof.
  intros Hnn. induction es as [|e es IH]; simpl; [done|].
  assert (0 ≤ weight distances e)%Z; [|lia].
  unfold weight. destruct (edge_weight distances e.1 e.2) as [w|] eqn:Hw;
    simpl; [by eapply edge_weight_nonneg|done].
Qed.


Lemma edge_weight_flip distances a b w :
  one_orientation distances → distances !! (a, b) = Some w →
  ∀ x y, edge_weight (flip_entry distances a b w) x y
         = edge_weight distances x y.
Proof.
  intros Hone Hab x y. unfold flip_entry.
  destruct (decide (a = b)) as [->|Hne].
  { by rewrite insert_delete_eq, insert_id. }
  pose proof (Hone _ _ Hab Hne) as Hba. simpl in Hba.
  assert (∀ k, (<[(b, a) := w]> (delete (a, b) distances)) !! k
               = if decide (k = (b, a)) then Some w
                 else if decide (k = (a, b)) then None else distances !! k)
    as Hlook.
  { intros k. case_decide as H1; [subst; apply lookup_insert_eq|].
    rewrite lookup_insert_ne by done.
    case_decide as H2; [subst; apply lookup_delete_eq|].
    by rewrite lookup_delete_ne. }
  unfold edge_weight. rewrite !Hlook.
  destruct (decide ((x, y) = (b, a))) as [[= -> ->]|Hxy1].
  { by rewrite Hba, Hab. }
  destruct (decide ((x, y) = (a, b))) as [[= -> ->]|Hxy2].
  { rewrite decide_True by done. by rewrite Hab. }
  rewrite decide_False by (intros [= -> ->]; done).
  rewrite decide_False by (intros [= -> ->]; done).
  done.
Qed.

(** The result of [prim_mst] depends on the table only through the
    weights it finds for the pairs of vertices. *)
Lemma prim_step_ext stadiums distances distances' st :
  (∀ a b, edge_weight distances' a b = edge_weight distances a b) →
  prim_step stadiums distances' st = prim_step stadiums distances st.
Proof.
  intros Hext. unfold prim_step.
  destruct (heappop (min_heap st)) as [[[[c a] b] heap']| |]; simpl; try done.
  destruct (visited st !! b) as [[|]|]; try done.
  by rewrite (push_neighbors_ext _ _ distances distances').
Qed.

Lemma prim_loop_ext stadiums distances distances' fuel : ∀ st,
  (∀ a b, edge_weight distances' a b = edge_weight distances a b) →
  prim_loop fuel stadiums distances' st = prim_loop fuel stadiums distances st.
Proof.
  induction fuel as [|fuel IH]; intros st Hext; simpl; [done|].
  destruct (loop_cond stadiums st); [|done].
  rewrite (prim_step_ext _ distances distances') by done.
  destruct (prim_step stadiums distances st); simpl; try done. by apply IH.
Qed.

Lemma prim_mst_ext stadiums distances distances' :
  (∀ a b, edge_weight distances' a b = edge_weight distances a b) →
  prim_mst stadiums distances' = prim_mst stadiums distances.
Proof.
  intros Hext. unfold prim_mst. destruct (stadiums !! 0); [|done].
  by rewrite (prim_loop_ext _ distances distances').
Qed.

(** The tree stays extendable round after round. *)
Lemma extendable_step stadiums distances s0 st st' :
  stadiums !! 0 = Some s0 → one_orientation distances →
  started stadiums distances s0 st →
  extendable stadiums distances s0 (mst st) →
  loop_cond stadiums st = true →
  prim_step stadiums distances st = Ret st' →
  extendable stadiums distances s0 (mst st').
Proof.
  intros Hs0 Hone Hst Hext Hc Hstep.
  pose proof (start_listed stadiums s0 Hs0) as Hl.
  destruct Hst as [->|HI].
  - destruct (Inv_first stadiums distances s0 Hl Hc) as (st'' & Hstep' & _ & Hm & _).
    rewrite Hstep in Hstep'. injection Hstep' as <-. rewrite Hm.
    apply extendable_nil.
  - unfold loop_cond in Hc.
    apply andb_true_iff in Hc as [Hne%bool_decide_eq_true _].
    destruct (prim_step_cases stadiums distances s0 st HI Hne)
      as (c & a & b & heap' & _ & Hmin & Ha & Hb & Hw & Hcase).
    destruct Hcase as [[_ Hstep']|(Hvb & _ & heap'' & _ & _ & Hstep')];
      rewrite Hstep in Hstep'; injection Hstep' as ->; simpl; [done|].
    apply (extendable_visit stadiums distances s0) with (c := c); try done.
    intros x y. by apply edge_weight_sym.
Qed.

(** ** The scheduler: statements of the specification *)


(** C1: with at least one venue [schedule_matches] returns a feasible
    schedule that uses the fewest days: every schedule of the same matches
    on the same venues, one match per venue and day, has at least as many
    days.  The number of days is the number of matches divided by the
    number of venues, rounded up (3 for the round robin on 2 venues). *)
Theorem schedule_matches_minimal (matches : list Match) (venue_count : Z) :
  (1 ≤ venue_count)%Z →
  ∃ s, schedule_matches matches venue_count = Ret (Some s) ∧
       feasible (venue_ids venue_count) matches s ∧
       (∀ alt, feasible (venue_ids venue_count) matches alt →
               length s ≤ length alt) ∧
       Z.of_nat (length s)
       = ((Z.of_nat (length matches) + venue_count - 1) / venue_count)%Z.
Proof.
  intros Hvc.
  destruct (schedule_matches_some matches venue_count Hvc) as (s & Hrun & Hok).
  pose proof (make_stadiums_nodup venue_count) as Hnd.
  pose proof (sched_ok_feasible _ _ Hnd _ Hok) as Hfeas.
  fold (venue_ids venue_count) in Hfeas.
  assert (length (venue_ids venue_count) = Z.to_nat venue_count) as Hlen.
  { unfold venue_ids. by rewrite length_fmap, make_stadiums_length. }
  destruct Hok as (_ & Hmin & _). rewrite make_stadiums_length in Hmin.
  exists s. repeat split; [done|apply Hfeas|apply Hfeas| |].
  - intros alt Halt. apply Hmin.
    apply feasible_lower_bound in Halt. rewrite Hlen in Halt. lia.
  - apply feasible_lower_bound in Hfeas. rewrite Hlen in Hfeas.
    set (n := length matches) in *. set (q := ((Z.of_nat n + venue_count - 1) / venue_count)%Z).
    assert (0 ≤ q)%Z as Hq0 by (apply Z.div_pos; lia).
    pose proof (Z.div_mod (Z.of_nat n + venue_count - 1) venue_count) as Hdm.
    pose proof (Z.mod_pos_bound (Z.of_nat n + venue_count - 1) venue_count) as Hmb.
    fold q in Hdm.
    assert (length s ≤ Z.to_nat q) as Hup.
    { apply Hmin. nia. }
    assert (q < Z.of_nat (length s) + 1)%Z as Hlow.
    { apply Z.div_lt_upper_bound; [lia|]. nia. }
    lia.
Qed.

Lemma schedule_matches_minimal_witness :
  ∃ s, schedule_matches round_robin 2 = Ret (Some s) ∧
       feasible (venue_ids 2) round_robin s ∧
       (∀ alt, feasible (venue_ids 2) round_robin alt →
               length s ≤ length alt) ∧
       Z.of_nat (length s) = 3%Z.
Proof. apply (schedule_matches_minimal round_robin 2). lia. Defined.

(** C3: a schedule returned by [schedule_matches] plays every match of the
    input exactly once, and on each day the matches of one contiguous block
    are given venues that are all different. *)
Theorem schedule_matches_coverage (matches : list Match) (venue_count : Z)
    (s : Schedule) :
  schedule_matches matches venue_count = Ret (Some s) →
  covers matches s ∧
  ∃ blocks, concat blocks = matches ∧
    Forall2 (λ block d, ∃ venues, NoDup venues ∧
                          length venues = length block ∧
                          map_to_list d ≡ₚ zip venues block) blocks s.
Proof.
  intros Hrun. destruct (decide (1 ≤ venue_count)%Z) as [Hvc|Hvc].
  - destruct (schedule_matches_some matches venue_count Hvc) as (s' & Hrun' & Hok).
    rewrite Hrun in Hrun'. injection Hrun' as <-.
    pose proof (make_stadiums_nodup venue_count) as Hnd.
    split; [apply (sched_ok_feasible _ _ Hnd _ Hok)|].
    destruct Hok as ((blocks & Hcat & Hall) & _). rewrite drop_0 in Hcat.
    exists blocks. split; [done|].
    eapply Forall2_impl; [exact Hall|]. intros block d Hd. simpl.
    destruct (valid_day_entries _ Hnd _ _ Hd) as (venues & ? & ? & _ & ?).
    by exists venues.
  - rewrite schedule_matches_no_stadium in Hrun by lia.
    destruct matches as [|mt matches]; [|done]. injection Hrun as <-.
    split; [unfold covers; reflexivity|]. exists []. split; [done|constructor].
Qed.

Lemma schedule_matches_coverage_witness :
  ∃ s, schedule_matches (create_matches 3) 1 = Ret (Some s) ∧
       covers (create_matches 3) s ∧
       ∃ blocks, concat blocks = create_matches 3 ∧
         Forall2 (λ block d, ∃ venues, NoDup venues ∧
                               length venues = length block ∧
                               map_to_list d ≡ₚ zip venues block) blocks s.
Proof.
  eexists. split; [vm_compute; reflexivity|].
  apply (schedule_matches_coverage (create_matches 3) 1). vm_compute. reflexivity.
Defined.

(** C4, as the code has it: [generate_assignments] returns one dictionary
    for each arrangement of [len(block)] of the stadiums; their number is
    the falling factorial [n!/(n-k)!], and the result is empty exactly
    when the block is longer than the list of stadiums.  When the
    stadiums have identifiers that are all different, the dictionary of
    an arrangement holds the i-th match of the block under the i-th
    stadium of the arrangement, for every i, and nothing else. *)
Theorem generate_assignments_cardinality (block : list Match)
    (stadiums : list Stadium) :
  ∃ l, generate_assignments block stadiums = Ret l ∧
       (l = [] ↔ length stadiums < length block) ∧
       length l = falling (length stadiums) (length block) ∧
       falling (length stadiums) (length block)
         * fact (length stadiums - length block)
       = (if decide (length block ≤ length stadiums)
          then fact (length stadiums) else 0) ∧
       l = pair_up block <$> k_permutations stadiums (length block) ∧
       (∀ perm, perm ∈ k_permutations stadiums (length block) ↔
                length perm = length block ∧ perm ⊆+ stadiums) ∧
       (NoDup (id <$> stadiums) →
        Forall2 (λ perm d,
                   map_to_list d ≡ₚ zip (id <$> perm) block ∧
                   ∀ i s mt, perm !! i = Some s → block !! i = Some mt →
                             d !! id s = Some mt)
          (k_permutations stadiums (length block)) l).
Proof.
  set (k := length block). set (n := length stadiums).
  assert (length (pair_up block <$> k_permutations stadiums k) = falling n k)
    as Hlen by (by rewrite length_fmap, k_permutations_length).
  exists (pair_up block <$> k_permutations stadiums k).
  split; [|split; [|split; [|split; [|split; [|split]]]]].
  - rewrite generate_assignments_spec. fold k n. case_decide; [|done].
    f_equal. symmetry. apply nil_length_inv.
    rewrite Hlen. by apply falling_zero.
  - split.
    + intros Hnil. rewrite Hnil in Hlen. simpl in Hlen.
      destruct (decide (n < k)) as [|Hge]; [done|].
      pose proof (falling_pos n k). lia.
    + intros Hlt. apply nil_length_inv. rewrite Hlen. by apply falling_zero.
  - done.
  - case_decide.
    + by apply falling_fact.
    + rewrite falling_zero by lia. done.
  - done.
  - intros perm. apply k_permutations_elem.
  - intros Hnd. apply Forall2_fmap_r, Forall_Forall2_diag, Forall_forall.
    intros perm Hperm. apply k_permutations_elem in Hperm as [Hlp Hsub].
    assert (NoDup (id <$> perm)) as Hndp.
    { apply (submseteq_nodup _ (id <$> stadiums)); [|done].
      by apply fmap_submseteq. }
    split.
    + by apply pair_up_entries.
    + intros i s mt Hs Hmt. by apply (pair_up_lookup block perm i).
Qed.

Lemma generate_assignments_cardinality_witness :
  ∃ l, generate_assignments (create_matches 2) (make_stadiums 3) = Ret l ∧
       length l = 6 ∧
       Forall2 (λ perm d,
                  map_to_list d ≡ₚ zip (id <$> perm) (create_matches 2) ∧
                  ∀ i s mt, perm !! i = Some s →
                            create_matches 2 !! i = Some mt →
                            d !! id s = Some mt)
         (k_permutations (make_stadiums 3) 2) l.
Proof.
  destruct (generate_assignments_cardinality (create_matches 2)
              (make_stadiums 3))
    as (l & Hrun & _ & Hlen & _ & _ & _ & Hpair).
  exists l. split; [exact Hrun|]. split; [exact Hlen|].
  apply Hpair. apply make_stadiums_nodup.
Defined.

(** C4 as stated fails on a list that holds a stadium twice: both
    arrangements of two stadiums give a dictionary with one entry, the
    second match under ["s1"], so the first match is paired with no
    stadium. *)
Lemma generate_assignments_cardinality_counterexample :
  generate_assignments [(1, 2); (3, 4)]%Z
    [mkStadium "s1" "Stadium 1"; mkStadium "s1" "Stadium 1"]
  = Ret [{[ "s1" := (3, 4)%Z ]}; {[ "s1" := (3, 4)%Z ]}]
  ∧ k_permutations [mkStadium "s1" "Stadium 1"; mkStadium "s1" "Stadium 1"] 2
    = [[mkStadium "s1" "Stadium 1"; mkStadium "s1" "Stadium 1"];
       [mkStadium "s1" "Stadium 1"; mkStadium "s1" "Stadium 1"]]
  ∧ ({[ "s1" := (3, 4)%Z ]} : DaySchedule) !! "s1" ≠ Some (1, 2)%Z
  ∧ size ({[ "s1" := (3, 4)%Z ]} : DaySchedule) ≠ 2.
Proof.
  split; [vm_compute; reflexivity|]. split; [vm_compute; reflexivity|].
  split; [by rewrite lookup_singleton_eq|].
  by rewrite map_size_singleton.
Qed.

(** C5: for a venue count that is not negative, [schedule_matches] returns
    [None] exactly when there is no venue and some match; with a venue it
    returns a feasible schedule (every match played once, every day on
    venues of the tournament, one match per venue), and for no match it
    returns the empty schedule whatever the venue count. *)
Theorem schedule_matches_infeasible (matches : list Match) (venue_count : Z) :
  (0 ≤ venue_count)%Z →
  (schedule_matches matches venue_count = Ret None
   ↔ venue_count = 0%Z ∧ matches ≠ []) ∧
  ((1 ≤ venue_count)%Z →
   ∃ s, schedule_matches matches venue_count = Ret (Some s) ∧
        feasible (venue_ids venue_count) matches s) ∧
  (∀ vc, schedule_matches [] vc = Ret (Some [])).
Proof.
  intros Hvc. split; [|split].
  - destruct (decide (1 ≤ venue_count)%Z) as [H1|H1].
    + destruct (schedule_matches_some matches venue_count H1) as (s & -> & _).
      split; [done|]. intros [? _]. lia.
    + rewrite schedule_matches_no_stadium by lia.
      destruct matches; split; try done; try (intros [_ ?]; done).
      intros _. split; [lia|done].
  - intros H1.
    destruct (schedule_matches_some matches venue_count H1) as (s & Hrun & Hok).
    exists s. split; [done|].
    apply (sched_ok_feasible _ _ (make_stadiums_nodup venue_count) _ Hok).
  - intros vc. destruct (decide (1 ≤ vc)%Z) as [H1|H1].
    + destruct (schedule_matches_some [] vc H1) as (s & -> & _ & Hmin & _).
      specialize (Hmin 0 (Nat.le_0_l _)). destruct s; [done|simpl in Hmin; lia].
    + by rewrite schedule_matches_no_stadium by lia.
Qed.

Lemma schedule_matches_infeasible_witness :
  schedule_matches (create_matches 2) 0 = Ret None ∧
  (∃ s, schedule_matches round_robin 2 = Ret (Some s) ∧
        feasible (venue_ids 2) round_robin s) ∧
  schedule_matches [] 0 = Ret (Some []).
Proof.
  destruct (schedule_matches_infeasible (create_matches 2) 0) as (Hnone & _ & Hnil);
    [lia|].
  destruct (schedule_matches_infeasible round_robin 2) as (_ & Hsome & _);
    [lia|].
  split; [|split].
  - apply Hnone. split; [reflexivity|discriminate].
  - apply Hsome. lia.
  - apply Hnil.
Defined.

(** C6, as the code has it: a match list that is not empty and no longer
    than the venue count is scheduled on exactly one day, every match on a
    venue of its own. *)
Theorem schedule_matches_single_day (matches : list Match) (venue_count : Z) :
  matches ≠ [] →
  (Z.of_nat (length matches) ≤ venue_count)%Z →
  ∃ d venues, schedule_matches matches venue_count = Ret (Some [d]) ∧
    NoDup venues ∧ length venues = length matches ∧
    (∀ v, v ∈ venues → v ∈ venue_ids venue_count) ∧
    map_to_list d ≡ₚ zip venues matches.
Proof.
  intros Hne Hle.
  assert (0 < length matches) as Hpos by (destruct matches; [done|simpl; lia]).
  destruct (schedule_matches_some matches venue_count) as (s & Hrun & Hok); [lia|].
  pose proof (make_stadiums_nodup venue_count) as Hnd.
  destruct Hok as ((blocks & Hcat & Hall) & Hmin & Hone).
  rewrite drop_0 in Hcat. rewrite make_stadiums_length in Hmin.
  specialize (Hmin 1). specialize (Hone Hpos).
  assert (length s = 1) as Hs by lia.
  destruct s as [|d [|??]]; try done.
  apply Forall2_cons_inv_r in Hall as (block & blocks' & Hd & Hrest & ->).
  apply Forall2_nil_inv_r in Hrest as ->.
  simpl in Hcat. rewrite app_nil_r in Hcat. subst block.
  destruct (valid_day_entries _ Hnd _ _ Hd) as (venues & ? & ? & ? & ?).
  by exists d, venues.
Qed.

Lemma schedule_matches_single_day_witness :
  ∃ d venues, schedule_matches (create_matches 3) 3 = Ret (Some [d]) ∧
    NoDup venues ∧ length venues = length (create_matches 3) ∧
    (∀ v, v ∈ venues → v ∈ venue_ids 3) ∧
    map_to_list d ≡ₚ zip venues (create_matches 3).
Proof.
  apply (schedule_matches_single_day (create_matches 3) 3); [done|simpl; lia].
Defined.

(** C6 as stated fails on the empty match list: its length is at most any
    venue count, and the schedule returned has no day at all. *)
Lemma schedule_matches_single_day_counterexample :
  (Z.of_nat (length (@nil Match)) ≤ 1)%Z ∧
  schedule_matches [] 1 = Ret (Some []).
Proof. split; [simpl; lia|vm_compute; reflexivity]. Qed.

(** ** The network builder: statements of the specification *)


(** What [prim_mst] returns from the last state of its loop. *)
Lemma prim_mst_run s0 rest distances (J : state → Prop) :
  J (init_state (s0 :: rest) s0) →
  (∀ st st', started (s0 :: rest) distances s0 st → J st →
             loop_cond (s0 :: rest) st = true →
             prim_step (s0 :: rest) distances st = Ret st' → J st') →
  ∃ st, prim_mst (s0 :: rest) distances = Ret (total_cost st, mst st) ∧
        started (s0 :: rest) distances s0 st ∧ J st ∧
        loop_cond (s0 :: rest) st = false.
Proof.
  intros HJ0 HJ.
  destruct (prim_run (s0 :: rest) distances s0 eq_refl J HJ0 HJ)
    as (st & Hrun & Hst & HJst & Hc).
  exists st. unfold prim_mst. simpl lookup. cbv iota. by rewrite Hrun.
Qed.

(** C2, as the code has it: on a list of vertices without repetition and
    a table of integer weights that are not negative, with one orientation
    per pair and every vertex joined to the first by edges of the table,
    [prim_mst] returns [len(vertices) - 1] edges that span the graph, the
    sum of their weights as total cost, and no spanning set of edges (so
    no spanning tree) weighs less.  Sums of integers are exact; on a
    table of floats the total cost is a rounded running sum
    ([prim_mst_float_rounding]). *)
Theorem prim_mst_minimum (s0 : string) (rest : list string)
    (distances : table) :
  NoDup (s0 :: rest) →
  nonneg_weights distances →
  one_orientation distances →
  (∀ v, v ∈ s0 :: rest → reachable (s0 :: rest) distances s0 v) →
  ∃ cost tree, prim_mst (s0 :: rest) distances = Ret (cost, tree) ∧
    length tree = length (s0 :: rest) - 1 ∧
    cost = total_weight distances tree ∧
    spanning (s0 :: rest) distances s0 tree ∧
    ∀ T, spanning (s0 :: rest) distances s0 T →
         (cost ≤ total_weight distances T)%Z.
Proof.
  intros Hnd Hnn Hone Hall.
  destruct (prim_mst_run s0 rest distances
              (λ st, extendable (s0 :: rest) distances s0 (mst st)))
    as (st & Hrun & Hst & Hext & Hc).
  { apply extendable_nil. }
  { intros st st' Hst HJ Hc Hstep.
    by apply (extendable_step (s0 :: rest) distances s0 st st'). }
  exists (total_cost st), (mst st). split; [done|].
  assert (∀ T, spanning (s0 :: rest) distances s0 T →
               (total_weight distances (mst st) ≤ total_weight distances T)%Z)
    as Hbest.
  { intros T HT. destruct (Hext T HT) as (R & _ & Hle).
    rewrite total_weight_app in Hle.
    pose proof (total_weight_nonneg distances R Hnn). lia. }
  destruct Hst as [->|HI].
  - apply (init_final (s0 :: rest) s0 eq_refl) in Hc.
    injection Hc as ->. simpl. split; [done|]. split; [done|].
    split; [split|].
    + by intros a b ?%elem_of_nil.
    + intros v ->%list_elem_of_singleton. reflexivity.
    + apply Hbest.
  - destruct (final_all_visited (s0 :: rest) distances s0 st HI Hnd Hc Hall)
      as [Hvis Hlen].
    split; [simpl in *; lia|]. split; [apply (inv_cost _ _ _ st HI)|].
    split; [split|].
    + intros a b Hin. destruct (inv_mst _ _ _ st HI _ _ Hin) as (Ha & Hb & Hw).
      repeat split; [| |done]; by eapply visited_listed.
    + intros v Hv. by apply (inv_conn _ _ _ st HI), Hvis.
    + rewrite (inv_cost _ _ _ st HI). apply Hbest.
Qed.

Lemma five_stadiums_reachable v :
  v ∈ five_stadiums → reachable five_stadiums stadium_distances "s1" v.
Proof.
  intros Hv.
  assert (v = "s1" ∨ adjacent five_stadiums stadium_distances "s1" v)
    as [->|Hadj]; [|constructor|by apply rtc_once].
  unfold five_stadiums in Hv.
  repeat (apply elem_of_cons in Hv as [->|Hv]);
    [by left|right..|by apply elem_of_nil in Hv];
    (split; [by left|]); (split; [by repeat first [left | right]|]);
    vm_compute; eauto.
Qed.

Lemma prim_mst_minimum_witness :
  ∃ cost tree, prim_mst five_stadiums stadium_distances = Ret (cost, tree) ∧
    length tree = length five_stadiums - 1 ∧
    cost = total_weight stadium_distances tree ∧
    spanning five_stadiums stadium_distances "s1" tree ∧
    ∀ T, spanning five_stadiums stadium_distances "s1" T →
         (cost ≤ total_weight stadium_distances T)%Z.
Proof.
  apply (prim_mst_minimum "s1" ["s2"; "s3"; "s4"; "s5"] stadium_distances).
  - apply (bool_decide_unpack _). vm_compute. exact I.
  - apply (bool_decide_unpack _). vm_compute. exact I.
  - apply (bool_decide_unpack _). vm_compute. exact I.
  - apply five_stadiums_reachable.
Defined.

(** C2 as stated fails when the list of vertices repeats a vertex: the
    graph of ["a"; "a"] has one vertex, which is joined to itself, and the
    tree has no edge, not [len(vertices) - 1 = 1]. *)
Lemma prim_mst_minimum_counterexample :
  nonneg_weights ∅ ∧ one_orientation ∅ ∧
  (∀ v, v ∈ ["a"; "a"] → reachable ["a"; "a"] ∅ "a" v) ∧
  prim_mst ["a"; "a"] ∅ = Ret (0%Z, []) ∧
  length (@nil (string * string)) ≠ length ["a"; "a"] - 1.
Proof.
  split; [apply map_Forall_empty|]. split; [apply map_Forall_empty|].
  split; [|split; [vm_compute; reflexivity|simpl; lia]].
  intros v Hv. repeat (apply elem_of_cons in Hv as [->|Hv]); try constructor.
  by apply elem_of_nil in Hv.
Qed.

(** On a table of floats the total cost is the running sum of the
    weights in the order the edges are chosen, rounded at each step.  On
    the path with weights 0.1, 0.2 and 0.3 it is 0.6000000000000001, which
    is more than the weights of the same three edges added from the last
    to the first: the total cost is a sum of the weights in one order of
    adding them only, and a spanning tree (the same one) can weigh less
    in another. *)
Set Warnings "-inexact-float".
Lemma prim_mst_float_rounding :
  PrimF.prim_mst ["a"; "b"; "c"; "d"] PrimF.tenths
  = Ret (0.6000000000000001%float, [("a", "b"); ("b", "c"); ("c", "d")])
  ∧ PrimFloat.eqb (0.1 + 0.2 + 0.3) 0.6000000000000001 = true
  ∧ PrimFloat.ltb (0.3 + 0.2 + 0.1) 0.6000000000000001 = true.
Proof. vm_compute. repeat split. Qed.
Set Warnings "inexact-float".

(** C7: when some listed vertex cannot be reached from the first one,
    [prim_mst] still returns a pair; its edges are edges of the graph, they
    touch exactly the vertices that can be reached and join each of them to
    the first vertex, and there are fewer than [len(vertices) - 1] of
    them. *)
Theorem prim_mst_disconnected (s0 : string) (rest : list string)
    (distances : table) (u : string) :
  u ∈ s0 :: rest →
  ¬ reachable (s0 :: rest) distances s0 u →
  ∃ cost tree, prim_mst (s0 :: rest) distances = Ret (cost, tree) ∧
    (∀ v, covered s0 tree v ↔ reachable (s0 :: rest) distances s0 v) ∧
    (∀ v, reachable (s0 :: rest) distances s0 v → connects tree s0 v) ∧
    (∀ a b, (a, b) ∈ tree → adjacent (s0 :: rest) distances a b) ∧
    (Z.of_nat (length tree) < Z.of_nat (length (s0 :: rest)) - 1)%Z.
Proof.
  intros Hu Hnr.
  destruct (prim_mst_run s0 rest distances (λ _, True))
    as (st & Hrun & Hst & _ & Hc); [done|done|].
  exists (total_cost st), (mst st). split; [done|].
  destruct Hst as [->|HI].
  { apply (init_final (s0 :: rest) s0 eq_refl) in Hc. injection Hc as ->.
    apply list_elem_of_singleton in Hu as ->. destruct Hnr. constructor. }
  destruct (final_disconnected (s0 :: rest) distances s0 st u HI Hc Hu Hnr)
    as [Hempty Hlt].
  split; [|split; [|split]].
  - intros v. rewrite <- (visited_covered (s0 :: rest) distances s0 eq_refl st v HI).
    split; [by apply visited_reachable|by apply reachable_visited].
  - intros v Hv. apply (inv_conn _ _ _ st HI).
    by apply (reachable_visited (s0 :: rest) distances s0).
  - intros a b Hin. destruct (inv_mst _ _ _ st HI _ _ Hin) as (Ha & Hb & Hw).
    repeat split; [| |done]; by eapply visited_listed.
  - lia.
Qed.

Lemma prim_mst_disconnected_witness :
  ∃ cost tree, prim_mst ["a"; "b"] ∅ = Ret (cost, tree) ∧
    (∀ v, covered "a" tree v ↔ reachable ["a"; "b"] ∅ "a" v) ∧
    (∀ v, reachable ["a"; "b"] ∅ "a" v → connects tree "a" v) ∧
    (∀ a b, (a, b) ∈ tree → adjacent ["a"; "b"] ∅ a b) ∧
    (Z.of_nat (length tree) < Z.of_nat (length ["a"; "b"]) - 1)%Z.
Proof.
  apply (prim_mst_disconnected "a" ["b"] ∅ "b").
  - right. by left.
  - intros [Heq|(y & (_ & _ & [w Hw]) & _)]%rtc_inv; [done|].
    unfold edge_weight in Hw. by rewrite !lookup_empty in Hw.
Defined.

(** C8: in a table with at most one orientation per pair, storing an
    entry under the other orientation of its key changes neither the total
    cost nor the edges that [prim_mst] returns. *)
Theorem prim_mst_orientation (stadiums : list string) (distances : table)
    (a b : string) (w : Z) :
  one_orientation distances →
  distances !! (a, b) = Some w →
  prim_mst stadiums (<[(b, a) := w]> (delete (a, b) distances))
  = prim_mst stadiums distances.
Proof.
  intros Hone Hab. apply prim_mst_ext.
  by apply (edge_weight_flip distances a b w).
Qed.

Lemma prim_mst_orientation_witness :
  prim_mst five_stadiums
    (<[("s2", "s1") := 5%Z]> (delete ("s1", "s2") stadium_distances))
  = prim_mst five_stadiums stadium_distances.
Proof.
  apply (prim_mst_orientation five_stadiums stadium_distances "s1" "s2" 5).
  - apply (bool_decide_unpack _). vm_compute. exact I.
  - vm_compute. reflexivity.
Defined.

(** C9: on the five stadiums and the table of [build_stadium_network],
    [prim_mst] returns the total cost 30 and four edges. *)
Theorem prim_mst_reference_network :
  prim_mst five_stadiums stadium_distances
  = Ret (30%Z, [("s1", "s2"); ("s1", "s3"); ("s3", "s5"); ("s3", "s4")]) ∧
  ∃ cost tree, prim_mst five_stadiums stadium_distances = Ret (cost, tree) ∧
               cost = 30%Z ∧ length tree = 4.
Proof.
  assert (prim_mst five_stadiums stadium_distances
          = Ret (30%Z, [("s1", "s2"); ("s1", "s3"); ("s3", "s5"); ("s3", "s4")]))
    as Hrun by (vm_compute; reflexivity).
  split; [done|]. eexists _, _. split; [exact Hrun|]. done.
Qed.

(** C10: on the empty list [prim_mst] raises [IndexError] at
    [stadiums[0]]; on every list that is not empty, whatever the keys of
    the table, no lookup fails and the loop ends with a pair. *)
Theorem prim_mst_defined :
  (∀ distances, prim_mst [] distances = Raise IndexError) ∧
  (∀ s0 rest distances,
     ∃ cost tree, prim_mst (s0 :: rest) distances = Ret (cost, tree)).
Proof.
  split; [done|]. intros s0 rest distances.
  destruct (prim_mst_run s0 rest distances (λ _, True))
    as (st & Hrun & _); [done|done|].
  by exists (total_cost st), (mst st).
Qed.

(** ** More on the scheduler *)

Lemma k_permutations_first {A} (arr : list A) k :
  k ≤ length arr → ∃ others, k_permutations arr k = take k arr :: others.
Proof.
  revert arr. induction k as [|k IH]; intros arr Hk; simpl.
  - exists []. by rewrite take_0.
  - destruct arr as [|x xs]; simpl in *; [lia|].
    destruct (IH xs) as (others & ->); [lia|]. simpl. eauto.
Qed.

Lemma try_assignments_keep das rest b :
  length b ≤ S (length rest) → try_assignments das rest (Some b) = Some b.
Proof.
  intros Hle. induction das as [|d das IH]; simpl; [done|].
  rewrite decide_False by lia. done.
Qed.

Lemma try_assignments_first d0 das rest best :
  try_assignments (d0 :: das) rest best
  = Some (match best with
          | None => d0 :: rest
          | Some b0 => if decide (S (length rest) < length b0)
                       then d0 :: rest else b0
          end).
Proof.
  simpl. destruct best as [b0|].
  - case_decide.
    + by apply try_assignments_keep.
    + apply try_assignments_keep. lia.
  - by apply try_assignments_keep.
Qed.

Section Optimizing.
Context (matches : list Match) (stadiums : list Stadium).
Context (i : nat) (dp : list (option Schedule)).

Local Abbreviation first_day := (first_day matches stadiums i).
Local Abbreviation tried := (tried matches stadiums i).

Local Abbreviation chosen := (chosen matches stadiums i dp).

Lemma block_loop_chosen :
  (∀ k, tried k → i + k < length dp) →
  ∀ c a best, 1 ≤ a → a + c = S (length stadiums) → chosen a best →
  ∃ best', block_loop (seq a c) i dp matches stadiums best = Ret best' ∧
           chosen (S (length stadiums)) best'.
Proof.
  intros Hdp. induction c as [|c IH]; intros a best Ha Hac Hinv; simpl.
  - exists best. split; [done|]. by replace (S (length stadiums)) with a by lia.
  - case_decide as Hbrk.
    { (* break: no later block length is tried *)
      exists best. split; [done|]. destruct Hinv as [Hn Hs]. split.
      - intros Hb k Hk _. apply Hn; [done|done|]. destruct Hk as [_ ?]. lia.
      - intros b Hb.
        destruct (Hs b Hb) as (k & rest & Hk & Hka & Hrest & -> & Hmin).
        exists k, rest. split; [done|]. split; [lia|]. split; [done|].
        split; [done|]. intros k' rest' Hk' _ Hrest'.
        apply (Hmin k' rest'); [done| |done]. destruct Hk' as [_ ?]. lia. }
    assert (tried a) as Hta by (split; lia).
    rewrite generate_assignments_spec. simpl.
    assert (length (take a (drop i matches)) = a) as Hblk.
    { rewrite length_take, length_drop. lia. }
    rewrite Hblk. case_decide; [lia|].
    destruct (k_permutations_first stadiums a) as (others & ->); [lia|].
    rewrite fmap_cons.
    destruct (lookup_lt_is_Some_2 dp (i + a)) as [entry Hentry];
      [by apply Hdp|].
    rewrite Hentry. destruct Hinv as [Hn Hs].
    destruct entry as [rest|].
    + rewrite try_assignments_first. apply IH; [lia|lia|]. split; [done|].
      intros b Hb. destruct best as [b0|].
      * destruct (Hs b0 eq_refl)
          as (k0 & rest0 & Hk0 & Hk0a & Hrest0 & -> & Hmin).
        simpl in Hb. case_decide as Hlt; injection Hb as <-.
        -- exists a, rest. split; [done|]. split; [lia|]. split; [done|].
           split; [done|]. intros k' rest' Hk' Hk'a Hrest'.
           destruct (decide (k' = a)) as [->|Hne].
           ++ rewrite Hentry in Hrest'. injection Hrest' as <-. lia.
           ++ destruct (Hmin k' rest') as [? _]; [done|lia|done|lia].
        -- exists k0, rest0. split; [done|]. split; [lia|]. split; [done|].
           split; [done|]. intros k' rest' Hk' Hk'a Hrest'.
           destruct (decide (k' = a)) as [->|Hne].
           ++ rewrite Hentry in Hrest'. injection Hrest' as <-. lia.
           ++ apply (Hmin k' rest'); [done|lia|done].
      * injection Hb as <-.
        exists a, rest. split; [done|]. split; [lia|]. split; [done|].
        split; [done|]. intros k' rest' Hk' Hk'a Hrest'.
        destruct (decide (k' = a)) as [->|Hne].
        -- rewrite Hentry in Hrest'. injection Hrest' as <-. lia.
        -- rewrite Hn in Hrest'; [done|done|done|lia].
    + apply IH; [lia|lia|]. split.
      * intros Hnone k Hk Hka. destruct (decide (k = a)) as [->|Hne]; [done|].
        apply Hn; [done|done|lia].
      * intros b Hb.
        destruct (Hs b Hb) as (k0 & rest0 & Hk0 & Hk0a & Hrest0 & -> & Hmin).
        exists k0, rest0. split; [done|]. split; [lia|]. split; [done|].
        split; [done|]. intros k' rest' Hk' Hk'a Hrest'.
        destruct (decide (k' = a)) as [->|Hne]; [congruence|].
        apply (Hmin k' rest'); [done|lia|done].
Qed.

End Optimizing.

(** The loop stops with [IndexError] at the first block length whose table
    entry is out of range. *)
Lemma block_loop_out_of_range matches stadiums i dp k0 :
  tried matches stadiums i k0 → length dp ≤ i + k0 →
  ∀ c a best, 1 ≤ a ≤ k0 → a + c = S (length stadiums) →
  block_loop (seq a c) i dp matches stadiums best = Raise IndexError.
Proof.
  intros [Hk0 Hk0n] Hshort. induction c as [|c IH]; intros a best Ha Hac.
  - lia.
  - simpl. rewrite decide_False by lia.
    rewrite generate_assignments_spec. simpl.
    assert (length (take a (drop i matches)) = a) as Hblk.
    { rewrite length_take, length_drop. lia. }
    rewrite Hblk. case_decide; [lia|].
    destruct (k_permutations_first stadiums a) as (others & ->); [lia|].
    rewrite fmap_cons.
    destruct (dp !! (i + a)) as [entry|] eqn:Hentry; [|done].
    assert (a < k0) as Hlt.
    { apply lookup_lt_Some in Hentry. lia. }
    destruct entry; apply IH; lia.
Qed.

Lemma get_optimizing_solution_choice (i : nat)
    (dp : list (option Schedule)) (matches : list Match)
    (stadiums : list Stadium) :
  (∀ k, tried matches stadiums i k → i + k < length dp) →
  ∃ best, get_optimizing_solution i dp matches stadiums = Ret best ∧
    (best = None ↔
     ∀ k, tried matches stadiums i k → dp !! (i + k) = Some None) ∧
    (∀ b, best = Some b →
       ∃ k rest, tried matches stadiums i k ∧
         dp !! (i + k) = Some (Some rest) ∧
         b = first_day matches stadiums i k :: rest ∧
         ∀ k' rest', tried matches stadiums i k' →
           dp !! (i + k') = Some (Some rest') →
           length rest ≤ length rest' ∧
           (k' < k → length rest < length rest')).
Proof.
  intros Hdp. unfold get_optimizing_solution.
  destruct (block_loop_chosen matches stadiums i dp Hdp
              (length stadiums) 1 None) as (best & Hrun & Hn & Hs);
    [lia|lia| |].
  { split; [|done]. intros _ k [? _] ?. lia. }
  exists best. split; [done|]. split; [split|].
  - intros Hb k Hk. apply Hn; [done|done|]. destruct Hk as [[_ ?] _]. lia.
  - intros Hall. destruct best as [b|]; [|done].
    destruct (Hs b eq_refl) as (k & rest & Hk & _ & Hrest & _).
    rewrite (Hall k Hk) in Hrest. done.
  - intros b Hb.
    destruct (Hs b Hb) as (k & rest & Hk & _ & Hrest & -> & Hmin).
    exists k, rest. split; [done|]. split; [done|]. split; [done|].
    intros k' rest' Hk' Hrest'. apply (Hmin k' rest'); [done| |done].
    destruct Hk' as [[_ ?] _]. lia.
Qed.

(** X1: for a table long enough for every block length it tries,
    [get_optimizing_solution] returns [None] exactly when every entry
    behind a tried block is [None]; otherwise it returns the first day of a
    tried block (its matches on the first stadiums, in order) followed by
    the entry behind it, where that entry is a shortest one and the block
    is the shortest block with such an entry. *)
Theorem get_optimizing_solution_contract (i : nat)
    (dp : list (option Schedule)) (matches : list Match)
    (stadiums : list Stadium) :
  (∀ k, tried matches stadiums i k → i + k < length dp) →
  ∃ best, get_optimizing_solution i dp matches stadiums = Ret best ∧
    (best = None ↔
     ∀ k, tried matches stadiums i k → dp !! (i + k) = Some None) ∧
    (∀ b, best = Some b →
       ∃ k rest, tried matches stadiums i k ∧
         dp !! (i + k) = Some (Some rest) ∧
         b = first_day matches stadiums i k :: rest ∧
         ∀ k' rest', tried matches stadiums i k' →
           dp !! (i + k') = Some (Some rest') →
           length rest ≤ length rest' ∧
           (k' < k → length rest < length rest')).
Proof. exact (get_optimizing_solution_choice i dp matches stadiums). Qed.

Lemma get_optimizing_solution_contract_witness :
  ∃ best, get_optimizing_solution 1 sample_table
            (create_matches 3) (make_stadiums 2) = Ret best ∧
    (best = None ↔
     ∀ k, tried (create_matches 3) (make_stadiums 2) 1 k →
          sample_table !! (1 + k) = Some None) ∧
    (∀ b, best = Some b →
       ∃ k rest, tried (create_matches 3) (make_stadiums 2) 1 k ∧
         sample_table !! (1 + k) = Some (Some rest) ∧
         b = first_day (create_matches 3) (make_stadiums 2) 1 k :: rest ∧
         ∀ k' rest', tried (create_matches 3) (make_stadiums 2) 1 k' →
           sample_table !! (1 + k') = Some (Some rest') →
           length rest ≤ length rest' ∧
           (k' < k → length rest < length rest')).
Proof.
  apply (get_optimizing_solution_contract 1 sample_table
           (create_matches 3) (make_stadiums 2)).
  intros k [_ Hk]. simpl in *. lia.
Defined.

(** X2: [get_optimizing_solution] raises [IndexError] exactly when the
    table is too short for some block length it tries. *)
Theorem get_optimizing_solution_index_error (i : nat)
    (dp : list (option Schedule)) (matches : list Match)
    (stadiums : list Stadium) :
  get_optimizing_solution i dp matches stadiums = Raise IndexError
  ↔ ∃ k, tried matches stadiums i k ∧ length dp ≤ i + k.
Proof.
  split.
  - intros Hraise.
    destruct (decide (Exists (λ k, i + k ≤ length matches ∧ length dp ≤ i + k)
                             (seq 1 (length stadiums))))
      as [(k & Hk%elem_of_seq & ? & ?)%Exists_exists|Hno].
    { exists k. repeat split; lia. }
    destruct (get_optimizing_solution_choice i dp matches stadiums)
      as (best & Hrun & _).
    { intros k [[? ?] ?].
      destruct (decide (i + k < length dp)) as [|Hge]; [done|].
      destruct Hno. apply Exists_exists. exists k. rewrite elem_of_seq.
      repeat split; lia. }
    congruence.
  - intros (k & Hk & Hshort). unfold get_optimizing_solution.
    apply (block_loop_out_of_range matches stadiums i dp k Hk Hshort);
      destruct Hk as [[? ?] ?]; lia.
Qed.

(** *** The schedule, day by day *)

Lemma div_between a m q : q * m ≤ a → a < (q + 1) * m → a / m = q.
Proof.
  intros Hlo Hhi. symmetry. apply (Nat.div_unique a m q (a - q * m)); lia.
Qed.

Lemma split_days_fuel m : ∀ fuel1 fuel2 l,
  1 ≤ m → length l ≤ fuel1 → length l ≤ fuel2 →
  split_days fuel1 m l = split_days fuel2 m l.
Proof.
  induction fuel1 as [|fuel1 IH]; intros fuel2 l Hm H1 H2.
  - destruct l; [|simpl in *; lia]. by destruct fuel2.
  - destruct l as [|x l]; [by destruct fuel2|].
    destruct fuel2 as [|fuel2]; [simpl in *; lia|]. simpl. f_equal.
    pose proof (Nat.mod_upper_bound (length l - 0) m).
    apply IH; [done|..]; rewrite length_drop; simpl in *; lia.
Qed.

Lemma day_blocks_nil m : day_blocks m [] = [].
Proof. done. Qed.

Lemma day_blocks_cons m l :
  1 ≤ m → l ≠ [] →
  day_blocks m l
  = take ((length l - 1) `mod` m + 1) l
    :: day_blocks m (drop ((length l - 1) `mod` m + 1) l).
Proof.
  intros Hm Hl. unfold day_blocks. destruct l as [|x l]; [done|].
  simpl split_days at 1. f_equal.
  apply split_days_fuel; [done|..]; rewrite ?length_drop; simpl; lia.
Qed.

Lemma first_block_bound m len :
  1 ≤ m → 1 ≤ len →
  1 ≤ (len - 1) `mod` m + 1 ≤ m ∧ (len - 1) `mod` m + 1 ≤ len.
Proof.
  intros Hm Hlen. pose proof (Nat.mod_upper_bound (len - 1) m).
  pose proof (Nat.Div0.mod_le (len - 1) m). lia.
Qed.

Lemma day_blocks_length m : ∀ l,
  1 ≤ m → length (day_blocks m l) = (length l + m - 1) / m.
Proof.
  intros l Hm.
  induction l as [l IH] using (induction_ltof1 _ (@length Match)).
  unfold ltof in IH. destruct (decide (l = [])) as [->|Hne].
  { simpl. symmetry. apply Nat.div_small. lia. }
  rewrite day_blocks_cons by done. simpl.
  assert (1 ≤ length l) as Hlen by (destruct l; [done|simpl; lia]).
  destruct (first_block_bound m (length l) Hm Hlen) as [[Hr1 Hr2] Hr3].
  set (r := (length l - 1) `mod` m + 1) in *.
  rewrite IH by (rewrite length_drop; lia). rewrite length_drop.
  pose proof (Nat.div_mod_eq (length l - 1) m) as Hdm.
  set (q := (length l - 1) / m) in *.
  rewrite (div_between (length l - r + m - 1) m q) by (subst r; nia).
  symmetry. apply div_between; subst r; nia.
Qed.

Lemma day_blocks_concat m : ∀ l, 1 ≤ m → concat (day_blocks m l) = l.
Proof.
  intros l Hm.
  induction l as [l IH] using (induction_ltof1 _ (@length Match)).
  unfold ltof in IH. destruct (decide (l = [])) as [->|Hne]; [done|].
  rewrite day_blocks_cons by done. simpl.
  assert (1 ≤ length l) as Hlen by (destruct l; [done|simpl; lia]).
  rewrite IH by (rewrite length_drop; lia). apply take_drop.
Qed.

(** Every block but the first is full. *)
Lemma day_blocks_full m : ∀ l,
  1 ≤ m → length l `mod` m = 0 →
  Forall (λ b, length b = m) (day_blocks m l).
Proof.
  intros l Hm.
  induction l as [l IH] using (induction_ltof1 _ (@length Match)).
  unfold ltof in IH. intros Hmod.
  destruct (decide (l = [])) as [->|Hne]; [constructor|].
  assert (1 ≤ length l) as Hlen by (destruct l; [done|simpl; lia]).
  rewrite day_blocks_cons by done.
  pose proof (Nat.div_mod_eq (length l) m) as Hdm. rewrite Hmod in Hdm.
  generalize dependent (length l / m). intros q Hdm.
  destruct q as [|q]; [lia|].
  assert ((length l - 1) `mod` m = m - 1) as Hr.
  { symmetry. apply (Nat.mod_unique (length l - 1) m q); [lia|].
    rewrite Hdm. nia. }
  rewrite Hr. replace (m - 1 + 1) with m by lia. constructor.
  - rewrite length_take. nia.
  - apply IH; rewrite length_drop; [lia|].
    symmetry. apply (Nat.mod_unique (length l - m) m q); [lia|].
    rewrite Hdm. nia.
Qed.

Lemma day_blocks_shape m l :
  1 ≤ m → l ≠ [] →
  ∃ b bs, day_blocks m l = b :: bs ∧
          length b = (length l - 1) `mod` m + 1 ∧
          Forall (λ b', length b' = m) bs.
Proof.
  intros Hm Hne. rewrite day_blocks_cons by done.
  assert (1 ≤ length l) as Hlen by (destruct l; [done|simpl; lia]).
  destruct (first_block_bound m (length l) Hm Hlen) as [[Hr1 Hr2] Hr3].
  eexists _, _. split; [done|]. split.
  - rewrite length_take. lia.
  - apply day_blocks_full; [done|]. rewrite length_drop.
    pose proof (Nat.div_mod_eq (length l - 1) m) as Hdm.
    symmetry.
    apply (Nat.mod_unique _ m ((length l - 1) / m)); [lia|].
    generalize dependent ((length l - 1) / m).
    generalize dependent ((length l - 1) `mod` m). intros. lia.
Qed.

Section Exact.
Context (matches : list Match) (stadiums : list Stadium).
Hypothesis some_stadium : 1 ≤ length stadiums.

Local Abbreviation m := (length stadiums).
Local Abbreviation table_exact := (table_exact matches stadiums).
Local Abbreviation entry_at := (schedule_from matches stadiums).

Lemma entry_at_length j :
  length (entry_at j) = (length matches - j + m - 1) / m.
Proof.
  unfold schedule_from. by rewrite length_fmap, day_blocks_length, length_drop.
Qed.

Lemma get_optimizing_solution_exact i dp :
  i < length matches → table_exact (S i) dp →
  get_optimizing_solution i dp matches stadiums = Ret (Some (entry_at i)).
Proof.
  intros Hi [Hlen Htab].
  destruct (get_optimizing_solution_choice i dp matches stadiums)
    as (best & -> & Hnone & Hsome).
  { intros k [[? ?] ?]. lia. }
  f_equal. destruct best as [b|]; last first.
  { assert (tried matches stadiums i 1) as Ht by (repeat split; lia).
    pose proof (proj1 Hnone eq_refl 1 Ht) as Hn.
    rewrite Htab in Hn by lia. done. }
  f_equal.
  destruct (Hsome b eq_refl) as (k & rest & Hk & Hrest & -> & Hmin).
  destruct Hk as [[Hk1 Hkm] Hkn].
  rewrite Htab in Hrest by lia. injection Hrest as <-.
  set (L := length matches - i).
  assert (1 ≤ L) as HL by (subst L; lia).
  destruct (first_block_bound m L some_stadium HL) as [[Hr1 Hr2] Hr3].
  pose proof (Nat.div_mod_eq (L - 1) m) as Hdm.
  set (r := (L - 1) `mod` m + 1) in *.
  set (q := (L - 1) / m) in *.
  assert (tried matches stadiums i r) as Htr by (repeat split; subst L; lia).
  destruct (Hmin r (entry_at (i + r)) Htr) as [Hle Hlt].
  { apply Htab. subst L. lia. }
  rewrite !entry_at_length in Hle, Hlt.
  assert ((length matches - (i + r) + m - 1) / m = q) as Hq.
  { apply div_between; subst L r; nia. }
  rewrite Hq in Hle, Hlt.
  assert (k = r) as ->.
  { destruct (decide (k < r)) as [Hkr|Hkr].
    - assert ((length matches - (i + k) + m - 1) / m = q + 1) as Hq'.
      { apply div_between; subst L r; nia. }
      lia.
    - destruct (decide (k = r)) as [|Hne]; [done|].
      assert (q ≤ (length matches - (i + k) + m - 1) / m).
      { apply Nat.div_le_lower_bound; [lia|]. subst L r. nia. }
      lia. }
  unfold schedule_from.
  rewrite (day_blocks_cons m (drop i matches)); [|done|].
  - rewrite length_drop. fold L. fold r. rewrite fmap_cons, drop_drop.
    f_equal. unfold first_day, day_of. rewrite length_take, length_drop.
    f_equal. f_equal. subst L. lia.
  - intros Hnil. apply (f_equal length) in Hnil.
    rewrite length_drop in Hnil. simpl in Hnil. lia.
Qed.

Lemma dp_fill_exact : ∀ i dp,
  i ≤ length matches → table_exact i dp →
  ∃ dp', dp_fill (rev (seq 0 i)) dp matches stadiums = Ret dp' ∧
         table_exact 0 dp'.
Proof.
  induction i as [|i IH]; intros dp Hi Hok.
  - by exists dp.
  - rewrite seq_S, rev_unit. simpl.
    rewrite get_optimizing_solution_exact by (done || lia). simpl.
    destruct Hok as [Hlen Htab]. unfold list_set.
    case_decide; [|lia]. simpl. apply IH; [lia|]. split.
    + by rewrite length_insert.
    + intros j Hj. destruct (decide (j = i)) as [->|Hne].
      * apply list_lookup_insert_eq. lia.
      * rewrite list_lookup_insert_ne by done. apply Htab. lia.
Qed.

Lemma schedule_run_exact :
  (dp0 ← list_set (replicate (length matches + 1) None) (length matches)
           (Some []);
   dp ← dp_fill (rev (seq 0 (length matches))) dp0 matches stadiums;
   match dp !! 0 with
   | None => Raise IndexError
   | Some r => Ret r
   end) = Ret (Some (day_of stadiums <$> day_blocks m matches)).
Proof.
  unfold list_set. rewrite length_replicate. case_decide; [|lia]. simpl.
  destruct (dp_fill_exact (length matches)
              (<[length matches := Some []]>
                 (replicate (length matches + 1) None)))
    as (dp & -> & _ & Htab); [done| |].
  - split; [rewrite length_insert, length_replicate; lia|].
    intros j Hj. assert (j = length matches) as -> by lia.
    unfold schedule_from. rewrite drop_all. simpl.
    apply list_lookup_insert_eq. rewrite length_replicate. lia.
  - simpl. rewrite Htab by lia. unfold schedule_from. by rewrite drop_0.
Qed.

End Exact.

(** X3: with at least one venue the schedule is the match list cut into
    consecutive blocks, each played on the first stadiums in order; the
    first block holds [(n - 1) mod venue_count + 1] matches and every
    later block is full. *)
Theorem schedule_matches_days (matches : list Match) (venue_count : Z) :
  (1 ≤ venue_count)%Z →
  schedule_matches matches venue_count
  = Ret (Some (day_of (make_stadiums venue_count)
                 <$> day_blocks (Z.to_nat venue_count) matches)) ∧
  concat (day_blocks (Z.to_nat venue_count) matches) = matches ∧
  (matches ≠ [] →
   ∃ b bs, day_blocks (Z.to_nat venue_count) matches = b :: bs ∧
           length b = (length matches - 1) `mod` Z.to_nat venue_count + 1 ∧
           Forall (λ b', length b' = Z.to_nat venue_count) bs).
Proof.
  intros Hvc. split; [|split].
  - unfold schedule_matches.
    rewrite schedule_run_exact by (rewrite make_stadiums_length; lia).
    by rewrite make_stadiums_length.
  - apply day_blocks_concat. lia.
  - apply day_blocks_shape. lia.
Qed.

Lemma schedule_matches_days_witness :
  schedule_matches (create_matches 5) 2
  = Ret (Some (day_of (make_stadiums 2)
                 <$> day_blocks (Z.to_nat 2) (create_matches 5))) ∧
  concat (day_blocks (Z.to_nat 2) (create_matches 5)) = create_matches 5 ∧
  (create_matches 5 ≠ [] →
   ∃ b bs, day_blocks (Z.to_nat 2) (create_matches 5) = b :: bs ∧
           length b = (length (create_matches 5) - 1) `mod` Z.to_nat 2 + 1 ∧
           Forall (λ b', length b' = Z.to_nat 2) bs).
Proof. apply (schedule_matches_days (create_matches 5) 2). lia. Defined.

(** *** The day generator on stadiums with distinct identifiers *)

Lemma pair_up_list_to_map block perm :
  NoDup (id <$> perm) → length perm = length block →
  pair_up block perm = list_to_map (zip (id <$> perm) block).
Proof.
  intros Hnd Hlen. apply map_to_list_inj.
  rewrite pair_up_entries by done. symmetry. apply map_to_list_to_map.
  rewrite fst_zip by (rewrite length_fmap; lia). done.
Qed.

Lemma stadiums_of_ids (stadiums : list Stadium) (venues : list string) :
  (∀ v, v ∈ venues → v ∈ id <$> stadiums) →
  ∃ perm : list Stadium,
    id <$> perm = venues ∧ ∀ s, s ∈ perm → s ∈ stadiums.
Proof.
  induction venues as [|v venues IH]; intros Hin.
  - exists []. split; [done|]. by intros ? ?%elem_of_nil.
  - destruct IH as (perm & Hperm & Hsub); [intros; apply Hin; by right|].
    destruct (proj1 (list_elem_of_fmap _ _ _) (Hin v ltac:(by left)))
      as (s & -> & Hs).
    exists (s :: perm). split; [simpl; by f_equal|].
    intros s' [->|?]%elem_of_cons; auto.
Qed.

(** X4: when the stadiums have pairwise distinct identifiers,
    [generate_assignments] returns exactly the ways of giving the matches
    of the block, in order, venues that are all different: every returned
    dictionary is such a placement and every such placement is returned. *)
Theorem generate_assignments_placements (block : list Match)
    (stadiums : list Stadium) :
  NoDup (id <$> stadiums) →
  ∃ l, generate_assignments block stadiums = Ret l ∧
    ∀ d, d ∈ l ↔
         ∃ venues, NoDup venues ∧ (∀ v, v ∈ venues → v ∈ id <$> stadiums) ∧
                   length venues = length block ∧
                   d = list_to_map (zip venues block).
Proof.
  intros Hnd. rewrite generate_assignments_spec.
  assert (∀ d, d ∈ pair_up block <$> k_permutations stadiums (length block) ↔
               ∃ venues, NoDup venues ∧
                 (∀ v, v ∈ venues → v ∈ id <$> stadiums) ∧
                 length venues = length block ∧
                 d = list_to_map (zip venues block)) as Hchar.
  { intros d. rewrite list_elem_of_fmap. split.
    - intros (perm & -> & [Hlen Hsub]%k_permutations_elem).
      pose proof (valid_day_perm_nodup stadiums Hnd perm Hsub) as Hndp.
      exists (id <$> perm). split; [done|]. split.
      + intros v Hv. apply (elem_of_submseteq (id <$> perm)); [done|].
        by apply fmap_submseteq.
      + split; [by rewrite length_fmap|]. by apply pair_up_list_to_map.
    - intros (venues & Hndv & Hin & Hlen & ->).
      destruct (stadiums_of_ids stadiums venues Hin) as (perm & <- & Hsub).
      exists perm. split.
      + symmetry. apply pair_up_list_to_map; [done|].
        by rewrite length_fmap in Hlen.
      + apply k_permutations_elem. split; [by rewrite length_fmap in Hlen|].
        apply NoDup_submseteq; [|done]. by apply NoDup_fmap_1 in Hndv. }
  case_decide as Hlong; [|by eexists].
  exists []. split; [done|]. intros d. rewrite <- Hchar.
  assert (k_permutations stadiums (length block) = []) as ->; [|done].
  apply nil_length_inv. rewrite k_permutations_length. by apply falling_zero.
Qed.

Lemma generate_assignments_placements_witness :
  ∃ l, generate_assignments (create_matches 2) (make_stadiums 3) = Ret l ∧
    ∀ d, d ∈ l ↔
         ∃ venues, NoDup venues ∧
                   (∀ v, v ∈ venues → v ∈ id <$> make_stadiums 3) ∧
                   length venues = length (create_matches 2) ∧
                   d = list_to_map (zip venues (create_matches 2)).
Proof.
  apply (generate_assignments_placements (create_matches 2) (make_stadiums 3)).
  apply make_stadiums_nodup.
Defined.

(** *** [create_matches] *)

(** X5: [create_matches(n)] is a list of [n] matches in which the teams
    are numbered 1 to [2n], in order: every team plays exactly one match. *)
Theorem create_matches_teams (n : nat) :
  length (create_matches n) = n ∧
  flat_map (λ p, [p.1; p.2]) (create_matches n) = Z.of_nat <$> seq 1 (2 * n).
Proof.
  unfold create_matches. split; [by rewrite length_map, length_seq|].
  replace (2 * n) with (n + n) by lia.
  induction n as [|n IH]; [done|].
  rewrite seq_S, map_app, flat_map_app, IH.
  replace (S n + S n) with ((n + n) + 2) by lia.
  rewrite (seq_app (n + n) 2), fmap_app. f_equal.
  cbn [map flat_map app seq fmap list_fmap fst snd].
  repeat (f_equal; try lia).
Qed.

(** *** A negative number of stadiums *)

(** X6: a negative venue count gives no stadium at all ([range] of a
    negative number is empty): [schedule_matches] then returns [None] for
    every match list that is not empty, and the empty schedule for the
    empty list. *)
Theorem schedule_matches_negative (matches : list Match) (venue_count : Z) :
  (venue_count < 0)%Z →
  make_stadiums venue_count = [] ∧
  schedule_matches matches venue_count
  = Ret (match matches with [] => Some [] | _ :: _ => None end).
Proof.
  intros Hvc. split.
  - apply nil_length_inv. rewrite make_stadiums_length. lia.
  - apply schedule_matches_no_stadium. lia.
Qed.

Lemma schedule_matches_negative_witness :
  make_stadiums (-2) = [] ∧
  schedule_matches round_robin (-2)
  = Ret (match round_robin with [] => Some [] | _ :: _ => None end).
Proof. apply (schedule_matches_negative round_robin (-2)). lia. Defined.

(** *** The matches of the days together *)

Lemma day_blocks_bound m l :
  1 ≤ m → Forall (λ b, length b ≤ m) (day_blocks m l).
Proof.
  intros Hm. destruct (decide (l = [])) as [->|Hne].
  { rewrite day_blocks_nil. constructor. }
  destruct (day_blocks_shape m l Hm Hne) as (b & bs & -> & Hb & Hbs).
  constructor.
  - rewrite Hb. pose proof (Nat.mod_upper_bound (length l - 1) m). lia.
  - eapply Forall_impl; [exact Hbs|]. simpl. intros ? ->. done.
Qed.

Lemma day_of_matches (stadiums : list Stadium) (block : list Match) :
  NoDup (id <$> stadiums) → length block ≤ length stadiums →
  day_matches (day_of stadiums block) ≡ₚ block.
Proof.
  intros Hnd Hlen. unfold day_of. apply pair_up_matches.
  - rewrite fmap_take. eapply sublist_NoDup; [done|apply sublist_take].
  - rewrite length_take. lia.
Qed.

Lemma schedule_matches_played (matches : list Match) (venue_count : Z) :
  (1 ≤ venue_count)%Z →
  ∃ days, schedule_matches matches venue_count = Ret (Some days)
          ∧ concat (day_matches <$> days) ≡ₚ matches.
Proof.
  intros Hvc. eexists. split.
  - unfold schedule_matches.
    rewrite schedule_run_exact by (rewrite make_stadiums_length; lia).
    by rewrite make_stadiums_length.
  - rewrite <- (day_blocks_concat (Z.to_nat venue_count) matches) at 2 by lia.
    pose proof (day_blocks_bound (Z.to_nat venue_count) matches ltac:(lia))
      as Hb.
    induction Hb as [|b bs Hb _ IH]; [done|].
    rewrite !fmap_cons. simpl. rewrite IH.
    rewrite day_of_matches; [done|apply make_stadiums_nodup|].
    rewrite make_stadiums_length. done.
Qed.

(** ** More on the network builder *)

(** *** The shape of the tree *)

Lemma grows_perm seen seen' es :
  seen ≡ₚ seen' → grows seen es → grows seen' es.
Proof.
  revert seen seen'. induction es as [|[a b] es IH]; intros seen seen' Hp;
    simpl; [done|].
  intros (Ha & Hb & Hes). split; [by rewrite <- Hp|].
  split; [by rewrite <- Hp|]. eapply IH; [|done]. by constructor.
Qed.

Lemma grows_snoc seen es a b :
  grows seen es → a ∈ seen ++ es.*2 → b ∉ seen ++ es.*2 →
  grows seen (es ++ [(a, b)]).
Proof.
  revert seen. induction es as [|[a0 b0] es IH]; intros seen; simpl.
  - rewrite app_nil_r. auto.
  - intros (Ha0 & Hb0 & Hes) Ha Hb. repeat split; [done|done|].
    apply IH; [done|..].
    + rewrite <- Permutation_middle in Ha. done.
    + rewrite <- Permutation_middle in Hb. done.
Qed.

Lemma grows_source seen es a b :
  grows seen es → (a, b) ∈ es → a ∈ seen ++ es.*2 ∧ a ≠ b.
Proof.
  revert seen. induction es as [|[a0 b0] es IH]; intros seen; simpl.
  - by intros _ ?%elem_of_nil.
  - intros (Ha0 & Hb0 & Hes) [[= -> ->]|Hin]%elem_of_cons.
    + split; [apply elem_of_app; by left|]. by intros ->.
    + destruct (IH _ Hes Hin) as [Ha Hne]. split; [|done].
      by rewrite <- Permutation_middle.
Qed.

Lemma grows_targets seen es :
  grows seen es → NoDup (es.*2) ∧ ∀ v, v ∈ seen → v ∉ es.*2.
Proof.
  revert seen. induction es as [|[a0 b0] es IH]; intros seen; simpl.
  - intros _. split; [constructor|]. by intros ? _ ?%elem_of_nil.
  - intros (Ha0 & Hb0 & Hes). destruct (IH _ Hes) as [Hnd Hfresh]. split.
    + constructor; [|done]. apply Hfresh. by left.
    + intros v Hv [->|Hin]%elem_of_cons; [done|].
      by apply (Hfresh v); [right|].
Qed.

Lemma grows_step stadiums distances s0 st st' :
  stadiums !! 0 = Some s0 →
  started stadiums distances s0 st → grows [s0] (mst st) →
  loop_cond stadiums st = true →
  prim_step stadiums distances st = Ret st' → grows [s0] (mst st').
Proof.
  intros Hs0 Hst Hgrow Hc Hstep.
  pose proof (start_listed stadiums s0 Hs0) as Hl.
  destruct Hst as [->|HI].
  - destruct (Inv_first stadiums distances s0 Hl Hc)
      as (st'' & Hstep' & _ & Hm & _).
    rewrite Hstep in Hstep'. injection Hstep' as <-. by rewrite Hm.
  - unfold loop_cond in Hc.
    apply andb_true_iff in Hc as [Hne%bool_decide_eq_true _].
    destruct (prim_step_cases stadiums distances s0 st HI Hne)
      as (c & a & b & heap' & _ & _ & Ha & Hb & Hw & Hcase).
    destruct Hcase as [[_ Hstep']|(Hvb & _ & heap'' & _ & _ & Hstep')];
      rewrite Hstep in Hstep'; injection Hstep' as ->; simpl; [done|].
    apply grows_snoc; [done|..].
    + apply (visited_covered stadiums distances s0 Hs0 st a HI) in Ha.
      destruct Ha as [->|(w & [Hin|Hin])]; [by left|..].
      * by destruct (grows_source _ _ _ _ Hgrow Hin).
      * right. apply list_elem_of_fmap. by exists (w, a).
    + intros [->%list_elem_of_singleton|Hin]%elem_of_app.
      * rewrite (inv_start _ _ _ st HI) in Hvb. done.
      * apply list_elem_of_fmap in Hin as ([w b'] & -> & Hin). simpl in Hvb.
        destruct (inv_mst _ _ _ st HI _ _ Hin) as (_ & Hvis & _). congruence.
Qed.

Lemma prim_mst_grows (s0 : string) (rest : list string)
    (distances : table) :
  ∃ cost tree, prim_mst (s0 :: rest) distances = Ret (cost, tree) ∧
    cost = total_weight distances tree ∧
    grows [s0] tree ∧
    NoDup (tree.*2) ∧ (s0 ∉ tree.*2) ∧
    (∀ a b, (a, b) ∈ tree → adjacent (s0 :: rest) distances a b ∧ a ≠ b) ∧
    length tree < length (s0 :: rest).
Proof.
  destruct (prim_mst_run s0 rest distances (λ st, grows [s0] (mst st)))
    as (st & Hrun & Hst & Hgrow & Hc); [done| |].
  { intros st st' Hst HJ Hc Hstep.
    by apply (grows_step (s0 :: rest) distances s0 st st'). }
  exists (total_cost st), (mst st). split; [done|].
  destruct (grows_targets _ _ Hgrow) as [Hnd Hfresh].
  assert (s0 ∉ (mst st).*2) as Hs0 by (apply Hfresh; by left).
  destruct Hst as [->|HI].
  { simpl. repeat split; try done; try lia; by apply elem_of_nil in H. }
  split; [apply (inv_cost _ _ _ st HI)|]. repeat (split; [done|]). split.
  - intros a b Hin. destruct (inv_mst _ _ _ st HI _ _ Hin) as (Ha & Hb & Hw).
    split; [|by destruct (grows_source _ _ _ _ Hgrow Hin)].
    repeat split; [| |done]; by eapply visited_listed.
  - pose proof (inv_count _ _ _ st HI) as Hcount.
    pose proof (subseteq_size _ _ (vset_listed (s0 :: rest) distances s0 st HI)).
    pose proof (size_list_to_set_le (s0 :: rest)). lia.
Qed.

(** X7: on every list of vertices that is not empty and every table of
    integer weights, [prim_mst] returns edges that grow a tree from the first vertex: each
    edge is an entry of the table between two different listed vertices,
    starts at the first vertex or at the end of an earlier edge and ends
    at a vertex that no earlier edge touches; so no vertex is the end of
    two edges, there are fewer edges than vertices, and the total cost is
    the sum of their weights (integers, added exactly). *)
Theorem prim_mst_tree (s0 : string) (rest : list string)
    (distances : table) :
  ∃ cost tree, prim_mst (s0 :: rest) distances = Ret (cost, tree) ∧
    cost = total_weight distances tree ∧
    grows [s0] tree ∧
    NoDup (tree.*2) ∧ (s0 ∉ tree.*2) ∧
    (∀ a b, (a, b) ∈ tree → adjacent (s0 :: rest) distances a b ∧ a ≠ b) ∧
    length tree < length (s0 :: rest).
Proof. exact (prim_mst_grows s0 rest distances). Qed.

(** *** Entries that mention other vertices *)

Lemma push_neighbors_agree to vis distances distances' neighbors : ∀ heap,
  (∀ nb, nb ∈ neighbors →
         edge_weight distances' to nb = edge_weight distances to nb) →
  push_neighbors neighbors to vis distances' heap
  = push_neighbors neighbors to vis distances heap.
Proof.
  induction neighbors as [|nb neighbors IH]; intros heap Hext; simpl; [done|].
  assert (∀ nb', nb' ∈ neighbors →
                 edge_weight distances' to nb' = edge_weight distances to nb')
    as Hext' by (intros; apply Hext; by right).
  destruct (vis !! nb) as [[|]|]; [by apply IH| |done].
  pose proof (Hext nb ltac:(by left)) as Hw. unfold edge_weight in Hw.
  destruct (distances' !! (to, nb)) as [w'|], (distances !! (to, nb)) as [w|].
  - injection Hw as ->. by apply IH.
  - rewrite <- Hw. by apply IH.
  - rewrite Hw. by apply IH.
  - rewrite Hw. destruct (distances !! (nb, to)); by apply IH.
Qed.

Lemma prim_step_agree stadiums distances distances' st :
  (∀ a b, is_Some (visited st !! a) → b ∈ stadiums →
          edge_weight distances' a b = edge_weight distances a b) →
  prim_step stadiums distances' st = prim_step stadiums distances st.
Proof.
  intros Hext. unfold prim_step.
  destruct (heappop (min_heap st)) as [[[[c a] b] heap']| |]; simpl; try done.
  destruct (visited st !! b) as [[|]|] eqn:Hb; try done.
  rewrite (push_neighbors_agree _ _ distances distances'); [done|].
  intros nb Hnb. apply Hext; [by rewrite Hb|done].
Qed.

Lemma prim_step_dom stadiums distances st st' v :
  prim_step stadiums distances st = Ret st' →
  is_Some (visited st' !! v) → is_Some (visited st !! v).
Proof.
  unfold prim_step.
  destruct (heappop (min_heap st)) as [[[[c a] b] heap']| |]; simpl; try done.
  destruct (visited st !! b) as [[|]|] eqn:Hb; try done.
  - by intros [= <-].
  - destruct (push_neighbors _ _ _ _ _); simpl; try done. intros [= <-]. simpl.
    rewrite lookup_insert_is_Some. intros [<-|[_ ?]]; [by rewrite Hb|done].
Qed.

Lemma prim_loop_agree stadiums distances distances' fuel : ∀ st,
  (∀ a b, is_Some (visited st !! a) → b ∈ stadiums →
          edge_weight distances' a b = edge_weight distances a b) →
  prim_loop fuel stadiums distances' st = prim_loop fuel stadiums distances st.
Proof.
  induction fuel as [|fuel IH]; intros st Hext; simpl; [done|].
  destruct (loop_cond stadiums st); [|done].
  rewrite (prim_step_agree _ distances distances') by done.
  destruct (prim_step stadiums distances st) as [st'| |] eqn:Hstep;
    simpl; try done.
  apply IH. intros a b Ha Hb. apply Hext; [|done].
  by apply (prim_step_dom stadiums distances st st').
Qed.

Lemma prim_mst_agree stadiums distances distances' :
  (∀ a b, a ∈ stadiums → b ∈ stadiums →
          edge_weight distances' a b = edge_weight distances a b) →
  prim_mst stadiums distances' = prim_mst stadiums distances.
Proof.
  intros Hext. unfold prim_mst. destruct (stadiums !! 0) as [s0|]; [|done].
  rewrite (prim_loop_agree _ distances distances'); [done|].
  intros a b Ha Hb. apply Hext; [|done]. simpl in Ha.
  rewrite init_visited_lookup in Ha. case_decide; [done|by destruct Ha].
Qed.

(** X8: entries of the table whose key mentions a vertex that is not in
    the list are never used: without them [prim_mst] returns the same
    result. *)
Theorem prim_mst_listed_entries (stadiums : list string) (distances : table) :
  prim_mst stadiums (listed_entries stadiums distances)
  = prim_mst stadiums distances.
Proof.
  apply prim_mst_agree. intros a b Ha Hb. unfold edge_weight, listed_entries.
  assert (∀ x y, x ∈ stadiums → y ∈ stadiums →
            filter (λ kv : string * string * Z,
                      kv.1.1 ∈ stadiums ∧ kv.1.2 ∈ stadiums) distances
              !! (x, y) = distances !! (x, y)) as Hl.
  { intros x y Hx Hy. destruct (distances !! (x, y)) as [w|] eqn:Hxy.
    - by apply map_lookup_filter_Some_2.
    - apply map_lookup_filter_None_2. by left. }
  by rewrite !Hl.
Qed.

(** *** The printed report *)

Lemma stadium_distances_range :
  map_Forall (λ _ w, (0 ≤ w ≤ 25)%Z) stadium_distances.
Proof. apply (bool_decide_unpack _). vm_compute. exact I. Qed.

Lemma stadium_weight_range e : (0 ≤ weight stadium_distances e ≤ 25)%Z.
Proof.
  unfold weight, edge_weight.
  destruct (stadium_distances !! (e.1, e.2)) as [w|] eqn:H1; simpl.
  { apply (stadium_distances_range _ _ H1). }
  destruct (stadium_distances !! (e.2, e.1)) as [w|] eqn:H2; simpl; [|lia].
  apply (stadium_distances_range _ _ H2).
Qed.

Lemma stadium_total_range es :
  (0 ≤ total_weight stadium_distances es ≤ 25 * Z.of_nat (length es))%Z.
Proof.
  induction es as [|e es IH]; simpl; [lia|].
  pose proof (stadium_weight_range e). lia.
Qed.

Lemma print_lines out lines :
  foldl (λ out e, print out (edge_line e)) out lines
  = out ++ ((λ e, edge_line e +:+ nl) <$> lines).
Proof.
  revert out. induction lines as [|e lines IH]; intros out; simpl.
  - by rewrite app_nil_r.
  - rewrite IH. unfold print, print_end. by rewrite <- app_assoc.
Qed.

(** X9: [build_stadium_network] never prints an error line.  On the empty
    list the [IndexError] of [prim_mst] is not caught by the handler and
    leaves the function; on every other list it prints the heading, the
    total cost (an integer between 0 and 25 for each vertex) and one line
    for each edge of the tree. *)
Theorem build_stadium_network_report :
  (∀ out, build_stadium_network [] out = Raise IndexError) ∧
  (∀ s0 rest out,
     ∃ cost tree,
       prim_mst (s0 :: rest) stadium_distances = Ret (cost, tree) ∧
       (0 ≤ cost ≤ 25 * Z.of_nat (length (s0 :: rest)))%Z ∧
       build_stadium_network (s0 :: rest) out
       = Ret (out
              ++ [(nl +:+ "====== MINIMAL STADIUMS ROADS NETWORK (MST) ====")
                  +:+ nl;
                  ("Total length of roads network : " +:+ format_2f cost
                   +:+ " miles") +:+ nl]
              ++ ((λ e, edge_line e +:+ nl) <$> tree))).
Proof.
  split; [done|]. intros s0 rest out.
  destruct (prim_mst_grows s0 rest stadium_distances)
    as (cost & tree & Hrun & Hcost & _ & _ & _ & _ & Hlen).
  exists cost, tree. split; [done|]. split.
  - rewrite Hcost. pose proof (stadium_total_range tree). lia.
  - unfold build_stadium_network. rewrite Hrun. rewrite print_lines.
    unfold print, print_end. by rewrite <- !app_assoc.
Qed.

(** ** Further properties of the tournament *)

Lemma total_points_alter (n : Z) (store : list team) (i : nat) :
  i < length store →
  total_points (alter (add_points n) i store) = (total_points store + n)%Z.
Proof.
  unfold total_points. revert i.
  induction store as [|t store IH]; intros i Hi; simpl in *; [lia|].
  destruct i as [|i]; simpl.
  - lia.
  - specialize (IH i ltac:(lia)).
    change (points t + foldr Z.add 0 (points <$> alter (add_points n) i store)
            = points t + foldr Z.add 0 (points <$> store) + n)%Z.
    lia.
Qed.

Lemma fmap_alter_same {A B} (f : A → B) (g : A → A) (i : nat) (l : list A) :
  (∀ x, f (g x) = f x) → f <$> alter g i l = f <$> l.
Proof.
  intros Hfg. revert i.
  induction l as [|x l IH]; intros [|i]; simpl; try done.
  - by rewrite Hfg.
  - f_equal. apply IH.
Qed.

Lemma alter_add_points_fields (n : Z) (store : list team) (i : nat) :
  name <$> alter (add_points n) i store = name <$> store
  ∧ level <$> alter (add_points n) i store = level <$> store
  ∧ group <$> alter (add_points n) i store = group <$> store
  ∧ rank <$> alter (add_points n) i store = rank <$> store
  ∧ prize <$> alter (add_points n) i store = prize <$> store.
Proof. repeat split; by apply fmap_alter_same. Qed.

Lemma points_alter_add (n : Z) (tm : ref) (h : list team) (t : ref) :
  points (alter (add_points n) tm h !!! t)
  = (points (h !!! t)
     + if decide (tm = t ∧ (tm < length h)%nat) then n else 0)%Z.
Proof.
  rewrite list_lookup_total_alter. case_decide as Hc; simpl; [|lia].
  destruct Hc as [-> _]. done.
Qed.

(** X10: [determine_winner] gives three points to the side with the
    higher score and nothing to the other, and one point to each side
    of a draw (two to the same team when both sides are the same
    dictionary): three points are handed out for a decided match and
    two for a draw.  No team outside the match and no other field of
    any team changes. *)
Theorem determine_winner_points (scoreA scoreB : Z) (teamA teamB : nat)
    (store : list team) :
  teamA < length store → teamB < length store →
  let store' := determine_winner scoreA scoreB teamA teamB store in
  ((scoreB < scoreA)%Z →
   ∀ i, points (store' !!! i)
        = (points (store !!! i) + if decide (i = teamA) then 3 else 0)%Z)
  ∧ ((scoreA < scoreB)%Z →
     ∀ i, points (store' !!! i)
          = (points (store !!! i) + if decide (i = teamB) then 3 else 0)%Z)
  ∧ (scoreA = scoreB →
     ∀ i, points (store' !!! i)
          = (points (store !!! i)
             + (if decide (i = teamA) then 1 else 0)
             + (if decide (i = teamB) then 1 else 0))%Z)
  ∧ total_points store'
    = (total_points store + if decide (scoreA = scoreB) then 2 else 3)%Z
  ∧ (∀ i, i ≠ teamA → i ≠ teamB → store' !! i = store !! i)
  ∧ name <$> store' = name <$> store
  ∧ level <$> store' = level <$> store
  ∧ group <$> store' = group <$> store
  ∧ rank <$> store' = rank <$> store
  ∧ prize <$> store' = prize <$> store.
Proof.
  intros HA HB store'. subst store'. unfold determine_winner.
  destruct (decide (scoreB < scoreA)%Z) as [H1|H1];
    [|destruct (decide (scoreA < scoreB)%Z) as [H2|H2]].
  - split; [|split; [|split; [|split; [|split]]]]; try (intros; lia).
    + intros _ i. rewrite points_alter_add.
      repeat case_decide; try lia; intuition congruence.
    + rewrite total_points_alter by done. case_decide; lia.
    + intros i Hi _. by rewrite list_lookup_alter_ne.
    + apply alter_add_points_fields.
  - split; [|split; [|split; [|split; [|split]]]]; try (intros; lia).
    + intros _ i. rewrite points_alter_add.
      repeat case_decide; try lia; intuition congruence.
    + rewrite total_points_alter by done. case_decide; lia.
    + intros i _ Hi. by rewrite list_lookup_alter_ne.
    + apply alter_add_points_fields.
  - split; [|split; [|split; [|split; [|split]]]]; try (intros; lia).
    + intros _ i. rewrite !points_alter_add, length_alter.
      repeat case_decide; try lia; intuition congruence.
    + rewrite !total_points_alter by (rewrite ?length_alter; done).
      case_decide; lia.
    + intros i Hi1 Hi2. by rewrite !list_lookup_alter_ne.
    + destruct (alter_add_points_fields 1 (alter (add_points 1) teamA store)
                  teamB) as (-> & -> & -> & -> & ->).
      apply alter_add_points_fields.
Qed.

Lemma determine_winner_points_witness :
  let store := [sample_team "Team 1" 1; sample_team "Team 2" 2] in
  points (determine_winner 3 1 0 1 store !!! 0) = 3%Z
  ∧ points (determine_winner 3 1 0 1 store !!! 1) = 0%Z
  ∧ points (determine_winner 0 2 0 1 store !!! 0) = 0%Z
  ∧ points (determine_winner 0 2 0 1 store !!! 1) = 3%Z
  ∧ points (determine_winner 2 2 0 1 store !!! 0) = 1%Z
  ∧ points (determine_winner 2 2 0 1 store !!! 1) = 1%Z
  ∧ total_points (determine_winner 2 2 0 1 store) = (total_points store + 2)%Z.
Proof.
  intros store.
  destruct (determine_winner_points 3 1 0 1 store) as (Hwin & _);
    [simpl; lia | simpl; lia |].
  destruct (determine_winner_points 0 2 0 1 store) as (_ & Hlose & _);
    [simpl; lia | simpl; lia |].
  destruct (determine_winner_points 2 2 0 1 store) as (_ & _ & Hdraw & Htot & _);
    [simpl; lia | simpl; lia |].
  split; [exact (Hwin ltac:(lia) 0)|].
  split; [exact (Hwin ltac:(lia) 1)|].
  split; [exact (Hlose ltac:(lia) 0)|].
  split; [exact (Hlose ltac:(lia) 1)|].
  split; [exact (Hdraw eq_refl 0)|].
  split; [exact (Hdraw eq_refl 1)|].
  exact Htot.
Defined.

(** *** [create_knockout_matches] *)

Lemma short_dec {A} (q : list (list A)) (i : nat) : Decision (short q i).
Proof. unfold short. apply _. Defined.

Lemma knockout_pairs_run {A} (idxs : list nat) (q : list (list A))
    (matches : list (A * A)) :
  (Exists (short q) idxs ∧ knockout_pairs idxs q matches = Raise IndexError)
  ∨ (Forall (λ i, ¬ short q i) idxs
     ∧ knockout_pairs idxs q matches = Ret (matches ++ flat_map (cross q) idxs)).
Proof.
  revert matches. induction idxs as [|i idxs IH]; intros matches.
  - right. split; [constructor|]. simpl. by rewrite app_nil_r.
  - simpl. unfold cross at 1.
    case_decide as Hi.
    + destruct (lookup_lt_is_Some_2 q i ltac:(lia)) as [g1 Hg1].
      destruct (lookup_lt_is_Some_2 q (i + 1) ltac:(lia)) as [g2 Hg2].
      unfold index. rewrite Hg1, Hg2. simpl.
      destruct g1 as [|a1 [|a2 g1]]; destruct g2 as [|b1 [|b2 g2]]; simpl;
        try (left; split; [|done]; apply Exists_cons_hd; split; [done|];
             rewrite Hg1, Hg2; simpl; lia).
      destruct (IH (matches ++ [(a1, b2); (a2, b1)])) as [[He Hr]|[Hf Hr]].
      * left. split; [by apply Exists_cons_tl|done].
      * right. split.
        -- constructor; [|done]. intros [_ Hs]. rewrite Hg1, Hg2 in Hs.
           simpl in Hs. lia.
        -- rewrite Hr. by rewrite <- !app_assoc.
    + destruct (IH matches) as [[He Hr]|[Hf Hr]].
      * left. split; [by apply Exists_cons_tl|done].
      * right. split; [|done].
        constructor; [|done]. intros [Hs _]. lia.
Qed.

From Stdlib Require Import ZifyNat.

Ltac Zify.zify_post_hook ::= Z.to_euclidean_division_equations.

Lemma evens_elem (n i : nat) : i ∈ evens n ↔ ∃ j, i = 2 * j ∧ 2 * j < n.
Proof.
  unfold evens. rewrite list_elem_of_fmap. split.
  - intros (j & -> & Hj). apply elem_of_seq in Hj. exists j. split; [done|]. lia.
  - intros (j & -> & Hj). exists j. split; [done|]. apply elem_of_seq. lia.
Qed.

Lemma evens_split (n : nat) :
  evens n = ((λ j, 2 * j) <$> seq 0 (n / 2))
            ++ (if decide (n `mod` 2 = 1) then [n - 1] else []).
Proof.
  unfold evens. case_decide as Hodd.
  - replace ((n + 1) / 2) with (S (n / 2)) by lia.
    rewrite seq_S, fmap_app. f_equal.
    rewrite fmap_cons, fmap_nil. f_equal. lia.
  - replace ((n + 1) / 2) with (n / 2) by lia. by rewrite app_nil_r.
Qed.

Section Pairs.
Context {A : Type} (q : list (list A)).
Hypothesis Hfull : Forall (λ g, 2 ≤ length g) (paired q).

Lemma paired_lookup (i : nat) (g : list A) :
  paired q !! i = Some g ↔ i < 2 * (length q / 2) ∧ q !! i = Some g.
Proof using Type.
  unfold paired. rewrite lookup_take_Some. tauto.
Qed.

Lemma cross_paired (j : nat) :
  j < length q / 2 →
  ∃ g1 g2 a1 a2 b1 b2,
    q !! (2 * j) = Some g1 ∧ q !! (2 * j + 1) = Some g2
    ∧ g1 !! 0 = Some a1 ∧ g1 !! 1 = Some a2
    ∧ g2 !! 0 = Some b1 ∧ g2 !! 1 = Some b2
    ∧ take 2 g1 = [a1; a2] ∧ take 2 g2 = [b1; b2]
    ∧ cross q (2 * j) = [(a1, b2); (a2, b1)].
Proof using Hfull.
  intros Hj.
  destruct (lookup_lt_is_Some_2 q (2 * j) ltac:(lia)) as [g1 Hg1].
  destruct (lookup_lt_is_Some_2 q (2 * j + 1) ltac:(lia)) as [g2 Hg2].
  assert (H1 : 2 ≤ length g1).
  { apply (Forall_lookup_1 _ _ (2 * j) _ Hfull). apply paired_lookup.
    split; [lia|done]. }
  assert (H2 : 2 ≤ length g2).
  { apply (Forall_lookup_1 _ _ (2 * j + 1) _ Hfull). apply paired_lookup.
    split; [lia|done]. }
  destruct g1 as [|a1 [|a2 g1]]; simpl in H1; try lia.
  destruct g2 as [|b1 [|b2 g2]]; simpl in H2; try lia.
  exists (a1 :: a2 :: g1), (b1 :: b2 :: g2), a1, a2, b1, b2.
  repeat (split; [done|]).
  unfold cross. rewrite decide_True by lia. by rewrite Hg1, Hg2.
Qed.

Lemma crosses_paired (k : nat) :
  k ≤ length q / 2 →
  let ms := flat_map (cross q) ((λ j, 2 * j) <$> seq 0 k) in
  length ms = 2 * k
  ∧ players ms ≡ₚ concat (take 2 <$> take (2 * k) q)
  ∧ ∀ j, j < k → cross q (2 * j) = take 2 (drop (2 * j) ms).
Proof using Hfull.
  induction k as [|k IH]; intros Hk ms; subst ms.
  - simpl. split; [done|]. split; [done|]. intros j Hj. lia.
  - destruct (IH ltac:(lia)) as (IH1 & IH2 & IH3). clear IH.
    rewrite seq_S, fmap_app, flat_map_app.
    replace (flat_map (cross q) ((λ j, 2 * j) <$> [0 + k]))
      with (cross q (2 * k)) by (simpl; by rewrite app_nil_r).
    destruct (cross_paired k ltac:(lia))
      as (g1 & g2 & a1 & a2 & b1 & b2 & Hg1 & Hg2 & _ & _ & _ & _ & Ht1 & Ht2 & Hc).
    split; [|split].
    + rewrite length_app, IH1, Hc. simpl. lia.
    + unfold players in *. rewrite flat_map_app, IH2, Hc.
      replace (2 * S k) with (S (S (2 * k))) by lia.
      rewrite (take_S_r _ (S (2 * k)) g2) by (rewrite <- Hg2; f_equal; lia).
      rewrite (take_S_r _ (2 * k) g1) by done.
      rewrite !fmap_app, !concat_app. simpl. rewrite Ht1, Ht2. simpl.
      rewrite <- app_assoc. apply Permutation_app_head. simpl.
      apply perm_skip. apply (Permutation_cons_append [a2; b1] b2).
    + intros j Hj. destruct (decide (j = k)) as [->|Hne].
      * rewrite drop_app_length' by lia. by rewrite Hc.
      * rewrite drop_app_le by lia. rewrite take_app_le.
        -- apply IH3. lia.
        -- rewrite length_drop. lia.
Qed.

Lemma crosses_evens :
  flat_map (cross q) (evens (length q))
  = flat_map (cross q) ((λ j, 2 * j) <$> seq 0 (length q / 2)).
Proof using Type.
  rewrite evens_split, flat_map_app. case_decide; simpl; [|by rewrite app_nil_r].
  unfold cross. rewrite decide_False by lia. by rewrite app_nil_r.
Qed.

Lemma paired_not_short : Forall (λ i, ¬ short q i) (evens (length q)).
Proof using Hfull.
  apply Forall_forall. intros i Hi [Hlt Hs].
  apply evens_elem in Hi as (j & -> & Hj).
  destruct (cross_paired j ltac:(lia))
    as (g1 & g2 & a1 & a2 & b1 & b2 & Hg1 & Hg2 & _ & H1 & _ & H2 & _).
  rewrite Hg1, Hg2 in Hs. simpl in Hs.
  apply lookup_lt_Some in H1, H2. lia.
Qed.

End Pairs.

Lemma create_knockout_matches_run {A} (qualified : list (list A)) :
  Forall (λ g, 2 ≤ length g) (paired qualified) →
  ∃ matches,
    create_knockout_matches qualified = Ret matches
    ∧ length matches = 2 * (length qualified / 2)
    ∧ players matches ≡ₚ concat (take 2 <$> paired qualified)
    ∧ ∀ j g1 g2,
        qualified !! (2 * j) = Some g1 → qualified !! (2 * j + 1) = Some g2 →
        ∃ a1 a2 b1 b2,
          g1 !! 0 = Some a1 ∧ g1 !! 1 = Some a2
          ∧ g2 !! 0 = Some b1 ∧ g2 !! 1 = Some b2
          ∧ matches !! (2 * j) = Some (a1, b2)
          ∧ matches !! (2 * j + 1) = Some (a2, b1).
Proof.
  intros Hfull. unfold create_knockout_matches.
  destruct (knockout_pairs_run (evens (length qualified)) qualified [])
    as [[He _]|[_ Hr]].
  { apply Exists_exists in He as (i & Hi & Hs).
    pose proof (paired_not_short qualified Hfull) as Hf.
    rewrite Forall_forall in Hf. by destruct (Hf i Hi). }
  rewrite Hr, app_nil_l, crosses_evens.
  destruct (crosses_paired qualified Hfull (length qualified / 2) ltac:(lia))
    as (H1 & H2 & H3).
  eexists. split; [done|]. split; [done|]. split; [done|].
  intros j g1 g2 Hg1 Hg2.
  assert (Hj : j < length qualified / 2).
  { apply lookup_lt_Some in Hg2. lia. }
  destruct (cross_paired qualified Hfull j Hj)
    as (g1' & g2' & a1 & a2 & b1 & b2 & Hg1' & Hg2' & Ha1 & Ha2 & Hb1 & Hb2 & _ & _ & Hc).
  assert (g1' = g1) as -> by congruence.
  assert (g2' = g2) as -> by congruence.
  exists a1, a2, b1, b2. repeat (split; [done|]).
  specialize (H3 j Hj). rewrite Hc in H3.
  assert (Hl0 : take 2 (drop (2 * j)
      (flat_map (cross qualified) ((λ j, 2 * j) <$> seq 0 (length qualified / 2))))
      !! 0 = Some (a1, b2)) by (by rewrite <- H3).
  assert (Hl1 : take 2 (drop (2 * j)
      (flat_map (cross qualified) ((λ j, 2 * j) <$> seq 0 (length qualified / 2))))
      !! 1 = Some (a2, b1)) by (by rewrite <- H3).
  rewrite lookup_take_Some, lookup_drop in Hl0, Hl1.
  destruct Hl0 as [Hl0 _]. destruct Hl1 as [Hl1 _].
  rewrite Nat.add_0_r in Hl0. done.
Qed.

(** X11: when each of the groups that are paired up has at least two
    qualifiers, [create_knockout_matches] returns two matches for each
    pair of neighbouring groups, the first of one group against the
    second of the other and the second against the first; the players
    are the first two of every paired group, each in one match. *)
Theorem create_knockout_matches_pairs {A} (qualified : list (list A)) :
  Forall (λ g, 2 ≤ length g) (paired qualified) →
  ∃ matches,
    create_knockout_matches qualified = Ret matches
    ∧ length matches = 2 * (length qualified / 2)
    ∧ players matches ≡ₚ concat (take 2 <$> paired qualified)
    ∧ ∀ j g1 g2,
        qualified !! (2 * j) = Some g1 → qualified !! (2 * j + 1) = Some g2 →
        ∃ a1 a2 b1 b2,
          g1 !! 0 = Some a1 ∧ g1 !! 1 = Some a2
          ∧ g2 !! 0 = Some b1 ∧ g2 !! 1 = Some b2
          ∧ matches !! (2 * j) = Some (a1, b2)
          ∧ matches !! (2 * j + 1) = Some (a2, b1).
Proof. exact (create_knockout_matches_run qualified). Qed.

Lemma create_knockout_matches_pairs_witness :
  ∃ matches, create_knockout_matches [[1; 2]; [3; 4]; [5; 6]] = Ret matches
    ∧ length matches = 2.
Proof.
  destruct (create_knockout_matches_pairs [[1; 2]; [3; 4]; [5; 6]])
    as (matches & H1 & H2 & _).
  - repeat constructor.
  - exists matches. split; [exact H1 | exact H2].
Defined.

(** X12: [create_knockout_matches] raises [IndexError] exactly when one
    of the groups that are paired up has fewer than two qualifiers; the
    last group of an odd number is never looked at. *)
Theorem create_knockout_matches_index_error {A} (qualified : list (list A)) :
  create_knockout_matches qualified = Raise IndexError
  ↔ ∃ g, g ∈ paired qualified ∧ length g < 2.
Proof.
  unfold create_knockout_matches.
  destruct (knockout_pairs_run (evens (length qualified)) qualified [])
    as [[He Hr]|[Hf Hr]]; rewrite Hr.
  - split; [intros _|done].
    apply Exists_exists in He as (i & Hi & Hlt & Hs).
    apply evens_elem in Hi as (j & -> & Hj).
    destruct (lookup_lt_is_Some_2 qualified (2 * j) ltac:(lia)) as [g1 Hg1].
    destruct (lookup_lt_is_Some_2 qualified (2 * j + 1) ltac:(lia)) as [g2 Hg2].
    rewrite Hg1, Hg2 in Hs. simpl in Hs.
    destruct Hs as [Hs|Hs]; [exists g1|exists g2]; (split; [|done]);
      apply list_elem_of_lookup; [exists (2 * j)|exists (2 * j + 1)];
      apply paired_lookup; (split; [lia|done]).
  - split; [done|]. intros (g & Hg & Hs). exfalso.
    apply list_elem_of_lookup in Hg as [i Hi].
    apply paired_lookup in Hi as [Hi Hg].
    rewrite Forall_forall in Hf.
    apply (Hf (2 * (i / 2))).
    + apply evens_elem. exists (i / 2). split; [done|]. lia.
    + split; [lia|].
      destruct (decide (i `mod` 2 = 0)) as [He|Ho].
      * left. replace (2 * (i / 2)) with i by lia. by rewrite Hg.
      * right. replace (2 * (i / 2) + 1) with i by lia. by rewrite Hg.
Qed.

(** *** The matches with random scores *)

(** *** Rules for running programs *)

Lemma first_random_laws : @RandomLaws unit first_random.
Proof.
  split.
  - intros a b g Hab. simpl. lia.
  - intros A l g. simpl. destruct l as [|x l]; simpl; [done|]. set_solver.
  - intros A l g. done.
Qed.

Lemma plain_host_laws : @HostLaws plain_host.
Proof. split. intros d. done. Qed.

Section Rules.
Context {rng : Type} `{HL : RandomLaws rng}.

Lemma runs_ret {A} (a : A) (w : world rng) Q : Q a w → runs (mret a) w Q.
Proof using Type. intros HQ. by exists a, w. Qed.

Lemma runs_bind {A B} (m : M rng A) (f : A → M rng B) (w : world rng) Q :
  runs m w (λ a w1, runs (f a) w1 Q) → runs (m ≫= f) w Q.
Proof using Type.
  intros (a & w1 & Hm & b & w2 & Hf & HQ).
  exists b, w2. split; [|done]. unfold mbind, M_bind. by rewrite Hm.
Qed.

Lemma runs_mono {A} (m : M rng A) (w : world rng) (Q Q' : A → world rng → Prop) :
  runs m w Q → (∀ a w', Q a w' → Q' a w') → runs m w Q'.
Proof using Type.
  intros (a & w' & Hm & HQ) Himp. exists a, w'. split; [done|]. by apply Himp.
Qed.

Lemma runs_say (text : string) (w : world rng) Q :
  Q tt (mkWorld (gen w) (out w ++ [text +:+ nl]) (heap w)) → runs (say text) w Q.
Proof using Type. intros HQ. by eexists _, _. Qed.

Lemma runs_say_end (text ending : string) (w : world rng) Q :
  Q tt (mkWorld (gen w) (out w ++ [text +:+ ending]) (heap w)) →
  runs (say_end text ending) w Q.
Proof using Type. intros HQ. by eexists _, _. Qed.

Lemma runs_rand_int (a b : Z) (w : world rng) Q :
  (a ≤ b)%Z →
  (∀ z g, (a ≤ z ≤ b)%Z → Q z (mkWorld g (out w) (heap w))) →
  runs (rand_int a b) w Q.
Proof using HL.
  intros Hab HQ. eexists _, _. split; [done|]. apply HQ.
  by apply randint_range.
Qed.

Lemma runs_rand_choice {A} (l : list A) (w : world rng) Q :
  l ≠ [] →
  (∀ x g, x ∈ l → Q x (mkWorld g (out w) (heap w))) →
  runs (rand_choice l) w Q.
Proof using HL.
  intros Hl HQ. unfold runs, rand_choice. simpl.
  pose proof (choice_elem _ l (gen w)) as Hc.
  destruct ((choice l (gen w)).1) as [x|]; [|done].
  eexists _, _. split; [done|]. by apply HQ.
Qed.

Lemma runs_rand_shuffle {A} (l : list A) (w : world rng) Q :
  (∀ l' g, l' ≡ₚ l → Q l' (mkWorld g (out w) (heap w))) →
  runs (rand_shuffle l) w Q.
Proof using HL.
  intros HQ. eexists _, _. split; [done|]. apply HQ. apply shuffle_perm.
Qed.

Lemma runs_item {A} (l : list A) (i : nat) (x : A) (w : world rng) Q :
  l !! i = Some x → Q x w → runs (item l i) w Q.
Proof using Type. intros Hx HQ. unfold item. rewrite Hx. by apply runs_ret. Qed.

Lemma runs_py_item {A} (l : list A) (i : nat) (x : A) (w : world rng) Q :
  l !! i = Some x → Q x w → runs (py_item l (Z.of_nat i)) w Q.
Proof using Type.
  intros Hx HQ. unfold py_item. rewrite decide_True by lia.
  rewrite Nat2Z.id. by eapply runs_item.
Qed.

Lemma runs_lift {A} (r : res A) (a : A) (w : world rng) Q :
  r = Ret a → Q a w → runs (lift r) w Q.
Proof using Type. intros -> HQ. by exists a, w. Qed.

Lemma runs_deref (tm : ref) (w : world rng) Q :
  Q (heap w !!! tm) w → runs (deref tm) w Q.
Proof using Type. intros HQ. by eexists _, _. Qed.

Lemma runs_get_heap (w : world rng) Q :
  Q (heap w) w → runs get_heap w Q.
Proof using Type. intros HQ. by eexists _, _. Qed.

Lemma runs_update (tm : ref) (f : team → team) (w : world rng) Q :
  Q tt (mkWorld (gen w) (out w) (alter f tm (heap w))) → runs (update tm f) w Q.
Proof using Type. intros HQ. by eexists _, _. Qed.

Lemma runs_alloc (t : team) (w : world rng) Q :
  Q (length (heap w)) (mkWorld (gen w) (out w) (heap w ++ [t])) →
  runs (alloc t) w Q.
Proof using Type. intros HQ. by eexists _, _. Qed.

Lemma runs_award_points (scoreA scoreB : Z) (teamA teamB : ref)
    (w : world rng) Q :
  Q tt (mkWorld (gen w) (out w)
          (determine_winner scoreA scoreB teamA teamB (heap w))) →
  runs (award_points scoreA scoreB teamA teamB) w Q.
Proof using Type. intros HQ. by eexists _, _. Qed.

Lemma fails_bind_l {A B} (m : M rng A) (f : A → M rng B) (w : world rng) e :
  fails m w e → fails (m ≫= f) w e.
Proof using Type. unfold fails, mbind, M_bind. by intros ->. Qed.

Lemma fails_bind_r {A B} (m : M rng A) (f : A → M rng B) (w : world rng) e :
  runs m w (λ a w1, fails (f a) w1 e) → fails (m ≫= f) w e.
Proof using Type.
  intros (a & w1 & Hm & Hf). unfold fails, mbind, M_bind. by rewrite Hm.
Qed.

Lemma runs_not_fails {A} (m : M rng A) (w : world rng) Q e :
  runs m w Q → ¬ fails m w e.
Proof using Type. intros (a & w' & Hm & _) Hf. unfold fails in Hf. congruence. Qed.

End Rules.

Ltac run1 :=
  lazymatch goal with
  | |- runs (mbind _ _) _ _ => apply runs_bind
  | |- runs (mret _) _ _ => apply runs_ret
  | |- runs (say _) _ _ => apply runs_say
  | |- runs (say_end _ _) _ _ => apply runs_say_end
  | |- runs (deref _) _ _ => apply runs_deref
  | |- runs get_heap _ _ => apply runs_get_heap
  | |- runs (update _ _) _ _ => apply runs_update
  | |- runs (alloc _) _ _ => apply runs_alloc
  | |- runs (award_points _ _ _ _) _ _ => apply runs_award_points
  | |- runs (rand_int _ _) _ _ =>
      apply runs_rand_int;
      [lia | let H := fresh "Hrange" in intros ? ? H]
  | |- runs (rand_shuffle _) _ _ =>
      apply runs_rand_shuffle; let H := fresh "Hperm" in intros ? ? H
  end.

Ltac run := repeat run1; cbn beta.

(** *** The matches with random scores *)

Section Knock.
Context {rng : Type} `{HL : RandomLaws rng}.

Lemma runs_simulate_match (teamA teamB : ref) (w : world rng) Q :
  (∀ sA sB g, Q (sA, sB) (mkWorld g (out w) (heap w))) →
  runs (simulate_match teamA teamB) w Q.
Proof using HL. intros HQ. unfold simulate_match. run. apply HQ. Qed.

Lemma run_matches_loop_runs (matches : list (ref * ref)) (winners : list ref)
    (w : world rng) :
  runs (run_matches_loop matches winners) w
    (λ r w', ∃ ws lines,
       r = winners ++ ws
       ∧ Forall2 (λ win m, win = m.1 ∨ win = m.2) ws matches
       ∧ heap w' = heap w
       ∧ out w' = out w ++ lines
       ∧ length lines = 2 * length matches).
Proof using HL.
  revert winners w. induction matches as [|[a b] matches IH]; intros winners w.
  - simpl. apply runs_ret. exists [], []. by rewrite !app_nil_r.
  - simpl. apply runs_bind, runs_simulate_match. intros sA sB g. run. simpl.
    assert (Hstep : ∀ x l1 l2 g',
              x = a ∨ x = b →
              runs (run_matches_loop matches (winners ++ [x]))
                (mkWorld g' ((out w ++ [l1]) ++ [l2]) (heap w))
                (λ r w', ∃ ws lines,
                   r = winners ++ ws
                   ∧ Forall2 (λ win m, win = m.1 ∨ win = m.2) ws
                       ((a, b) :: matches)
                   ∧ heap w' = heap w
                   ∧ out w' = out w ++ lines
                   ∧ length lines = 2 * length ((a, b) :: matches))).
    { intros x l1 l2 g' Hx. eapply runs_mono; [apply IH|].
      intros r w' (ws & lines & -> & Hws & Hh & Ho & Hl). simpl in *.
      exists (x :: ws), ([l1; l2] ++ lines).
      rewrite <- !app_assoc in *. simpl. split; [done|].
      split; [by constructor|]. split; [done|]. split; [done|].
      simpl. lia. }
    case_decide; [|case_decide].
    + run. apply Hstep. by left.
    + run. apply Hstep. by right.
    + apply runs_bind, runs_rand_choice; [done|]. intros x g' Hx. run.
      apply Hstep. set_solver.
Qed.

Lemma run_matches_run (matches : list (ref * ref)) (stage_name : string)
    (w : world rng) :
  ∃ winners w',
    run_matches matches stage_name w = Ret (winners, w')
    ∧ Forall2 (λ win m, win = m.1 ∨ win = m.2) winners matches
    ∧ heap w' = heap w
    ∧ ∃ lines,
        out w' = out w
                 ++ ((nl +:+ "==== " +:+ stage_name +:+ " KNOCKOUT MATCHES ====")
                       +:+ nl) :: lines
        ∧ length lines = 2 * length matches.
Proof using HL.
  assert (Hr : runs (run_matches matches stage_name) w
            (λ r w', ∃ ws lines,
               r = [] ++ ws
               ∧ Forall2 (λ win m, win = m.1 ∨ win = m.2) ws matches
               ∧ heap w' = heap w
               ∧ out w' = (out w
                   ++ [(nl +:+ "==== " +:+ stage_name +:+ " KNOCKOUT MATCHES ====")
                         +:+ nl]) ++ lines
               ∧ length lines = 2 * length matches)).
  { unfold run_matches. run. apply run_matches_loop_runs. }
  destruct Hr as (r & w' & Hrun & ws & lines & -> & Hws & Hh & Ho & Hl).
  exists ws, w'. split; [done|]. split; [done|]. split; [done|].
  exists lines. rewrite <- app_assoc in Ho. done.
Qed.

End Knock.

(** X13: [run_matches] always returns; it names one winner for each
    match, in the order of the matches, and every winner is one of the
    two teams of its match.  It changes no team and prints the heading
    and two pieces for each match. *)
Theorem run_matches_winners {rng : Type} `{HL : RandomLaws rng}
    (matches : list (ref * ref)) (stage_name : string) (w : world rng) :
  ∃ winners w',
    run_matches matches stage_name w = Ret (winners, w')
    ∧ Forall2 (λ win m, win = m.1 ∨ win = m.2) winners matches
    ∧ heap w' = heap w
    ∧ ∃ lines,
        out w' = out w
                 ++ ((nl +:+ "==== " +:+ stage_name +:+ " KNOCKOUT MATCHES ====")
                       +:+ nl) :: lines
        ∧ length lines = 2 * length matches.
Proof. exact (run_matches_run matches stage_name w). Qed.

Lemma run_matches_winners_witness :
  ∃ winners w',
    @run_matches unit first_random [(0, 1)] "STAGE 2"
      (mkWorld tt [] sample_heap) = Ret (winners, w')
    ∧ length winners = 1.
Proof.
  destruct (@run_matches_winners unit first_random first_random_laws
              [(0, 1)] "STAGE 2" (mkWorld tt [] sample_heap))
    as (winners & w' & Hr & Hw & _).
  exists winners, w'. split; [exact Hr|].
  apply Forall2_length in Hw. exact Hw.
Defined.

(** *** The final knockout *)

Lemma evens_in_range (n : nat) :
  n `mod` 2 = 0 → Forall (λ i, i + 1 < n) (evens n).
Proof.
  intros Hn. apply Forall_forall. intros i Hi.
  apply evens_elem in Hi as (j & -> & Hj). lia.
Qed.

Lemma evens_length (n : nat) : length (evens n) = (n + 1) / 2.
Proof. unfold evens. by rewrite length_fmap, length_seq. Qed.

Section Final.
Context {rng : Type} `{HL : RandomLaws rng}.

Lemma play_pairs_runs (idxs : list nat) (current winners : list ref)
    (w : world rng) :
  Forall (λ i, i + 1 < length current) idxs →
  runs (play_pairs idxs current winners) w
    (λ r w', ∃ ws,
       r = winners ++ ws ∧ length ws = length idxs ∧ ws ⊆ current
       ∧ heap w' = heap w).
Proof using HL.
  revert winners w. induction idxs as [|i idxs IH]; intros winners w Hin.
  - simpl. apply runs_ret. exists []. rewrite app_nil_r.
    split; [done|]. split; [done|]. split; [set_solver|done].
  - apply Forall_cons in Hin as [Hi Hin].
    destruct (lookup_lt_is_Some_2 current i ltac:(lia)) as [a Ha].
    destruct (lookup_lt_is_Some_2 current (i + 1) ltac:(lia)) as [b Hb].
    simpl. apply runs_bind. eapply runs_item; [done|].
    apply runs_bind. eapply runs_item; [done|].
    apply runs_bind, runs_simulate_match. intros sA sB g. run. simpl.
    assert (Hstep : ∀ x o g',
              x = a ∨ x = b →
              runs (play_pairs idxs current (winners ++ [x]))
                (mkWorld g' o (heap w))
                (λ r w', ∃ ws,
                   r = winners ++ ws ∧ length ws = length (i :: idxs)
                   ∧ ws ⊆ current ∧ heap w' = heap w)).
    { intros x o g' Hx. eapply runs_mono; [by apply IH|].
      intros r w' (ws & -> & Hlen & Hsub & Hh). simpl in *.
      exists (x :: ws). rewrite <- app_assoc. simpl.
      split; [done|]. split; [by rewrite Hlen|]. split; [|done].
      assert (x ∈ current).
      { destruct Hx as [->| ->]; by eapply list_elem_of_lookup_2. }
      set_solver. }
    case_decide; [|case_decide].
    + run. apply Hstep. by left.
    + run. apply Hstep. by right.
    + apply runs_bind, runs_rand_choice; [done|]. intros x g' Hx. run.
      apply Hstep. set_solver.
Qed.

Lemma play_round_runs (current : list ref) (w : world rng) :
  1 < length current →
  runs (play_round current) w
    (λ new w', length new = (length current + 1) / 2 ∧ new ⊆ current
               ∧ heap w' = heap w).
Proof using HL.
  intros Hmany. unfold play_round.
  remember ((length current + 1) / 2) as half eqn:Hhalf.
  run.
  destruct (decide (length current `mod` 2 = 1)) as [Hodd|Heven].
  - unfold pop_last.
    destruct (last current) as [bye|] eqn:Hlast.
    2:{ apply last_None in Hlast. subst. simpl in Hmany. lia. }
    run. simpl.
    eapply runs_mono.
    { apply play_pairs_runs. apply evens_in_range. rewrite length_take. lia. }
    intros r w' (ws & -> & Hlen & Hsub & Hh). run. simpl in Hperm.
    split; [|split; [|done]].
    + rewrite Hperm, length_app, Hlen, evens_length, length_take. simpl length. lia.
    + intros x Hx. rewrite Hperm in Hx. apply elem_of_app in Hx as [Hx|Hx].
      * apply Hsub in Hx. by apply (subseteq_take (length current - 1)).
      * apply list_elem_of_singleton in Hx as ->.
        rewrite last_lookup in Hlast. by eapply list_elem_of_lookup_2.
  - run. simpl.
    eapply runs_mono.
    { apply play_pairs_runs. apply evens_in_range. lia. }
    intros r w' (ws & -> & Hlen & Hsub & Hh). run. simpl in Hperm.
    split; [|split; [|done]].
    + rewrite Hperm, length_app, Hlen, evens_length. simpl length. lia.
    + intros x Hx. rewrite Hperm, app_nil_r in Hx. by apply Hsub.
Qed.

Lemma knockout_loop_runs (fuel : nat) (current : list ref) (w : world rng) :
  current ≠ [] → length current ≤ S fuel →
  runs (knockout_loop fuel current) w
    (λ champion w', champion ∈ current ∧ heap w' = heap w).
Proof using HL.
  revert current w. induction fuel as [|fuel IH]; intros current w Hne Hlen.
  - simpl. rewrite decide_False by lia.
    destruct current as [|c current]; [done|].
    eapply runs_item; [done|]. split; [set_solver|done].
  - simpl. case_decide as Hmany.
    2:{ destruct current as [|c current]; [done|].
        eapply runs_item; [done|]. split; [set_solver|done]. }
    apply runs_bind. eapply runs_mono; [by apply play_round_runs|].
    intros new w1 (Hn & Hsub & Hh). simpl.
    eapply runs_mono; [apply IH|].
    + intros Hnil. apply (f_equal length) in Hnil. simpl in Hnil. lia.
    + lia.
    + intros c w' [Hc Hh']. split; [by apply Hsub|congruence].
Qed.

Lemma run_final_knockout_runs (teams : list ref) (w : world rng) :
  teams ≠ [] →
  runs (run_final_knockout teams) w
    (λ champion w', champion ∈ teams ∧ heap w' = heap w).
Proof using HL.
  intros Hne. unfold run_final_knockout. run.
  eapply runs_mono; [apply knockout_loop_runs|].
  - intros Hnil. rewrite Hnil in Hperm. symmetry in Hperm.
    by apply Permutation_nil_r in Hperm.
  - rewrite Hperm. lia.
  - intros c w' [Hc Hh]. split; [by rewrite <- Hperm|done].
Qed.

Lemma run_final_knockout_nil (w : world rng) :
  run_final_knockout [] w = Raise IndexError.
Proof using HL.
  apply fails_bind_r. run. apply Permutation_nil_r in Hperm. by subst.
Qed.

End Final.

(** X14: [run_final_knockout] on a list that is not empty always ends
    and returns a champion, one of the teams of the list, and changes no
    team: the rounds allowed, as many as there are teams, are enough. *)
Theorem run_final_knockout_champion {rng : Type} `{HL : RandomLaws rng}
    (teams : list ref) (w : world rng) :
  teams ≠ [] →
  ∃ champion w',
    run_final_knockout teams w = Ret (champion, w')
    ∧ champion ∈ teams ∧ heap w' = heap w.
Proof. exact (run_final_knockout_runs teams w). Qed.

Lemma run_final_knockout_champion_witness :
  ∃ champion w',
    @run_final_knockout unit first_random [0; 1; 2]
      (mkWorld tt [] sample_heap) = Ret (champion, w').
Proof.
  destruct (@run_final_knockout_champion unit first_random first_random_laws
              [0; 1; 2] (mkWorld tt [] sample_heap))
    as (champion & w' & Hr & _).
  - discriminate.
  - exists champion, w'. exact Hr.
Defined.

(** X15: [run_final_knockout] on an empty list raises [IndexError], at
    [current[0]]. *)
Theorem run_final_knockout_empty {rng : Type} `{HL : RandomLaws rng}
    (w : world rng) :
  run_final_knockout [] w = Raise IndexError.
Proof. exact (run_final_knockout_nil w). Qed.

Lemma run_final_knockout_empty_witness :
  @run_final_knockout unit first_random [] (mkWorld tt [] [])
  = Raise IndexError.
Proof.
  exact (@run_final_knockout_empty unit first_random first_random_laws
           (mkWorld tt [] [])).
Defined.

(** *** From the group stage to the champion *)

Lemma players_winners {A} (ws : list A) (matches : list (A * A)) :
  Forall2 (λ win m, win = m.1 ∨ win = m.2) ws matches → ws ⊆ players matches.
Proof.
  induction 1 as [|x [a b] ws matches Hx _ IH]; [set_solver|].
  unfold players in *. simpl in *. set_solver.
Qed.

Section Stages.
Context {rng : Type} `{HL : RandomLaws rng}.

Lemma knockout_stages_runs (self : Tournament) (w : world rng) :
  (length (final_standings_per_group self) = 1
   ∧ final_standings_per_group self ≠ [[]])
  ∨ (length (final_standings_per_group self) ≠ 1
     ∧ 2 ≤ length (qualified_for_stage2 self)
     ∧ Forall (λ g, 2 ≤ length g) (paired (qualified_for_stage2 self))) →
  runs (knockout_stages self) w
    (λ champion w',
       champion ∈ entrants self
       ∧ heap w' = heap w
       ∧ last (out w') = Some (champion_line (heap w !!! champion))).
Proof using HL.
  intros Hcase. unfold knockout_stages, entrants.
  assert (Hfin : ∀ (ts : list ref) (w1 : world rng),
            ts ≠ [] → heap w1 = heap w →
            runs (run_final_knockout ts
                  ≫= λ champion,
                       deref champion
                       ≫= λ t,
                            say (nl +:+ "* CHAMPION: " +:+ name t +:+ " ***")
                            ≫= λ _, mret champion) w1
              (λ champion w',
                 champion ∈ ts ∧ heap w' = heap w
                 ∧ last (out w') = Some (champion_line (heap w !!! champion)))).
  { intros ts w1 Hts Hw1. apply runs_bind.
    eapply runs_mono; [by apply run_final_knockout_runs|].
    intros c w2 [Hc Hh]. run. simpl.
    split; [done|]. split; [congruence|].
    rewrite last_snoc. unfold champion_line. by rewrite Hh, Hw1. }
  apply runs_bind.
  destruct Hcase as [[Hone Hne]|(Hmore & Hlen & Hfull)].
  - rewrite !decide_True by done.
    destruct (final_standings_per_group self) as [|g [|??]]; try done.
    apply runs_bind. eapply runs_item; [done|]. apply runs_ret.
    apply Hfin; [|done]. destruct g; [done|discriminate].
  - rewrite !decide_False by done.
    destruct (create_knockout_matches_run _ Hfull)
      as (matches & Hm & Hml & Hmp & _).
    apply runs_bind. eapply runs_lift; [done|].
    destruct (run_matches_run matches "STAGE 2" w)
      as (ws & w1 & Hr & Hws & Hh & _).
    exists ws, w1. split; [done|].
    eapply runs_mono; [apply Hfin; [|done]|].
    + intros ->. apply Forall2_length in Hws. simpl in Hws. lia.
    + intros c w' (Hc & Hh' & Hl). split; [|done].
      rewrite <- Hmp. by apply (players_winners ws).
Qed.

Lemma knockout_stages_short (self : Tournament) (w : world rng) :
  length (final_standings_per_group self) ≠ 1 →
  length (qualified_for_stage2 self) < 2 →
  knockout_stages self w = Raise IndexError.
Proof using HL.
  intros Hmore Hlen. unfold knockout_stages.
  rewrite decide_False by done.
  assert (Hm : create_knockout_matches (qualified_for_stage2 self) = Ret []).
  { unfold create_knockout_matches.
    destruct (qualified_for_stage2 self) as [|g [|??]]; simpl in *;
      [done|done|lia]. }
  apply fails_bind_r. apply runs_bind. eapply runs_lift; [done|].
  unfold run_matches. run. simpl. run.
  apply fails_bind_l. apply run_final_knockout_nil.
Qed.

End Stages.

(** X16: after a group stage with one group that is not empty, or with
    at least two groups of which each paired one has two qualifiers, the
    rest of [run_tournament] always ends: it finds a champion, who is
    one of the first two of the only group or of a paired group, and the
    last thing it prints is the line with the champion's name.  No team
    is changed. *)
Theorem knockout_stages_champion {rng : Type} `{HL : RandomLaws rng}
    (self : Tournament) (w : world rng) :
  (length (final_standings_per_group self) = 1
   ∧ final_standings_per_group self ≠ [[]])
  ∨ (length (final_standings_per_group self) ≠ 1
     ∧ 2 ≤ length (qualified_for_stage2 self)
     ∧ Forall (λ g, 2 ≤ length g) (paired (qualified_for_stage2 self))) →
  ∃ champion w',
    knockout_stages self w = Ret (champion, w')
    ∧ champion ∈ entrants self
    ∧ heap w' = heap w
    ∧ last (out w') = Some (champion_line (heap w !!! champion)).
Proof. exact (knockout_stages_runs self w). Qed.

Lemma knockout_stages_champion_witness :
  ∃ champion w',
    @knockout_stages unit first_random sample_tournament
      (mkWorld tt [] sample_heap) = Ret (champion, w')
    ∧ champion ∈ entrants sample_tournament.
Proof.
  destruct (@knockout_stages_champion unit first_random first_random_laws
              sample_tournament (mkWorld tt [] sample_heap))
    as (champion & w' & Hr & Hc & _).
  - right. split; [simpl; lia|]. split; [simpl; lia|].
    repeat constructor.
  - exists champion, w'. split; [exact Hr | exact Hc].
Defined.

(** X17: when the group stage leaves a number of groups other than one
    and fewer than two lists of qualifiers, the rest of [run_tournament]
    raises [IndexError]: stage 2 has no match and the final knockout no
    team. *)
Theorem knockout_stages_index_error {rng : Type} `{HL : RandomLaws rng}
    (self : Tournament) (w : world rng) :
  length (final_standings_per_group self) ≠ 1 →
  length (qualified_for_stage2 self) < 2 →
  knockout_stages self w = Raise IndexError.
Proof. exact (knockout_stages_short self w). Qed.

Lemma knockout_stages_index_error_witness :
  @knockout_stages unit first_random
    (mkTournament 8 2 0%float [] [] [] ["s1"; "s2"]) (mkWorld tt [] [])
  = Raise IndexError.
Proof.
  apply (@knockout_stages_index_error unit first_random first_random_laws
           (mkTournament 8 2 0%float [] [] [] ["s1"; "s2"]) (mkWorld tt [] [])).
  - simpl. lia.
  - simpl. lia.
Defined.

(** *** The teams of a new tournament *)

Lemma fmap_lookup_seq {A} (d : A) (l : list A) :
  (λ i, default d (l !! (i - 1))) <$> seq 1 (length l) = l.
Proof.
  apply list_eq. intros j. rewrite list_lookup_fmap.
  destruct (decide (j < length l)) as [Hj|Hj].
  - rewrite lookup_seq_lt by done. simpl. rewrite Nat.sub_0_r.
    destruct (lookup_lt_is_Some_2 l j Hj) as [x Hx]. by rewrite Hx.
  - rewrite lookup_seq_ge by lia. simpl. symmetry. apply lookup_ge_None_2. lia.
Qed.

Section Teams.
Context {rng : Type} `{HL : RandomLaws rng}.

Lemma append_teams_ok (idxs : list nat) (levels : list string)
    (teams : list ref) (w : world rng) :
  Forall (λ i, i - 1 < length levels) idxs →
  runs (append_teams idxs levels teams) w
    (λ r w',
       r = teams ++ seq (length (heap w)) (length idxs)
       ∧ heap w'
         = heap w ++ ((λ i, new_team i (default "" (levels !! (i - 1)))) <$> idxs)
       ∧ out w' = out w).
Proof using Type.
  revert teams w. induction idxs as [|i idxs IH]; intros teams w Hin.
  - simpl. apply runs_ret. by rewrite !app_nil_r.
  - apply Forall_cons in Hin as [Hi Hin].
    destruct (lookup_lt_is_Some_2 levels (i - 1) Hi) as [lv Hlv].
    simpl. apply runs_bind. eapply runs_item; [done|]. run.
    eapply runs_mono; [by apply IH|].
    intros r w' (-> & Hh & Ho). simpl in *.
    rewrite Hh, Hlv, length_app, <- !app_assoc. simpl.
    rewrite Nat.add_1_r. done.
Qed.

Lemma append_teams_fail (idxs : list nat) (levels : list string)
    (teams : list ref) (w : world rng) :
  Exists (λ i, length levels ≤ i - 1) idxs →
  append_teams idxs levels teams w = Raise IndexError.
Proof using Type.
  revert teams w. induction idxs as [|i idxs IH]; intros teams w Hex.
  - by apply Exists_nil in Hex.
  - simpl. destruct (levels !! (i - 1)) as [lv|] eqn:Hlv.
    + apply fails_bind_r. eapply runs_item; [done|].
      apply fails_bind_r. run. apply IH.
      apply Exists_cons in Hex as [Hi|Hex]; [|done].
      apply lookup_lt_Some in Hlv. lia.
    + apply fails_bind_l. unfold item. by rewrite Hlv.
Qed.

Lemma create_teams_run (self : Tournament) (w : world rng) :
  let n := Z.to_nat (num_teams self) in
  let quarter := Z.to_nat (num_teams self / 4) in
  let levels := replicate quarter "A" ++ replicate quarter "B"
                ++ replicate quarter "C" ++ replicate quarter "D" in
  (0 < num_teams self ∧ num_teams self `mod` 4 ≠ 0)%Z
  ∧ create_teams self w = Raise IndexError
  ∨ (num_teams self ≤ 0 ∨ num_teams self `mod` 4 = 0)%Z
    ∧ runs (create_teams self) w
        (λ self' w', ∃ shuffled,
           shuffled ≡ₚ levels
           ∧ self' = mkTournament (num_teams self) (num_stadiums self)
                       (user_budget self)
                       (teams self ++ seq (length (heap w)) n)
                       (final_standings_per_group self)
                       (qualified_for_stage2 self) (stadiums self)
           ∧ heap w'
             = heap w
               ++ ((λ i, new_team i (default "" (shuffled !! (i - 1))))
                     <$> seq 1 n)
           ∧ out w' = out w).
Proof using HL.
  intros n quarter levels. unfold create_teams.
  fold quarter. fold levels. fold n.
  destruct (decide (0 < num_teams self ∧ num_teams self `mod` 4 ≠ 0)%Z)
    as [Hbad|Hgood].
  - left. split; [done|].
    apply fails_bind_r. run. apply fails_bind_l, append_teams_fail.
    apply Exists_exists. exists n. split.
    + apply elem_of_seq. unfold n. lia.
    + rewrite Hperm. unfold levels. rewrite !length_app, !length_replicate.
      unfold n, quarter. lia.
  - right. split; [lia|]. run.
    eapply runs_mono.
    { apply append_teams_ok. apply Forall_forall. intros i Hi.
      apply elem_of_seq in Hi.
      rewrite Hperm. unfold levels. rewrite !length_app, !length_replicate.
      unfold n, quarter in *. lia. }
    intros r w' (-> & Hh & Ho). run. exists l'.
    rewrite length_seq in *. done.
Qed.

Lemma create_teams_built (num : pyobj) (ns : Z) (ub : float)
    (self : Tournament) (w : world rng) :
  Tournament_init num ns ub = Built self →
  ∃ n self' w' made,
    num = PyInt (Z.of_nat n) ∧ 4 ≤ n ∧ n `mod` 4 = 0
    ∧ create_teams self w = Ret (self', w')
    ∧ out w' = out w
    ∧ heap w' = heap w ++ made
    ∧ teams self' = seq (length (heap w)) n
    ∧ name <$> made = (λ i, "Team " +:+ pretty i) <$> seq 1 n
    ∧ level <$> made
      ≡ₚ replicate (n / 4) "A" ++ replicate (n / 4) "B"
         ++ replicate (n / 4) "C" ++ replicate (n / 4) "D"
    ∧ Forall (λ t, points t = 0%Z ∧ group t = None ∧ rank t = None
                   ∧ prize t = 0%float) made
    ∧ stadiums self' = (λ i, "s" +:+ pretty (i + 1)) <$> seq 0 (Z.to_nat ns)
    ∧ num_stadiums self' = ns
    ∧ final_standings_per_group self' = [].
Proof using HL.
  unfold Tournament_init. intros Hinit.
  destruct num as [z|]; [|done].
  destruct (decide (z < 4)%Z) as [|Hge]; [done|].
  destruct (decide (z `mod` 4 ≠ 0)%Z) as [|Hmod]; [done|].
  injection Hinit as <-.
  match goal with |- context [create_teams ?s _] => set (self := s) end.
  destruct (create_teams_run self w) as [[Hbad _]|[_ Hrun]].
  { simpl in Hbad. lia. }
  destruct Hrun as (self' & w' & Hr & shuffled & Hp & -> & Hh & Ho).
  simpl in Hp, Hh.
  assert (Hq : Z.to_nat (z / 4) = Z.to_nat z / 4) by lia.
  rewrite Hq in Hp.
  assert (Hlen : length shuffled = Z.to_nat z).
  { rewrite Hp, !length_app, !length_replicate. lia. }
  exists (Z.to_nat z). eexists _, _, _.
  split; [f_equal; lia|]. split; [lia|]. split; [lia|].
  split; [exact Hr|]. split; [done|]. split; [exact Hh|]. simpl.
  split; [done|]. split; [|split; [|split; [|done]]].
  - rewrite <- list_fmap_compose. done.
  - rewrite <- list_fmap_compose. rewrite <- Hp.
    rewrite <- Hlen. by rewrite <- (fmap_lookup_seq "" shuffled) at 2.
  - apply Forall_fmap. by apply Forall_forall.
Qed.

End Teams.

(** X18: on an object that the constructor accepts, [create_teams]
    raises nothing and prints nothing; it makes the teams [Team 1] to
    [Team n], new dictionaries in this order, with a quarter of them at
    each of the levels A, B, C and D, each with no points, no group, no
    rank and no prize, and changes no other team.  The constructor
    leaves the stadiums [s1], [s2], ... and no standings. *)
Theorem create_teams_after_init {rng : Type} `{HL : RandomLaws rng}
    (num : pyobj) (ns : Z) (ub : float) (self : Tournament) (w : world rng) :
  Tournament_init num ns ub = Built self →
  ∃ n self' w' made,
    num = PyInt (Z.of_nat n) ∧ 4 ≤ n ∧ n `mod` 4 = 0
    ∧ create_teams self w = Ret (self', w')
    ∧ out w' = out w
    ∧ heap w' = heap w ++ made
    ∧ teams self' = seq (length (heap w)) n
    ∧ name <$> made = (λ i, "Team " +:+ pretty i) <$> seq 1 n
    ∧ level <$> made
      ≡ₚ replicate (n / 4) "A" ++ replicate (n / 4) "B"
         ++ replicate (n / 4) "C" ++ replicate (n / 4) "D"
    ∧ Forall (λ t, points t = 0%Z ∧ group t = None ∧ rank t = None
                   ∧ prize t = 0%float) made
    ∧ stadiums self' = (λ i, "s" +:+ pretty (i + 1)) <$> seq 0 (Z.to_nat ns)
    ∧ num_stadiums self' = ns
    ∧ final_standings_per_group self' = [].
Proof. exact (create_teams_built num ns ub self w). Qed.

Lemma create_teams_after_init_witness :
  ∃ self self' w',
    Tournament_init (PyInt 8) 2 0%float = Built self
    ∧ @create_teams unit first_random self (mkWorld tt [] []) = Ret (self', w')
    ∧ length (teams self') = 8.
Proof.
  destruct (@create_teams_after_init unit first_random first_random_laws
              (PyInt 8) 2 0%float
              (mkTournament 8 2 0%float [] [] [] ["s1"; "s2"])
              (mkWorld tt [] []))
    as (n & self' & w' & made & Hn & _ & _ & Hr & _ & _ & Hteams & _).
  - vm_compute. reflexivity.
  - exists (mkTournament 8 2 0%float [] [] [] ["s1"; "s2"]), self', w'.
    split; [vm_compute; reflexivity|]. split; [exact Hr|].
    injection Hn as Hn. rewrite Hteams, length_seq. lia.
Defined.

(** X19: [create_teams] raises [IndexError] exactly when the number of
    teams of the object is positive and no multiple of four: the list of
    levels is then shorter than the number of teams. *)
Theorem create_teams_index_error {rng : Type} `{HL : RandomLaws rng}
    (self : Tournament) (w : world rng) :
  create_teams self w = Raise IndexError
  ↔ (0 < num_teams self ∧ num_teams self `mod` 4 ≠ 0)%Z.
Proof.
  destruct (create_teams_run self w) as [[Hbad Hr]|[Hgood Hr]].
  - by rewrite Hr.
  - destruct Hr as (self' & w' & -> & _). split; [done|lia].
Qed.

Lemma create_teams_index_error_witness :
  @create_teams unit first_random
    (mkTournament 6 2 0%float [] [] [] ["s1"; "s2"]) (mkWorld tt [] [])
  = Raise IndexError.
Proof.
  apply (@create_teams_index_error unit first_random first_random_laws
           (mkTournament 6 2 0%float [] [] [] ["s1"; "s2"]) (mkWorld tt [] [])).
  simpl. lia.
Defined.

(** ** Further properties of the group stage *)

Lemma insert_sorted_perm {A K} (ltb : K → K → bool) (key : A → K) (x : A)
    (l : list A) :
  insert_sorted ltb key x l ≡ₚ x :: l.
Proof.
  induction l as [|y l IH]; simpl; [done|].
  destruct (ltb (key y) (key x)); [|done].
  rewrite IH. apply perm_swap.
Qed.

Lemma sorted_perm {A K} (ltb : K → K → bool) (key : A → K) (l : list A) :
  sorted ltb key l ≡ₚ l.
Proof.
  unfold sorted. induction l as [|x l IH]; simpl; [done|].
  by rewrite insert_sorted_perm, IH.
Qed.

Lemma form_groups_run (fuel : nat) (la lb lc ld : list ref)
    (groups : list (list ref)) :
  length la ≤ fuel →
  form_groups fuel la lb lc ld groups
  = Ret (groups ++ zip4 (reverse la) (reverse lb) (reverse lc) (reverse ld)).
Proof.
  revert la lb lc ld groups.
  induction fuel as [|fuel IH]; intros la lb lc ld groups Hlen.
  - destruct la; [|simpl in Hlen; lia]. simpl. by rewrite app_nil_r.
  - destruct la as [|a la _] using rev_ind.
    { simpl. by rewrite app_nil_r. }
    destruct lb as [|b lb _] using rev_ind.
    { simpl. rewrite last_snoc, reverse_snoc. simpl. by rewrite app_nil_r. }
    destruct lc as [|c lc _] using rev_ind.
    { simpl. rewrite !last_snoc, !reverse_snoc. simpl. by rewrite app_nil_r. }
    destruct ld as [|d ld _] using rev_ind.
    { simpl. rewrite !last_snoc, !reverse_snoc. simpl. by rewrite app_nil_r. }
    simpl. rewrite !last_snoc, !removelast_last, !reverse_snoc. simpl.
    rewrite IH by (rewrite length_app in Hlen; simpl in Hlen; lia).
    by rewrite <- app_assoc.
Qed.

Lemma zip4_length {A} (la lb lc ld : list A) :
  length (zip4 la lb lc ld)
  = ((length la `min` length lb) `min` length lc) `min` length ld.
Proof.
  revert lb lc ld. induction la as [|a la IH]; intros [|b lb] [|c lc] [|d ld];
    simpl; try lia.
  rewrite IH. lia.
Qed.

Lemma zip4_four {A} (la lb lc ld : list A) :
  Forall (λ g, length g = 4) (zip4 la lb lc ld).
Proof.
  revert lb lc ld. induction la as [|a la IH]; intros [|b lb] [|c lc] [|d ld];
    simpl; try constructor; [done|apply IH].
Qed.

Lemma steady_refl (h : list team) : steady h h.
Proof. done. Qed.

Lemma steady_trans (h1 h2 h3 : list team) :
  steady h1 h2 → steady h2 h3 → steady h1 h3.
Proof. intros [H1 H2] [H3 H4]. split; congruence. Qed.

Lemma steady_alter (f : team → team) (tm : ref) (h : list team) :
  (∀ t, name (f t) = name t) → (∀ t, level (f t) = level t) →
  steady h (alter f tm h).
Proof. intros Hn Hl. split; by apply fmap_alter_same. Qed.

Lemma steady_determine_winner (scoreA scoreB : Z) (teamA teamB : ref)
    (h : list team) :
  steady h (determine_winner scoreA scoreB teamA teamB h).
Proof.
  unfold determine_winner.
  repeat case_decide;
    repeat (eapply steady_trans; [|by apply steady_alter]); apply steady_refl.
Qed.

Lemma steady_length (h h' : list team) : steady h h' → length h' = length h.
Proof.
  intros [Hn _]. apply (f_equal length) in Hn. by rewrite !length_fmap in Hn.
Qed.

Lemma steady_level (h h' : list team) (t : ref) :
  steady h h' → level (h' !!! t) = level (h !!! t).
Proof.
  intros [_ Hl].
  rewrite !list_lookup_total_alt.
  assert (Hlk : (level <$> h') !! t = (level <$> h) !! t) by (by rewrite Hl).
  rewrite !list_lookup_fmap in Hlk.
  destruct (h' !! t), (h !! t); simpl in *; congruence.
Qed.

Lemma steady_name (h h' : list team) (t : ref) :
  steady h h' → name (h' !!! t) = name (h !!! t).
Proof.
  intros [Hn _].
  rewrite !list_lookup_total_alt.
  assert (Hlk : (name <$> h') !! t = (name <$> h) !! t) by (by rewrite Hn).
  rewrite !list_lookup_fmap in Hlk.
  destruct (h' !! t), (h !! t); simpl in *; congruence.
Qed.

Lemma matchups_range :
  Forall (λ m : Match, (0 ≤ m.1 < 4)%Z ∧ (0 ≤ m.2 < 4)%Z) matchups.
Proof. repeat constructor; simpl; lia. Qed.

Section Group.
Context {rng : Type} `{HL : RandomLaws rng} `{HH : HostLaws}.

Lemma runs_py_item_in {A} (l : list A) (z : Z) (w : world rng) Q :
  (0 ≤ z < Z.of_nat (length l))%Z →
  (∀ x, x ∈ l → Q x w) →
  runs (py_item l z) w Q.
Proof using Type.
  intros Hz HQ. unfold py_item. rewrite decide_True by lia.
  destruct (lookup_lt_is_Some_2 l (Z.to_nat z) ltac:(lia)) as [x Hx].
  eapply runs_item; [done|]. apply HQ. by eapply list_elem_of_lookup_2.
Qed.

Lemma reset_points_runs (group : list ref) (w : world rng) :
  runs (reset_points group) w (λ _ w', steady (heap w) (heap w')).
Proof using Type.
  revert w. induction group as [|tm group IH]; intros w; simpl.
  - by apply runs_ret.
  - run. eapply runs_mono; [apply IH|]. simpl. intros _ w' Hs.
    eapply steady_trans; [|done]. by apply steady_alter.
Qed.

Lemma group_pairs_runs (group : list ref) (pairs : list Match)
    (w : world rng) :
  length group = 4 →
  Forall (λ m : Match, (0 ≤ m.1 < 4)%Z ∧ (0 ≤ m.2 < 4)%Z) pairs →
  runs (group_pairs group pairs) w (λ _ w', w' = w).
Proof using Type.
  intros Hg Hp. induction Hp as [|[i j] pairs [Hi Hj] _ IH]; simpl.
  - by apply runs_ret.
  - simpl in *. apply runs_bind, runs_py_item_in; [lia|]. intros a _.
    apply runs_bind, runs_py_item_in; [lia|]. intros b _.
    apply runs_bind. eapply runs_mono; [apply IH|].
    intros r w' ->. by apply runs_ret.
Qed.

Lemma play_items_runs (group : list ref) (day_items : list (string * Match))
    (w : world rng) :
  length group = 4 →
  Forall (λ it, it.2 ∈ matchups) day_items →
  runs (play_items group day_items) w (λ _ w', steady (heap w) (heap w')).
Proof using HL.
  intros Hg Hin. revert w.
  induction Hin as [|[sid m] day_items Hm _ IH]; intros w; simpl.
  - by apply runs_ret.
  - pose proof matchups_range as Hr. rewrite Forall_forall in Hr.
    destruct (Hr m Hm) as [H1 H2].
    apply runs_bind, runs_py_item_in; [lia|]. intros a _.
    apply runs_bind, runs_py_item_in; [lia|]. intros b _.
    run. eapply runs_mono; [apply IH|]. simpl. intros _ w' Hs.
    eapply steady_trans; [|done]. apply steady_determine_winner.
Qed.

Lemma play_days_runs (group : list ref) (schedule : Schedule)
    (w : world rng) :
  length group = 4 →
  Forall (λ d, Forall (λ m, m ∈ matchups) (day_matches d)) schedule →
  runs (play_days group schedule) w (λ _ w', steady (heap w) (heap w')).
Proof using HL HH.
  intros Hg Hin. revert w.
  induction Hin as [|d schedule Hd _ IH]; intros w; simpl.
  - by apply runs_ret.
  - apply runs_bind. eapply runs_mono.
    { apply play_items_runs; [done|].
      rewrite (items_perm d). unfold day_matches in Hd.
      rewrite Forall_fmap in Hd. exact Hd. }
    simpl. intros _ w1 Hs1.
    eapply runs_mono; [apply IH|]. simpl. intros _ w' Hs.
    by eapply steady_trans.
Qed.

Lemma assign_ranks_runs (sorted_group : list ref) (group_index : Z)
    (rank_counter : Z) (w : world rng) :
  runs (assign_ranks sorted_group group_index rank_counter) w
    (λ _ w', steady (heap w) (heap w')).
Proof using Type.
  revert rank_counter w.
  induction sorted_group as [|tm sorted_group IH]; intros rank_counter w; simpl.
  - by apply runs_ret.
  - run. eapply runs_mono; [apply IH|]. simpl. intros _ w' Hs.
    eapply steady_trans; [|done].
    eapply steady_trans; by apply steady_alter.
Qed.

Lemma play_groups_runs (ns : Z) (groups : list (list ref)) (group_index : Z)
    (standings : list (list ref)) (w : world rng) :
  (1 ≤ ns)%Z → Forall (λ g, length g = 4) groups →
  runs (play_groups ns groups group_index standings) w
    (λ r w', ∃ sgs,
       r = standings ++ sgs ∧ Forall2 (≡ₚ) sgs groups
       ∧ steady (heap w) (heap w')).
Proof using HL HH.
  intros Hns Hg. revert group_index standings w.
  induction Hg as [|group groups Hgroup _ IH]; intros group_index standings w;
    cbn [play_groups].
  - apply runs_ret. exists []. by rewrite app_nil_r.
  - apply runs_bind. eapply runs_mono; [apply reset_points_runs|].
    cbn beta. intros _ w1 Hs1. run.
    eapply runs_mono.
    { apply group_pairs_runs; [done|apply matchups_range]. }
    cbn beta. intros _ w2 ->.
    destruct (schedule_matches_played matchups ns Hns) as (days & Hd & Hp).
    apply runs_bind. eapply runs_lift; [exact Hd|].
    apply runs_bind. eapply runs_mono.
    { apply play_days_runs; [done|].
      apply Forall_forall. intros d Hdin. apply Forall_forall. intros m Hmin.
      rewrite <- Hp. apply list_elem_of_In, in_concat.
      exists (day_matches d). split; apply list_elem_of_In; [|done].
      apply list_elem_of_fmap. by exists d. }
    cbn beta. intros _ w3 Hs3. run.
    eapply runs_mono; [apply assign_ranks_runs|].
    cbn beta. intros _ w4 Hs4.
    eapply runs_mono; [apply IH|].
    cbn beta. intros r w' (sgs & -> & Hsgs & Hs).
    eexists (_ :: sgs). rewrite <- app_assoc. split; [done|]. split.
    + constructor; [apply sorted_perm|done].
    + simpl in *. repeat (eapply steady_trans; [eassumption|]). done.
Qed.

Lemma play_groups_none (ns : Z) (groups : list (list ref)) (group_index : Z)
    (standings : list (list ref)) (w : world rng) :
  (ns ≤ 0)%Z → Forall (λ g, length g = 4) groups →
  runs (play_groups ns groups group_index standings) w
    (λ r w', r = standings ∧ steady (heap w) (heap w')).
Proof using HL HH.
  intros Hns Hg. revert w.
  induction Hg as [|group groups Hgroup _ IH]; intros w; cbn [play_groups].
  - by apply runs_ret.
  - apply runs_bind. eapply runs_mono; [apply reset_points_runs|].
    cbn beta. intros _ w1 Hs1. run.
    eapply runs_mono.
    { apply group_pairs_runs; [done|apply matchups_range]. }
    cbn beta. intros _ w2 ->.
    apply runs_bind. eapply runs_lift.
    { by apply schedule_matches_no_stadium. }
    cbn beta iota. run.
    eapply runs_mono; [apply IH|].
    cbn beta. intros r w' [-> Hs]. split; [done|]. by eapply steady_trans.
Qed.

Lemma share_out_runs (rank_teams : list ref) (share_each : float)
    (w : world rng) :
  runs (share_out rank_teams share_each) w (λ _ w', steady (heap w) (heap w')).
Proof using Type.
  revert w. induction rank_teams as [|tm rank_teams IH]; intros w; simpl.
  - by apply runs_ret.
  - run. eapply runs_mono; [apply IH|]. simpl. intros _ w' Hs.
    eapply steady_trans; [|done]. by apply steady_alter.
Qed.

Lemma award_ranks_runs (rs : list Z) (self : Tournament) (w : world rng) :
  rs ⊆ [1; 2; 3; 4]%Z →
  runs (award_ranks rs self) w (λ _ w', steady (heap w) (heap w')).
Proof using HL HH.
  revert w. induction rs as [|r rs IH]; intros w Hrs; simpl.
  - by apply runs_ret.
  - run.
    assert (Hrs' : rs ⊆ [1; 2; 3; 4]%Z) by set_solver.
    destruct (flat_map _ _) as [|tm rank_teams] eqn:Hteams.
    { by apply IH. }
    assert (∃ x, rank_shares !! r = Some x) as [x Hx].
    { assert (Hr : r ∈ [1; 2; 3; 4]%Z) by set_solver.
      repeat (apply elem_of_cons in Hr as [->|Hr]); [| | | |set_solver];
        eexists; vm_compute; reflexivity. }
    apply runs_bind. eapply runs_lift; [by rewrite Hx|].
    apply runs_bind. unfold augment_greedily.
    eapply runs_mono; [apply share_out_runs|].
    simpl. intros _ w1 Hs1.
    eapply runs_mono; [by apply IH|].
    simpl. intros _ w' Hs. by eapply steady_trans.
Qed.

Lemma pick_qualifiers_runs (standings : list (list ref)) (g_idx : Z)
    (qualified : list (list ref)) (w : world rng) :
  Forall (λ g, 2 ≤ length g) standings →
  runs (pick_qualifiers standings g_idx qualified) w
    (λ r w', r = qualified ++ (take 2 <$> standings) ∧ heap w' = heap w).
Proof using Type.
  intros Hst. revert g_idx qualified w.
  induction Hst as [|grp standings Hgrp _ IH]; intros g_idx qualified w; simpl.
  - apply runs_ret. by rewrite app_nil_r.
  - destruct grp as [|top1 [|top2 grp]]; simpl in Hgrp; try lia.
    apply runs_bind. eapply runs_item; [done|].
    apply runs_bind. eapply runs_item; [done|]. run.
    eapply runs_mono; [apply IH|].
    simpl. intros r w' [-> Hh]. by rewrite <- app_assoc.
Qed.

Lemma run_group_stage_runs (self : Tournament) (w : world rng) :
  (1 ≤ num_stadiums self)%Z →
  Forall (λ g, 2 ≤ length g) (final_standings_per_group self) →
  runs (run_group_stage self) w
    (λ self' w', ∃ sgs,
       Forall2 (≡ₚ) sgs (groups_of (heap w) (teams self))
       ∧ final_standings_per_group self'
         = final_standings_per_group self ++ sgs
       ∧ qualified_for_stage2 self'
         = take 2 <$> final_standings_per_group self'
       ∧ teams self' = teams self
       ∧ steady (heap w) (heap w')).
Proof using HL HH.
  intros Hns Hold. unfold run_group_stage. run.
  eapply runs_lift; [by apply form_groups_run|].
  rewrite app_nil_l. fold (groups_of (heap w) (teams self)).
  apply runs_bind. eapply runs_mono.
  { apply play_groups_runs; [done|]. apply zip4_four. }
  simpl. intros r w1 (sgs & -> & Hsgs & Hs1). run.
  eapply runs_mono; [by apply award_ranks_runs|].
  simpl. intros _ w2 Hs2.
  apply runs_bind. eapply runs_mono.
  { apply pick_qualifiers_runs. apply Forall_app. split; [done|].
    apply Forall_forall. intros sg Hsg.
    apply list_elem_of_lookup in Hsg as [i Hi].
    destruct (Forall2_lookup_l _ _ _ _ _ Hsgs Hi) as (g & Hg & Hp).
    rewrite Hp.
    pose proof (zip4_four (reverse (at_level (heap w) "A"
                  (sorted String.ltb (λ t, level (heap w !!! t)) (teams self))))
                  (reverse (at_level (heap w) "B"
                  (sorted String.ltb (λ t, level (heap w !!! t)) (teams self))))
                  (reverse (at_level (heap w) "C"
                  (sorted String.ltb (λ t, level (heap w !!! t)) (teams self))))
                  (reverse (at_level (heap w) "D"
                  (sorted String.ltb (λ t, level (heap w !!! t)) (teams self)))))
      as H4.
    rewrite Forall_forall in H4.
    rewrite (H4 g); [lia|]. by eapply list_elem_of_lookup_2. }
  simpl. intros r w3 [-> Hh]. run. exists sgs.
  split; [done|]. split; [done|]. split; [done|]. split; [done|].
  rewrite Hh. simpl in *. by eapply steady_trans.
Qed.

End Group.

(** *** The groups *)

Lemma zip4_elem {A} (la lb lc ld : list A) (g : list A) :
  g ∈ zip4 la lb lc ld →
  ∃ a b c d, g = [a; b; c; d] ∧ a ∈ la ∧ b ∈ lb ∧ c ∈ lc ∧ d ∈ ld.
Proof.
  revert lb lc ld. induction la as [|a la IH]; intros [|b lb] [|c lc] [|d ld];
    simpl; try (intros Hg; by apply elem_of_nil in Hg).
  intros Hg. apply elem_of_cons in Hg as [->|Hg].
  - exists a, b, c, d. set_solver.
  - destruct (IH _ _ _ Hg) as (a' & b' & c' & d' & -> & ? & ? & ? & ?).
    exists a', b', c', d'. set_solver.
Qed.

Lemma zip4_submseteq {A} (la lb lc ld : list A) :
  concat (zip4 la lb lc ld) ⊆+ la ++ lb ++ lc ++ ld.
Proof.
  revert lb lc ld. induction la as [|a la IH]; intros [|b lb] [|c lc] [|d ld];
    simpl; try apply submseteq_nil_l.
  apply submseteq_skip.
  apply (submseteq_cons_middle b _ la (lb ++ c :: lc ++ d :: ld)).
  rewrite (assoc (++) la lb).
  apply (submseteq_cons_middle c _ (la ++ lb) (lc ++ d :: ld)).
  rewrite (assoc (++) (la ++ lb) lc).
  apply (submseteq_cons_middle d _ ((la ++ lb) ++ lc) ld).
  rewrite <- !(assoc (++)). apply IH.
Qed.

Lemma submseteq_NoDup_l {A} (l k : list A) : l ⊆+ k → NoDup k → NoDup l.
Proof.
  intros Hsub Hk. apply submseteq_sublist_l in Hsub as (l' & Hl & Hp).
  eapply sublist_NoDup; [|done]. by rewrite Hp.
Qed.

Lemma four_levels {A} (f : A → string) (ts : list A) :
  Forall (λ t, f t ∈ ["A"; "B"; "C"; "D"]) ts →
  filter (λ t, f t = "A") ts ++ filter (λ t, f t = "B") ts
  ++ filter (λ t, f t = "C") ts ++ filter (λ t, f t = "D") ts ≡ₚ ts.
Proof.
  induction 1 as [|t ts Ht _ IH]; [done|].
  rewrite !filter_cons.
  repeat (apply elem_of_cons in Ht as [Ht|Ht]); [| | | |by apply elem_of_nil in Ht];
    rewrite Ht; simpl.
  - by rewrite IH.
  - rewrite <- Permutation_middle. by rewrite IH.
  - rewrite (assoc (++)), <- Permutation_middle, <- (assoc (++)). by rewrite IH.
  - rewrite !(assoc (++)), <- Permutation_middle, <- !(assoc (++)).
    by rewrite IH.
Qed.

Lemma levels_disjoint {A} (f : A → string) (ts : list A) :
  NoDup ts →
  NoDup (filter (λ t, f t = "A") ts ++ filter (λ t, f t = "B") ts
         ++ filter (λ t, f t = "C") ts ++ filter (λ t, f t = "D") ts).
Proof.
  intros Hnd.
  repeat (apply NoDup_app; split; [by apply NoDup_filter|split]);
    try by apply NoDup_filter.
  - intros x Hx Hin. apply list_elem_of_filter in Hx as [Hx _].
    rewrite !elem_of_app, !list_elem_of_filter in Hin.
    destruct Hin as [[? _]|[[? _]|[? _]]]; congruence.
  - intros x Hx Hin. apply list_elem_of_filter in Hx as [Hx _].
    rewrite !elem_of_app, !list_elem_of_filter in Hin.
    destruct Hin as [[? _]|[? _]]; congruence.
  - intros x Hx Hin. apply list_elem_of_filter in Hx as [Hx _].
    rewrite !list_elem_of_filter in Hin.
    destruct Hin as [? _]; congruence.
Qed.

Section Groups.
Context (h : list team) (ts : list ref).

Let sorted_by_level := sorted String.ltb (λ t, level (h !!! t)) ts.

Lemma at_level_sorted (lv : string) :
  at_level h lv sorted_by_level ≡ₚ at_level h lv ts.
Proof using Type.
  unfold at_level, sorted_by_level. by rewrite sorted_perm.
Qed.

Lemma groups_of_length :
  length (groups_of h ts)
  = ((length (at_level h "A" ts) `min` length (at_level h "B" ts))
     `min` length (at_level h "C" ts)) `min` length (at_level h "D" ts).
Proof using Type.
  unfold groups_of. rewrite zip4_length, !length_reverse.
  fold sorted_by_level. by rewrite !at_level_sorted.
Qed.

Lemma groups_of_levels (g : list ref) :
  g ∈ groups_of h ts →
  ∃ a b c d,
    g = [a; b; c; d]
    ∧ a ∈ ts ∧ b ∈ ts ∧ c ∈ ts ∧ d ∈ ts
    ∧ level (h !!! a) = "A" ∧ level (h !!! b) = "B"
    ∧ level (h !!! c) = "C" ∧ level (h !!! d) = "D".
Proof using Type.
  intros Hg. apply zip4_elem in Hg as (a & b & c & d & -> & Ha & Hb & Hc & Hd).
  rewrite elem_of_reverse in Ha, Hb, Hc, Hd.
  fold sorted_by_level in Ha, Hb, Hc, Hd.
  rewrite at_level_sorted in Ha, Hb, Hc, Hd.
  unfold at_level in *.
  apply list_elem_of_filter in Ha as [? ?], Hb as [? ?], Hc as [? ?],
    Hd as [? ?].
  by exists a, b, c, d.
Qed.

Lemma groups_of_four : Forall (λ g, length g = 4) (groups_of h ts).
Proof using Type. apply zip4_four. Qed.

Lemma groups_of_levels_perm :
  concat (groups_of h ts)
  ⊆+ at_level h "A" ts ++ at_level h "B" ts ++ at_level h "C" ts
     ++ at_level h "D" ts.
Proof using Type.
  unfold groups_of. fold sorted_by_level.
  etrans; [apply zip4_submseteq|].
  by rewrite !reverse_Permutation, !at_level_sorted.
Qed.

Lemma groups_of_nodup : NoDup ts → NoDup (concat (groups_of h ts)).
Proof using Type.
  intros Hnd. eapply submseteq_NoDup_l; [apply groups_of_levels_perm|].
  by apply levels_disjoint.
Qed.

Lemma groups_of_all :
  Forall (λ t, level (h !!! t) ∈ ["A"; "B"; "C"; "D"]) ts →
  length (at_level h "A" ts) = length (at_level h "B" ts) →
  length (at_level h "A" ts) = length (at_level h "C" ts) →
  length (at_level h "A" ts) = length (at_level h "D" ts) →
  concat (groups_of h ts) ≡ₚ ts.
Proof using Type.
  intros Hlv Hb Hc Hd.
  rewrite <- (four_levels (λ t, level (h !!! t)) ts Hlv) at 2.
  apply submseteq_length_Permutation; [apply groups_of_levels_perm|].
  pose proof groups_of_four as H4. pose proof groups_of_length as Hl.
  assert (Hcat : length (concat (groups_of h ts)) = 4 * length (groups_of h ts)).
  { clear Hl. induction H4 as [|g gs Hg _ IH]; [done|].
    simpl. rewrite length_app, IH, Hg. lia. }
  rewrite Hcat, Hl. fold (at_level h "A" ts) (at_level h "B" ts)
    (at_level h "C" ts) (at_level h "D" ts).
  rewrite !length_app. lia.
Qed.

End Groups.

(** *** The levels of new teams *)

Lemma filter_replicate_eq (lv x : string) (q : nat) :
  filter (λ y, y = lv) (replicate q x)
  = if decide (x = lv) then replicate q x else [].
Proof.
  induction q as [|q IH]; simpl; [by case_decide|].
  rewrite filter_cons, IH. by case_decide.
Qed.

Lemma replicate_levels_count (q : nat) (lv : string) :
  lv ∈ ["A"; "B"; "C"; "D"] →
  length (filter (λ y, y = lv)
            (replicate q "A" ++ replicate q "B" ++ replicate q "C"
             ++ replicate q "D")) = q.
Proof.
  intros Hlv. rewrite !filter_app, !length_app, !filter_replicate_eq.
  repeat (apply elem_of_cons in Hlv as [->|Hlv]); [| | | |by apply elem_of_nil in Hlv];
    repeat case_decide; try congruence; rewrite ?length_replicate; simpl; lia.
Qed.

Lemma levels_of_made (h0 made : list team) :
  (λ t, level ((h0 ++ made) !!! t)) <$> seq (length h0) (length made)
  = level <$> made.
Proof.
  apply list_eq. intros j. rewrite !list_lookup_fmap.
  destruct (decide (j < length made)) as [Hj|Hj].
  - rewrite lookup_seq_lt by done. simpl.
    rewrite lookup_total_app_r by lia.
    replace (length h0 + j - length h0) with j by lia.
    destruct (lookup_lt_is_Some_2 made j Hj) as [x Hx].
    by rewrite Hx, (list_lookup_total_correct _ _ _ Hx).
  - rewrite lookup_seq_ge by lia. by rewrite lookup_ge_None_2 by lia.
Qed.

Lemma length_filter_level {A} (f : A → string) (lv : string) (l : list A) :
  length (filter (λ x, f x = lv) l) = length (filter (λ y, y = lv) (f <$> l)).
Proof.
  induction l as [|x l IH]; [done|].
  rewrite fmap_cons, !filter_cons. case_decide; simpl; by rewrite IH.
Qed.

Lemma at_level_made (h0 made : list team) (lv : string) :
  length (at_level (h0 ++ made) lv (seq (length h0) (length made)))
  = length (filter (λ y, y = lv) (level <$> made)).
Proof.
  rewrite <- (levels_of_made h0 made). unfold at_level.
  apply length_filter_level.
Qed.

Section Whole.
Context {rng : Type} `{HL : RandomLaws rng} `{HH : HostLaws}.

Lemma print_teams_runs (ts : list ref) (w : world rng) :
  runs (print_teams ts) w (λ _ w', heap w' = heap w).
Proof using Type.
  revert w. induction ts as [|tm ts IH]; intros w; simpl.
  - by apply runs_ret.
  - run. eapply runs_mono; [apply IH|]. by simpl.
Qed.

Lemma run_group_stage_standings (self : Tournament) (w : world rng) :
  (1 ≤ num_stadiums self)%Z →
  Forall (λ g, 2 ≤ length g) (final_standings_per_group self) →
  ∃ self' w' standings,
    run_group_stage self w = Ret (self', w')
    ∧ final_standings_per_group self'
      = final_standings_per_group self ++ standings
    ∧ qualified_for_stage2 self' = take 2 <$> final_standings_per_group self'
    ∧ teams self' = teams self
    ∧ length standings
      = ((length (at_level (heap w) "A" (teams self))
          `min` length (at_level (heap w) "B" (teams self)))
         `min` length (at_level (heap w) "C" (teams self)))
        `min` length (at_level (heap w) "D" (teams self))
    ∧ Forall (λ sg, ∃ a b c d,
                sg ≡ₚ [a; b; c; d]
                ∧ a ∈ teams self ∧ b ∈ teams self
                ∧ c ∈ teams self ∧ d ∈ teams self
                ∧ level (heap w !!! a) = "A" ∧ level (heap w !!! b) = "B"
                ∧ level (heap w !!! c) = "C" ∧ level (heap w !!! d) = "D")
        standings
    ∧ (NoDup (teams self) → NoDup (concat standings))
    ∧ steady (heap w) (heap w').
Proof using HL HH.
  intros Hns Hold.
  destruct (run_group_stage_runs self w Hns Hold)
    as (self' & w' & Hr & sgs & Hsgs & Hst & Hq & Hts & Hs).
  exists self', w', sgs. repeat (split; [done|]).
  split; [|split; [|split; [|done]]].
  - rewrite (Forall2_length _ _ _ Hsgs). apply groups_of_length.
  - apply Forall_forall. intros sg Hsg.
    apply list_elem_of_lookup in Hsg as [i Hi].
    destruct (Forall2_lookup_l _ _ _ _ _ Hsgs Hi) as (g & Hg & Hp).
    apply list_elem_of_lookup_2 in Hg.
    destruct (groups_of_levels _ _ _ Hg) as (a & b & c & d & -> & Hrest).
    by exists a, b, c, d.
  - intros Hnd.
    assert (Hcat : concat sgs ≡ₚ concat (groups_of (heap w) (teams self))).
    { clear -Hsgs. induction Hsgs as [|?????? IH]; [done|].
      simpl. by rewrite IH, H. }
    rewrite Hcat. by apply groups_of_nodup.
Qed.

End Whole.

(** X20: with at least one stadium, and every earlier standing of two
    teams or more, [run_group_stage] raises nothing.  It adds one
    standing for each group, as many as the rarest of the levels A, B,
    C, D has teams; each standing holds four teams of the object, one of
    each level, and no team of a list without repetitions is in two of
    them.  The qualifiers are the first two of every standing, and no
    name or level of a team changes. *)
Theorem run_group_stage_groups {rng : Type} `{HL : RandomLaws rng}
    `{HH : HostLaws} (self : Tournament) (w : world rng) :
  (1 ≤ num_stadiums self)%Z →
  Forall (λ g, 2 ≤ length g) (final_standings_per_group self) →
  ∃ self' w' standings,
    run_group_stage self w = Ret (self', w')
    ∧ final_standings_per_group self'
      = final_standings_per_group self ++ standings
    ∧ qualified_for_stage2 self' = take 2 <$> final_standings_per_group self'
    ∧ teams self' = teams self
    ∧ length standings
      = ((length (at_level (heap w) "A" (teams self))
          `min` length (at_level (heap w) "B" (teams self)))
         `min` length (at_level (heap w) "C" (teams self)))
        `min` length (at_level (heap w) "D" (teams self))
    ∧ Forall (λ sg, ∃ a b c d,
                sg ≡ₚ [a; b; c; d]
                ∧ a ∈ teams self ∧ b ∈ teams self
                ∧ c ∈ teams self ∧ d ∈ teams self
                ∧ level (heap w !!! a) = "A" ∧ level (heap w !!! b) = "B"
                ∧ level (heap w !!! c) = "C" ∧ level (heap w !!! d) = "D")
        standings
    ∧ (NoDup (teams self) → NoDup (concat standings))
    ∧ steady (heap w) (heap w').
Proof. exact (run_group_stage_standings self w). Qed.

Lemma run_group_stage_groups_witness :
  ∃ self' w',
    @run_group_stage unit first_random plain_host fresh_tournament
      (mkWorld tt [] fresh_heap) = Ret (self', w')
    ∧ length (final_standings_per_group self') = 1.
Proof.
  destruct (@run_group_stage_groups unit first_random first_random_laws
              plain_host plain_host_laws fresh_tournament
              (mkWorld tt [] fresh_heap))
    as (self' & w' & standings & Hr & Hst & _ & _ & Hlen & _).
  - simpl. lia.
  - constructor.
  - exists self', w'. split; [exact Hr|].
    rewrite Hst, length_app, Hlen. vm_compute. reflexivity.
Defined.


(** ** Further properties of the standings *)

Lemma pair_ltb_lt (x y : Z * string) : pair_ltb x y = true ↔ pair_lt x y.
Proof.
  unfold pair_ltb, pair_lt, string_lt, String.ltb.
  destruct (Z.compare_spec x.1 y.1) as [Heq|Hlt|Hgt].
  - destruct (String.compare x.2 y.2) eqn:Hc; split; try done;
      try (intros [?|[_ ?]]; [lia|done]).
    + intros _. by right.
  - split; [intros _; by left|done].
  - split; [done|]. intros [?|[? _]]; lia.
Qed.

Lemma pair_lt_asym (x y : Z * string) : pair_lt x y → ¬ pair_lt y x.
Proof.
  intros [H1|[H1 H2]] [H3|[H3 H4]]; try lia.
  apply (string_lt_irrefl x.2). by eapply string_lt_trans.
Qed.

Lemma string_lt_cases (a b : string) : string_lt a b ∨ a = b ∨ string_lt b a.
Proof.
  destruct (string_compare_cases a b) as [[_ ?]|[[_ ?]|[_ ?]]]; auto.
Qed.

Lemma not_string_lt_trans (a b c : string) :
  ¬ string_lt b a → ¬ string_lt c b → ¬ string_lt c a.
Proof.
  intros Hba Hcb Hca.
  destruct (string_lt_cases b a) as [Hlt|[Heq|Hgt]]; [done| |].
  - subst. done.
  - destruct (string_lt_cases c b) as [Hlt'|[Heq'|Hgt']]; [done| |].
    + subst. apply (string_lt_irrefl a). by eapply string_lt_trans.
    + apply (string_lt_irrefl a).
      eapply string_lt_trans; [exact Hgt|].
      eapply string_lt_trans; [exact Hgt'|done].
Qed.

Lemma pair_lt_neg_trans (x y z : Z * string) :
  ¬ pair_lt y x → ¬ pair_lt z y → ¬ pair_lt z x.
Proof.
  unfold pair_lt. intros Hyx Hzy [H1|[H1 H2]].
  - apply Hyx. destruct (decide (y.1 < x.1)%Z); [by left|].
    exfalso. apply Hzy. left. lia.
  - destruct (decide (y.1 < x.1)%Z) as [|Hn1]; [apply Hyx; by left|].
    destruct (decide (z.1 < y.1)%Z) as [|Hn2]; [apply Hzy; by left|].
    assert (y.1 = x.1) by lia. assert (z.1 = y.1) by lia.
    apply (not_string_lt_trans x.2 y.2 z.2); [| |done].
    + intros ?. apply Hyx. by right.
    + intros ?. apply Hzy. by right.
Qed.

Lemma above_key (h : list team) (a b : ref) :
  above h a b ↔ ¬ pair_lt (standing_key h b) (standing_key h a).
Proof.
  unfold above, pair_lt, standing_key. simpl. split.
  - intros [H1|[H1 H2]] [H3|[H3 H4]]; try lia. done.
  - intros Hn.
    destruct (decide (points (h !!! b) < points (h !!! a))%Z); [by left|].
    right. split.
    + destruct (decide (points (h !!! a) = points (h !!! b))); [done|].
      exfalso. apply Hn. left. lia.
    + intros Hs. apply Hn.
      destruct (decide (points (h !!! a) = points (h !!! b))); [|left; lia].
      right. split; [lia|done].
Qed.

Section Sorted.
Context {A : Type} (key : A → Z * string).

Let R (a b : A) : Prop := ¬ pair_lt (key b) (key a).

Lemma insert_sorted_strongly (x : A) (l : list A) :
  StronglySorted R l → StronglySorted R (insert_sorted pair_ltb key x l).
Proof using Type.
  induction 1 as [|y l Hl IH Hy]; simpl.
  - repeat constructor.
  - destruct (pair_ltb (key y) (key x)) eqn:Hlt.
    + apply pair_ltb_lt in Hlt. constructor; [done|].
      rewrite insert_sorted_perm. constructor; [|done].
      by apply pair_lt_asym.
    + assert (Hxy : R x y).
      { unfold R. rewrite <- pair_ltb_lt. by rewrite Hlt. }
      constructor; [by constructor|]. constructor; [done|].
      eapply Forall_impl; [exact Hy|]. intros z Hz.
      by apply (pair_lt_neg_trans _ (key y)).
Qed.

Lemma sorted_strongly (l : list A) : StronglySorted R (sorted pair_ltb key l).
Proof using Type.
  unfold sorted. induction l as [|x l IH]; simpl; [constructor|].
  by apply insert_sorted_strongly.
Qed.

Lemma strongly_lookup (l : list A) (i j : nat) (a b : A) :
  StronglySorted R l → i < j → l !! i = Some a → l !! j = Some b → R a b.
Proof using Type.
  intros Hl. revert i j. induction Hl as [|x l Hl IH Hx]; intros i j Hij Ha Hb.
  - done.
  - destruct i as [|i], j as [|j]; simpl in *; try lia.
    + injection Ha as <-. rewrite Forall_forall in Hx. apply Hx.
      by eapply list_elem_of_lookup_2.
    + apply (IH i j); [lia|done|done].
Qed.

End Sorted.

Lemma sorted_ordered (h : list team) (g : list ref) :
  ordered h (sorted pair_ltb (standing_key h) g).
Proof.
  intros i j a b Hij Ha Hb. apply above_key.
  by apply (strongly_lookup (standing_key h) _ i j a b (sorted_strongly _ g)).
Qed.

(** *** Fields that stay *)

Lemma fmap_eq_lookup_total {B} (f : team → B) (h h' : list team) (t : ref) :
  f <$> h' = f <$> h → f (h' !!! t) = f (h !!! t).
Proof.
  intros Heq. rewrite !list_lookup_total_alt.
  assert (Hlk : (f <$> h') !! t = (f <$> h) !! t) by (by rewrite Heq).
  rewrite !list_lookup_fmap in Hlk.
  destruct (h' !! t), (h !! t); simpl in *; congruence.
Qed.

Lemma untouched_lookup_total (G : list ref) (h h' : list team) (t : ref) :
  untouched G h h' → t ∉ G → h' !!! t = h !!! t.
Proof. intros Hu Ht. rewrite !list_lookup_total_alt. by rewrite (Hu t Ht). Qed.

Lemma untouched_refl (G : list ref) (h : list team) : untouched G h h.
Proof. by intros t _. Qed.

Lemma untouched_trans (G : list ref) (h1 h2 h3 : list team) :
  untouched G h1 h2 → untouched G h2 h3 → untouched G h1 h3.
Proof. intros H1 H2 t Ht. by rewrite (H2 t Ht), (H1 t Ht). Qed.

Lemma untouched_mono (G G' : list ref) (h h' : list team) :
  G ⊆ G' → untouched G h h' → untouched G' h h'.
Proof. intros Hsub Hu t Ht. apply Hu. set_solver. Qed.

Lemma untouched_alter (G : list ref) (f : team → team) (tm : ref)
    (h : list team) :
  tm ∈ G → untouched G h (alter f tm h).
Proof.
  intros Htm t Ht. apply list_lookup_alter_ne. intros ->. done.
Qed.

Lemma untouched_determine_winner (G : list ref) (scoreA scoreB : Z)
    (teamA teamB : ref) (h : list team) :
  teamA ∈ G → teamB ∈ G →
  untouched G h (determine_winner scoreA scoreB teamA teamB h).
Proof.
  intros HA HB. unfold determine_winner.
  repeat case_decide;
    repeat (eapply untouched_trans; [|by apply untouched_alter]);
    apply untouched_refl.
Qed.

(** *** Points *)

Lemma group_points_perm (h : list team) (g g' : list ref) :
  g ≡ₚ g' → group_points h g = group_points h g'.
Proof.
  unfold group_points.
  induction 1 as [|x l l' _ IH|x y l|l l' l'' _ IH1 _ IH2].
  - done.
  - rewrite !fmap_cons. cbn [foldr]. by rewrite IH.
  - rewrite !fmap_cons. cbn [foldr]. lia.
  - by rewrite IH1.
Qed.

Lemma group_points_alter (n : Z) (tm : ref) (h : list team) (g : list ref) :
  NoDup g → tm < length h →
  group_points (alter (add_points n) tm h) g
  = (group_points h g + if decide (tm ∈ g) then n else 0)%Z.
Proof.
  unfold group_points. intros Hnd Htm.
  induction Hnd as [|t g Ht Hnd IH].
  - rewrite !fmap_nil. cbn [foldr]. case_decide; [set_solver|lia].
  - rewrite !fmap_cons. cbn [foldr]. rewrite IH, points_alter_add.
    destruct (decide (tm = t)) as [->|Hne].
    + rewrite (decide_True (P := t = t ∧ _)) by done.
      rewrite (decide_False (P := t ∈ g)) by done.
      rewrite (decide_True (P := t ∈ t :: g)) by set_solver. lia.
    + rewrite (decide_False (P := tm = t ∧ _)) by tauto.
      destruct (decide (tm ∈ g)).
      * rewrite (decide_True (P := tm ∈ t :: g)) by set_solver. lia.
      * rewrite (decide_False (P := tm ∈ t :: g)) by set_solver. lia.
Qed.

Lemma group_points_determine_winner (scoreA scoreB : Z) (a b : ref)
    (h : list team) (g : list ref) :
  NoDup g → a ∈ g → b ∈ g → a < length h → b < length h →
  group_points (determine_winner scoreA scoreB a b h) g
  = (group_points h g + if decide (scoreA = scoreB) then 2 else 3)%Z.
Proof.
  intros Hnd Ha Hb Hla Hlb. unfold determine_winner.
  repeat case_decide; try lia;
    rewrite !group_points_alter by (rewrite ?length_alter; done);
    rewrite !decide_True by done; lia.
Qed.

Lemma points_determine_winner (scoreA scoreB : Z) (a b : ref)
    (h : list team) (t : ref) :
  (points (h !!! t) ≤ points (determine_winner scoreA scoreB a b h !!! t)
   ≤ points (h !!! t) + if decide (t = a ∨ t = b) then 3 else 0)%Z.
Proof.
  unfold determine_winner.
  repeat case_decide; try lia; rewrite !points_alter_add;
    repeat case_decide; try lia; intuition congruence.
Qed.

Lemma group_points_bounds (h : list team) (g : list ref) :
  group_points h g = foldr Z.add 0%Z ((λ t, points (h !!! t)) <$> g).
Proof. done. Qed.

Lemma plays_cons (p : Z) (m : Match) (ms : list Match) :
  plays p (m :: ms)
  = (if decide (m.1 = p ∨ m.2 = p) then 1 else 0) + plays p ms.
Proof. unfold plays. rewrite filter_cons. by case_decide. Qed.

Lemma plays_app (p : Z) (ms ms' : list Match) :
  plays p (ms ++ ms') = plays p ms + plays p ms'.
Proof. unfold plays. by rewrite filter_app, length_app. Qed.

Lemma plays_perm (p : Z) (ms ms' : list Match) :
  ms ≡ₚ ms' → plays p ms = plays p ms'.
Proof. unfold plays. by intros ->. Qed.

Lemma matchups_apart :
  Forall (λ m : Match, (0 ≤ m.1 < 4)%Z ∧ (0 ≤ m.2 < 4)%Z ∧ m.1 ≠ m.2) matchups.
Proof. repeat constructor; simpl; lia. Qed.

Section Ranks.
Context {rng : Type} `{HL : RandomLaws rng} `{HH : HostLaws}.

Lemma reset_points_zero (group : list ref) (w : world rng) :
  runs (reset_points group) w
    (λ _ w',
       steady (heap w) (heap w')
       ∧ untouched group (heap w) (heap w')
       ∧ (∀ t, t ∈ group → t < length (heap w) → points (heap w' !!! t) = 0%Z)
       ∧ (∀ t, points (heap w !!! t) = 0%Z → points (heap w' !!! t) = 0%Z)).
Proof using HL HH.
  revert w. induction group as [|tm group IH]; intros w; simpl.
  - apply runs_ret. split; [done|]. split; [done|]. split; [|done].
    intros t Ht. by apply elem_of_nil in Ht.
  - run. eapply runs_mono; [apply IH|]. simpl.
    intros _ w' (Hs & Hu & Hz & Hk).
    assert (Hkeep : ∀ t, points (heap w !!! t) = 0%Z →
              points (alter (set_points 0) tm (heap w) !!! t) = 0%Z).
    { intros t Ht. rewrite list_lookup_total_alter. by case_decide. }
    split; [|split; [|split]].
    + eapply steady_trans; [|done]. by apply steady_alter.
    + apply (untouched_trans _ _ (alter (set_points 0) tm (heap w))).
      * apply untouched_alter. set_solver.
      * eapply (untouched_mono group); [|done]. set_solver.
    + intros t Ht Hlt. apply elem_of_cons in Ht as [->|Ht].
      * apply Hk. rewrite list_lookup_total_alter_eq by done. done.
      * apply Hz; [done|]. by rewrite length_alter.
    + intros t Ht. by apply Hk, Hkeep.
Qed.

Lemma runs_py_item_at {A} (l : list A) (z : Z) (x : A) (w : world rng) Q :
  (0 ≤ z)%Z → l !! Z.to_nat z = Some x → Q x w → runs (py_item l z) w Q.
Proof using HL HH.
  intros Hz Hx HQ. unfold py_item. rewrite decide_True by done.
  by eapply runs_item.
Qed.

Lemma play_items_points (group : list ref) (day_items : list (string * Match))
    (w : world rng) :
  NoDup group → length group = 4 →
  Forall (λ t, t < length (heap w)) group →
  Forall (λ it, it.2 ∈ matchups) day_items →
  runs (play_items group day_items) w
    (λ _ w',
       steady (heap w) (heap w')
       ∧ untouched group (heap w) (heap w')
       ∧ (2 * Z.of_nat (length day_items)
          ≤ group_points (heap w') group - group_points (heap w) group
          ≤ 3 * Z.of_nat (length day_items))%Z
       ∧ ∀ p t, group !! p = Some t →
           (points (heap w !!! t) ≤ points (heap w' !!! t)
            ≤ points (heap w !!! t)
              + 3 * Z.of_nat (plays (Z.of_nat p) (day_items.*2)))%Z).
Proof using HL HH.
  intros Hnd Hg Hval Hin. revert w Hval.
  induction Hin as [|[sid m] day_items Hm _ IH]; intros w Hval;
    cbn [play_items].
  - apply runs_ret. split; [done|]. split; [done|]. split; [simpl; lia|].
    intros p t _. unfold plays. simpl. lia.
  - pose proof matchups_apart as Hr. rewrite Forall_forall in Hr.
    destruct (Hr m Hm) as (H1 & H2 & Hne). simpl in H1, H2, Hne.
    destruct (lookup_lt_is_Some_2 group (Z.to_nat m.1) ltac:(lia)) as [a Ha].
    destruct (lookup_lt_is_Some_2 group (Z.to_nat m.2) ltac:(lia)) as [b Hb].
    apply runs_bind. eapply runs_py_item_at; [lia|done|].
    apply runs_bind. eapply runs_py_item_at; [lia|done|].
    run.
    assert (Ha' : a ∈ group) by (by eapply list_elem_of_lookup_2).
    assert (Hb' : b ∈ group) by (by eapply list_elem_of_lookup_2).
    rewrite Forall_forall in Hval.
    set (h1 := determine_winner z z0 a b (heap w)).
    assert (Hs1 : steady (heap w) h1) by apply steady_determine_winner.
    eapply runs_mono.
    { apply IH. cbn [heap]. apply Forall_forall. intros t Ht.
      fold h1. rewrite (steady_length _ _ Hs1). by apply Hval. }
    cbn [heap]. fold h1. intros _ w' (Hs & Hu & Hsum & Hper).
    split; [by eapply steady_trans|]. split.
    { eapply untouched_trans; [|done].
      by apply untouched_determine_winner. }
    split.
    { pose proof (group_points_determine_winner z z0 a b (heap w) group
                    Hnd Ha' Hb' (Hval a Ha') (Hval b Hb')) as Hdw.
      fold h1 in Hdw. rewrite length_cons. case_decide; lia. }
    intros p t Hp. specialize (Hper p t Hp).
    pose proof (points_determine_winner z z0 a b (heap w) t) as Hpt.
    fold h1 in Hpt. rewrite fmap_cons, plays_cons. simpl.
    assert (Hiff : (t = a ∨ t = b) ↔ (m.1 = Z.of_nat p ∨ m.2 = Z.of_nat p)).
    { split; intros [Heq|Heq].
      - subst t. left.
        assert (p = Z.to_nat m.1) by (by eapply NoDup_lookup). lia.
      - subst t. right.
        assert (p = Z.to_nat m.2) by (by eapply NoDup_lookup). lia.
      - left. rewrite Heq, Nat2Z.id in Ha. congruence.
      - right. rewrite Heq, Nat2Z.id in Hb. congruence. }
    repeat case_decide; try tauto; lia.
Qed.

Lemma played_perm (schedule : Schedule) :
  played schedule ≡ₚ concat (day_matches <$> schedule).
Proof using HL HH.
  unfold played. induction schedule as [|d schedule IH]; [done|].
  rewrite !fmap_cons. simpl. rewrite IH. unfold day_matches.
  by rewrite (items_perm d).
Qed.

Lemma play_days_points (group : list ref) (schedule : Schedule)
    (w : world rng) :
  NoDup group → length group = 4 →
  Forall (λ t, t < length (heap w)) group →
  Forall (λ d, Forall (λ m, m ∈ matchups) (day_matches d)) schedule →
  runs (play_days group schedule) w
    (λ _ w',
       steady (heap w) (heap w')
       ∧ untouched group (heap w) (heap w')
       ∧ (2 * Z.of_nat (length (played schedule))
          ≤ group_points (heap w') group - group_points (heap w) group
          ≤ 3 * Z.of_nat (length (played schedule)))%Z
       ∧ ∀ p t, group !! p = Some t →
           (points (heap w !!! t) ≤ points (heap w' !!! t)
            ≤ points (heap w !!! t)
              + 3 * Z.of_nat (plays (Z.of_nat p) (played schedule)))%Z).
Proof using HL HH.
  intros Hnd Hg Hval Hin. revert w Hval.
  induction Hin as [|d schedule Hd _ IH]; intros w Hval; cbn [play_days].
  - apply runs_ret. split; [done|]. split; [done|]. split; [simpl; lia|].
    intros p t _. unfold plays. simpl. lia.
  - apply runs_bind. eapply runs_mono.
    { apply play_items_points; [done|done|done|].
      rewrite (items_perm d). unfold day_matches in Hd.
      rewrite Forall_fmap in Hd. exact Hd. }
    cbn beta. intros _ w1 (Hs1 & Hu1 & Hsum1 & Hper1).
    eapply runs_mono.
    { apply IH. rewrite (steady_length _ _ Hs1). done. }
    cbn beta. intros _ w' (Hs & Hu & Hsum & Hper).
    split; [by eapply steady_trans|]. split; [by eapply untouched_trans|].
    unfold played in *. rewrite fmap_cons. cbn [concat].
    rewrite length_app, length_fmap. split; [lia|].
    intros p t Hp. specialize (Hper p t Hp). specialize (Hper1 p t Hp).
    rewrite plays_app. lia.
Qed.

Lemma assign_ranks_ranked (sorted_group : list ref) (group_index : Z)
    (rank_counter : Z) (w : world rng) :
  NoDup sorted_group →
  Forall (λ t, t < length (heap w)) sorted_group →
  runs (assign_ranks sorted_group group_index rank_counter) w
    (λ _ w',
       steady (heap w) (heap w')
       ∧ untouched sorted_group (heap w) (heap w')
       ∧ points <$> heap w' = points <$> heap w
       ∧ ∀ i t, sorted_group !! i = Some t →
           rank (heap w' !!! t) = Some (rank_counter + Z.of_nat i)%Z
           ∧ group (heap w' !!! t) = Some group_index).
Proof using HL HH.
  intros Hnd. revert rank_counter w.
  induction Hnd as [|tm sg Htm Hnd IH]; intros rank_counter w Hval;
    cbn [assign_ranks].
  - apply runs_ret. split; [done|]. split; [done|]. split; [done|].
    intros i t Hi. by rewrite lookup_nil in Hi.
  - apply Forall_cons in Hval as [Hv Hval]. run.
    set (h1 := alter (set_rank rank_counter) tm
                 (alter (set_group group_index) tm (heap w))).
    assert (Hl1 : length h1 = length (heap w)).
    { unfold h1. by rewrite !length_alter. }
    eapply runs_mono.
    { apply IH. cbn [heap]. fold h1. by rewrite Hl1. }
    cbn [heap]. fold h1. intros _ w' (Hs & Hu & Hp & Hr).
    split; [|split; [|split]].
    + eapply steady_trans; [|done]. unfold h1.
      eapply steady_trans; by apply steady_alter.
    + apply (untouched_trans _ _ h1).
      * unfold h1.
        apply (untouched_trans _ _ (alter (set_group group_index) tm (heap w)));
          apply untouched_alter; set_solver.
      * eapply (untouched_mono sg); [|done]. set_solver.
    + rewrite Hp. unfold h1. by rewrite !fmap_alter_same.
    + intros [|i] t Hi; simpl in Hi.
      * injection Hi as <-.
        rewrite (untouched_lookup_total sg h1 (heap w') tm Hu Htm).
        unfold h1. rewrite !list_lookup_total_alter_eq
          by (rewrite ?length_alter; done).
        simpl. split; [f_equal; lia|done].
      * destruct (Hr i t Hi) as [-> ->]. split; [f_equal; lia|done].
Qed.

Lemma settled_agree (h h' : list team) (group_index : Z) (sg : list ref) :
  (∀ t, t ∈ sg →
     points (h' !!! t) = points (h !!! t) ∧ name (h' !!! t) = name (h !!! t)
     ∧ rank (h' !!! t) = rank (h !!! t) ∧ group (h' !!! t) = group (h !!! t)) →
  settled h group_index sg → settled h' group_index sg.
Proof using HL HH.
  intros Hag (Hr & Ho & Hp & Hb). split; [|split; [|split]].
  - intros i t Hi. destruct (Hag t) as (_ & _ & -> & ->).
    { by eapply list_elem_of_lookup_2. }
    by apply Hr.
  - intros i j a b Hij Ha Hb'. specialize (Ho i j a b Hij Ha Hb').
    unfold above in *.
    destruct (Hag a) as (-> & -> & _); [by eapply list_elem_of_lookup_2|].
    destruct (Hag b) as (-> & -> & _); [by eapply list_elem_of_lookup_2|].
    done.
  - assert (Heq : group_points h' sg = group_points h sg); [|lia].
    unfold group_points. f_equal. apply list_fmap_ext.
    intros i t Hi. apply Hag. by eapply list_elem_of_lookup_2.
  - apply Forall_forall. intros t Ht. rewrite Forall_forall in Hb.
    destruct (Hag t Ht) as (-> & _). by apply Hb.
Qed.

Lemma settled_untouched (G : list ref) (h h' : list team) (group_index : Z)
    (sg : list ref) :
  untouched G h h' → (∀ t, t ∈ sg → t ∉ G) →
  settled h group_index sg → settled h' group_index sg.
Proof using HL HH.
  intros Hu Hdis. apply settled_agree. intros t Ht.
  by rewrite (untouched_lookup_total G h h' t Hu (Hdis t Ht)).
Qed.

Lemma settled_fields (h h' : list team) (group_index : Z) (sg : list ref) :
  points <$> h' = points <$> h → name <$> h' = name <$> h →
  rank <$> h' = rank <$> h → group <$> h' = group <$> h →
  settled h group_index sg → settled h' group_index sg.
Proof using HL HH.
  intros Hp Hn Hr Hg. apply settled_agree. intros t _.
  by rewrite !(fmap_eq_lookup_total _ h h').
Qed.

Lemma plays_matchups (p : nat) : p < 4 → plays (Z.of_nat p) matchups = 3.
Proof using HL HH.
  intros Hp. destruct p as [|[|[|[|p]]]]; try lia; vm_compute; reflexivity.
Qed.

Lemma group_points_zero (h : list team) (g : list ref) :
  Forall (λ t, points (h !!! t) = 0%Z) g → group_points h g = 0%Z.
Proof using HL HH.
  unfold group_points. induction 1 as [|t g Ht _ IH]; [done|].
  rewrite fmap_cons. cbn [foldr]. lia.
Qed.

Lemma play_groups_settled (ns : Z) (groups : list (list ref))
    (group_index : Z) (standings : list (list ref)) (w : world rng) :
  (1 ≤ ns)%Z → Forall (λ g, length g = 4) groups →
  NoDup (concat groups) →
  Forall (λ t, t < length (heap w)) (concat groups) →
  runs (play_groups ns groups group_index standings) w
    (λ r w', ∃ sgs,
       r = standings ++ sgs ∧ Forall2 (≡ₚ) sgs groups
       ∧ steady (heap w) (heap w')
       ∧ untouched (concat groups) (heap w) (heap w')
       ∧ ∀ j sg, sgs !! j = Some sg →
           settled (heap w') (group_index + Z.of_nat j) sg).
Proof using HL HH.
  intros Hns Hg. revert group_index standings w.
  induction Hg as [|group groups Hgroup _ IH];
    intros group_index standings w Hnd Hval; cbn [play_groups].
  - apply runs_ret. exists []. rewrite app_nil_r.
    split; [done|]. split; [done|]. split; [done|]. split; [done|].
    intros j sg Hj. by rewrite lookup_nil in Hj.
  - cbn [concat] in Hnd, Hval.
    apply NoDup_app in Hnd as (Hnd1 & Hdis & Hnd2).
    apply Forall_app in Hval as [Hval1 Hval2].
    apply runs_bind. eapply runs_mono; [apply reset_points_zero|].
    cbn beta. intros _ w1 (Hs1 & Hu1 & Hz1 & _). run.
    eapply runs_mono.
    { apply group_pairs_runs; [done|apply matchups_range]. }
    cbn beta. intros _ w2 ->.
    destruct (schedule_matches_played matchups ns Hns) as (days & Hd & Hp).
    apply runs_bind. eapply runs_lift; [exact Hd|].
    apply runs_bind. eapply runs_mono.
    { apply play_days_points; [done|done| |].
      - cbn [heap]. rewrite (steady_length _ _ Hs1). done.
      - apply Forall_forall. intros d Hdin. apply Forall_forall. intros m Hmin.
        rewrite <- Hp. apply list_elem_of_In, in_concat.
        exists (day_matches d). split; apply list_elem_of_In; [|done].
        apply list_elem_of_fmap. by exists d. }
    cbn beta. cbn [heap]. intros _ w3 (Hs3 & Hu3 & Hsum3 & Hper3). run.
    set (sg := sorted pair_ltb _ group).
    assert (Hsg : sg ≡ₚ group) by apply sorted_perm.
    assert (Hplayed : played days ≡ₚ matchups).
    { by rewrite played_perm. }
    assert (Hzero : group_points (heap w1) group = 0%Z).
    { apply group_points_zero. apply Forall_forall. intros t Ht.
      rewrite Forall_forall in Hval1. by apply Hz1, Hval1. }
    rewrite Hplayed in Hsum3. rewrite Hzero in Hsum3.
    change (length matchups) with 6 in Hsum3.
    eapply runs_mono.
    { apply assign_ranks_ranked.
      - by rewrite Hsg.
      - cbn [heap]. rewrite Hsg, (steady_length _ _ Hs3),
          (steady_length _ _ Hs1). done. }
    cbn beta. cbn [heap]. intros _ w4 (Hs4 & Hu4 & Hp4 & Hr4).
    assert (Hset : settled (heap w4) group_index sg).
    { split; [|split; [|split]].
      - intros i t Hi. destruct (Hr4 i t Hi) as [-> ->].
        split; [f_equal; lia|done].
      - intros i j a b Hij Ha Hb.
        pose proof (sorted_ordered (heap w3) group i j a b Hij Ha Hb) as Hab.
        unfold above in *.
        by rewrite !(fmap_eq_lookup_total points (heap w3) (heap w4)),
          !(steady_name (heap w3) (heap w4)).
      - assert (Heq : group_points (heap w4) sg = group_points (heap w3) group).
        { rewrite (group_points_perm _ sg group Hsg).
          unfold group_points. f_equal. apply list_fmap_ext. intros i t _.
          by apply fmap_eq_lookup_total. }
        lia.
      - apply Forall_forall. intros t Ht. rewrite Hsg in Ht.
        apply list_elem_of_lookup in Ht as [p Hpt].
        rewrite (fmap_eq_lookup_total points (heap w3) (heap w4)) by done.
        specialize (Hper3 p t Hpt).
        rewrite (plays_perm _ _ _ Hplayed), plays_matchups in Hper3.
        2:{ apply lookup_lt_Some in Hpt. lia. }
        rewrite Forall_forall in Hval1.
        rewrite (Hz1 t) in Hper3; [lia| |].
        + by eapply list_elem_of_lookup_2.
        + apply Hval1. by eapply list_elem_of_lookup_2. }
    assert (Hl4 : length (heap w4) = length (heap w)).
    { by rewrite (steady_length _ _ Hs4), (steady_length _ _ Hs3),
        (steady_length _ _ Hs1). }
    eapply runs_mono.
    { apply IH; [done|]. by rewrite Hl4. }
    cbn beta. intros r w' (sgs & -> & Hsgs & Hs & Hu & Hall).
    exists (sg :: sgs). rewrite <- app_assoc.
    split; [done|]. split; [by constructor|]. split.
    { repeat (eapply steady_trans; [eassumption|]). done. }
    split.
    { apply (untouched_trans _ _ (heap w4)).
      - apply (untouched_mono group); [set_solver|].
        apply (untouched_trans _ _ (heap w1)); [done|].
        apply (untouched_trans _ _ (heap w3)); [done|].
        apply (untouched_mono sg); [|done]. intros t. by rewrite Hsg.
      - apply (untouched_mono (concat groups)); [set_solver|done]. }
    intros [|j] sg' Hj; simpl in Hj.
    + injection Hj as <-. rewrite Z.add_0_r.
      apply (settled_untouched (concat groups) (heap w4)); [done| |done].
      intros t Ht. rewrite Hsg in Ht. by apply Hdis.
    + specialize (Hall j sg' Hj).
      by replace (group_index + Z.of_nat (S j))%Z
        with (group_index + 1 + Z.of_nat j)%Z by lia.
Qed.

Lemma share_out_fields (rank_teams : list ref) (share_each : float)
    (w : world rng) :
  runs (share_out rank_teams share_each) w
    (λ _ w', steady (heap w) (heap w')
             ∧ points <$> heap w' = points <$> heap w
             ∧ rank <$> heap w' = rank <$> heap w
             ∧ group <$> heap w' = group <$> heap w).
Proof using HL HH.
  revert w. induction rank_teams as [|tm rank_teams IH]; intros w;
    cbn [share_out].
  - by apply runs_ret.
  - run. eapply runs_mono; [apply IH|]. cbn beta. cbn [heap].
    intros _ w' (Hs & -> & -> & ->).
    split; [|by rewrite !fmap_alter_same].
    eapply steady_trans; [|done]. by apply steady_alter.
Qed.

Lemma award_ranks_fields (rs : list Z) (self : Tournament) (w : world rng) :
  rs ⊆ [1; 2; 3; 4]%Z →
  runs (award_ranks rs self) w
    (λ _ w', steady (heap w) (heap w')
             ∧ points <$> heap w' = points <$> heap w
             ∧ rank <$> heap w' = rank <$> heap w
             ∧ group <$> heap w' = group <$> heap w).
Proof using HL HH.
  revert w. induction rs as [|r rs IH]; intros w Hrs; cbn [award_ranks].
  - by apply runs_ret.
  - run.
    assert (Hrs' : rs ⊆ [1; 2; 3; 4]%Z) by set_solver.
    destruct (flat_map _ _) as [|tm rank_teams] eqn:Hteams.
    { by apply IH. }
    assert (∃ x, rank_shares !! r = Some x) as [x Hx].
    { assert (Hr : r ∈ [1; 2; 3; 4]%Z) by set_solver.
      repeat (apply elem_of_cons in Hr as [->|Hr]); [| | | |set_solver];
        eexists; vm_compute; reflexivity. }
    apply runs_bind. eapply runs_lift; [by rewrite Hx|].
    apply runs_bind. unfold augment_greedily.
    eapply runs_mono; [apply share_out_fields|].
    cbn beta. intros _ w1 (Hs1 & Hp1 & Hr1 & Hg1).
    eapply runs_mono; [by apply IH|].
    cbn beta. intros _ w' (Hs & -> & -> & ->).
    split; [by eapply steady_trans|done].
Qed.

End Ranks.

Lemma groups_of_subset (h : list team) (ts : list ref) (t : ref) :
  t ∈ concat (groups_of h ts) → t ∈ ts.
Proof.
  intros Ht. apply list_elem_of_In, in_concat in Ht as (g & Hg & Ht).
  apply list_elem_of_In in Hg, Ht.
  destruct (groups_of_levels h ts g Hg)
    as (a & b & c & d & -> & ? & ? & ? & ? & _).
  set_solver.
Qed.

Lemma entrants_top (self : Tournament) (champion : ref) :
  qualified_for_stage2 self = take 2 <$> final_standings_per_group self →
  champion ∈ entrants self →
  ∃ j sg i, final_standings_per_group self !! j = Some sg
            ∧ sg !! i = Some champion ∧ i < 2.
Proof.
  intros Hq. unfold entrants. case_decide as Hone.
  - destruct (final_standings_per_group self) as [|sg [|??]]; try done.
    simpl. intros Hc. apply list_elem_of_lookup in Hc as [i Hi].
    apply lookup_take_Some in Hi as [Hi Hlt]. by exists 0, sg, i.
  - intros Hc. apply list_elem_of_In, in_concat in Hc as (g & Hg & Hc).
    apply list_elem_of_In in Hg, Hc.
    apply list_elem_of_fmap in Hg as (q & -> & Hqin).
    unfold paired in Hqin. apply (subseteq_take _ _ q) in Hqin.
    rewrite Hq in Hqin. apply list_elem_of_fmap in Hqin as (sg & -> & Hsg).
    apply list_elem_of_lookup in Hsg as [j Hj].
    apply list_elem_of_lookup in Hc as [i Hi].
    apply lookup_take_Some in Hi as [Hi Hlt].
    apply lookup_take_Some in Hi as [Hi _]. by exists j, sg, i.
Qed.

Section Settled.
Context {rng : Type} `{HL : RandomLaws rng} `{HH : HostLaws}.

Lemma run_group_stage_settled (self : Tournament) (w : world rng) :
  (1 ≤ num_stadiums self)%Z →
  Forall (λ g, 2 ≤ length g) (final_standings_per_group self) →
  NoDup (teams self) →
  Forall (λ t, t < length (heap w)) (teams self) →
  runs (run_group_stage self) w
    (λ self' w', ∃ sgs,
       Forall2 (≡ₚ) sgs (groups_of (heap w) (teams self))
       ∧ final_standings_per_group self'
         = final_standings_per_group self ++ sgs
       ∧ qualified_for_stage2 self'
         = take 2 <$> final_standings_per_group self'
       ∧ teams self' = teams self
       ∧ steady (heap w) (heap w')
       ∧ ∀ j sg, sgs !! j = Some sg →
           settled (heap w') (1 + Z.of_nat j) sg).
Proof using HL HH.
  intros Hns Hold Hnd Hval. unfold run_group_stage. run.
  eapply runs_lift; [by apply form_groups_run|].
  rewrite app_nil_l. fold (groups_of (heap w) (teams self)).
  apply runs_bind. eapply runs_mono.
  { apply play_groups_settled; [done|apply zip4_four| |].
    - by apply groups_of_nodup.
    - apply Forall_forall. intros t Ht. rewrite Forall_forall in Hval.
      by apply Hval, (groups_of_subset (heap w)). }
  cbn beta. intros r w1 (sgs & -> & Hsgs & Hs1 & _ & Hset). run.
  eapply runs_mono; [by apply award_ranks_fields|].
  cbn beta. cbn [heap]. intros _ w2 (Hs2 & Hp2 & Hr2 & Hg2).
  apply runs_bind. eapply runs_mono.
  { apply pick_qualifiers_runs. apply Forall_app. split; [done|].
    apply Forall_forall. intros sg Hsg.
    apply list_elem_of_lookup in Hsg as [i Hi].
    destruct (Forall2_lookup_l _ _ _ _ _ Hsgs Hi) as (g & Hg & Hp).
    rewrite Hp.
    pose proof (groups_of_four (heap w) (teams self)) as H4.
    rewrite Forall_forall in H4.
    rewrite (H4 g); [lia|]. by eapply list_elem_of_lookup_2. }
  cbn beta. intros r w3 [-> Hh]. run. exists sgs.
  split; [done|]. split; [done|]. split; [done|]. split; [done|].
  cbn [heap]. rewrite Hh. split; [by eapply steady_trans|].
  intros j sg Hj.
  apply (settled_fields (heap w1)); try done; [apply Hs2|by apply Hset].
Qed.

Lemma run_tournament_all (num : pyobj) (ns : Z) (ub : float)
    (self : Tournament) (w : world rng) :
  Tournament_init num ns ub = Built self → (1 ≤ ns)%Z →
  ∃ n, num = PyInt (Z.of_nat n) ∧ 4 ≤ n ∧ n `mod` 4 = 0 ∧
  runs (run_tournament self) w
    (λ r w',
       (teams r.1 = seq (length (heap w)) n
        ∧ length (heap w') = length (heap w) + n
        ∧ length (final_standings_per_group r.1) = n / 4
        ∧ Forall (λ sg, length sg = 4) (final_standings_per_group r.1)
        ∧ concat (final_standings_per_group r.1) ≡ₚ teams r.1
        ∧ qualified_for_stage2 r.1
          = take 2 <$> final_standings_per_group r.1
        ∧ r.2 ∈ entrants r.1
        ∧ last (out w') = Some (champion_line (heap w' !!! r.2)))
       ∧ (∀ j sg, final_standings_per_group r.1 !! j = Some sg →
            settled (heap w') (1 + Z.of_nat j) sg)
       ∧ (rank (heap w' !!! r.2) = Some 1%Z
          ∨ rank (heap w' !!! r.2) = Some 2%Z)).
Proof using HL HH.
  intros Hinit Hns.
  destruct (create_teams_built num ns ub self w Hinit)
    as (n & self1 & w1 & made & Hnum & Hn4 & Hmod & Hr1 & Ho1 & Hh1 & Hts1
        & Hnames & Hlevels & _ & _ & Hns1 & Hfs1).
  exists n. split; [done|]. split; [done|]. split; [done|].
  assert (Hmade : length made = n).
  { apply (f_equal length) in Hnames.
    by rewrite !length_fmap, length_seq in Hnames. }
  unfold run_tournament. apply runs_bind. exists self1, w1. split; [done|].
  run. eapply runs_mono; [apply print_teams_runs|].
  cbn beta. intros _ w2 Hh2. simpl in Hh2.
  apply runs_bind.
  destruct (run_group_stage_settled self1 w2)
    as (self2 & w3 & Hr2 & sgs & Hsgs & Hst & Hq & Hts2 & Hs3 & Hset).
  { by rewrite Hns1. }
  { rewrite Hfs1. constructor. }
  { rewrite Hts1. apply NoDup_seq. }
  { rewrite Hts1, Hh2, Hh1, length_app, Hmade.
    apply Forall_forall. intros t Ht. apply elem_of_seq in Ht. lia. }
  exists self2, w3. split; [done|].
  rewrite Hfs1, app_nil_l in Hst.
  assert (Hcount : ∀ lv, lv ∈ ["A"; "B"; "C"; "D"] →
            length (at_level (heap w2) lv (teams self1)) = n / 4).
  { intros lv Hlv. rewrite Hh2, Hh1, Hts1, <- Hmade, at_level_made.
    rewrite Hlevels, Hmade. by apply replicate_levels_count. }
  assert (Hk : length sgs = n / 4).
  { rewrite (Forall2_length _ _ _ Hsgs), groups_of_length.
    rewrite !Hcount by set_solver. lia. }
  assert (H4 : Forall (λ sg, length sg = 4) sgs).
  { apply Forall_forall. intros sg Hsg.
    apply list_elem_of_lookup in Hsg as [i Hi].
    destruct (Forall2_lookup_l _ _ _ _ _ Hsgs Hi) as (g & Hg & Hp).
    rewrite Hp. pose proof (groups_of_four (heap w2) (teams self1)) as Hf.
    rewrite Forall_forall in Hf. apply Hf. by eapply list_elem_of_lookup_2. }
  assert (Hall : concat sgs ≡ₚ teams self1).
  { assert (Hcat : concat sgs ≡ₚ concat (groups_of (heap w2) (teams self1))).
    { clear -Hsgs. induction Hsgs as [|?????? IH]; [done|].
      simpl. by rewrite IH, H. }
    rewrite Hcat. apply groups_of_all.
    - rewrite Hh2, Hh1, Hts1, <- Hmade.
      assert (HF : Forall (λ y, y ∈ ["A"; "B"; "C"; "D"])
                ((λ t, level ((heap w ++ made) !!! t))
                   <$> seq (length (heap w)) (length made))).
      { rewrite levels_of_made, Hlevels.
        rewrite !Forall_app. repeat split; apply Forall_replicate; set_solver. }
      rewrite Forall_fmap in HF. exact HF.
    - rewrite !Hcount by set_solver. done.
    - rewrite !Hcount by set_solver. done.
    - rewrite !Hcount by set_solver. done. }
  apply runs_bind. eapply runs_mono.
  { apply knockout_stages_runs. rewrite Hq, Hst.
    destruct (decide (length sgs = 1)) as [Hone|Hmore].
    - left. split; [done|]. intros ->. by inversion H4.
    - right. split; [done|]. rewrite length_fmap. split; [lia|].
      apply Forall_forall. intros g Hg. unfold paired in Hg.
      apply (subseteq_take _ _ g) in Hg.
      apply list_elem_of_fmap in Hg as (sg & -> & Hsg).
      rewrite Forall_forall in H4. rewrite length_take, (H4 sg Hsg). lia. }
  cbn beta. intros c w4 (Hc & Hh4 & Hl). run. simpl.
  rewrite Hts2, Hst. split; [|split].
  - split; [done|]. split.
    { rewrite Hh4, (steady_length _ _ Hs3), Hh2, Hh1, length_app. lia. }
    repeat (split; [done|]). split; [by rewrite Hq, Hst|].
    split; [done|]. by rewrite Hh4.
  - intros j sg Hj. rewrite Hh4. by apply Hset.
  - destruct (entrants_top self2 c Hq Hc) as (j & sg & i & Hj & Hi & Hlt).
    rewrite Hst in Hj. destruct (Hset j sg Hj) as (Hrk & _).
    destruct (Hrk i c Hi) as [Hrank _]. rewrite Hh4, Hrank.
    destruct i as [|[|i]]; [by left|by right|lia].
Qed.

Lemma run_tournament_runs (num : pyobj) (ns : Z) (ub : float)
    (self : Tournament) (w : world rng) :
  Tournament_init num ns ub = Built self → (1 ≤ ns)%Z →
  ∃ n, num = PyInt (Z.of_nat n) ∧ 4 ≤ n ∧ n `mod` 4 = 0 ∧
  runs (run_tournament self) w
    (λ r w',
       teams r.1 = seq (length (heap w)) n
       ∧ length (heap w') = length (heap w) + n
       ∧ length (final_standings_per_group r.1) = n / 4
       ∧ Forall (λ sg, length sg = 4) (final_standings_per_group r.1)
       ∧ concat (final_standings_per_group r.1) ≡ₚ teams r.1
       ∧ qualified_for_stage2 r.1
         = take 2 <$> final_standings_per_group r.1
       ∧ r.2 ∈ entrants r.1
       ∧ last (out w') = Some (champion_line (heap w' !!! r.2))).
Proof using HL HH.
  intros Hinit Hns.
  destruct (run_tournament_all num ns ub self w Hinit Hns)
    as (n & Hn & H4 & Hmod & Hrun).
  exists n. split; [done|]. split; [done|]. split; [done|].
  eapply runs_mono; [exact Hrun|]. by intros r w' [Hfacts _].
Qed.

Lemma run_tournament_settled (num : pyobj) (ns : Z) (ub : float)
    (self : Tournament) (w : world rng) :
  Tournament_init num ns ub = Built self → (1 ≤ ns)%Z →
  runs (run_tournament self) w
    (λ r w',
       (∀ j sg, final_standings_per_group r.1 !! j = Some sg →
          settled (heap w') (1 + Z.of_nat j) sg)
       ∧ (rank (heap w' !!! r.2) = Some 1%Z
          ∨ rank (heap w' !!! r.2) = Some 2%Z)).
Proof using HL HH.
  intros Hinit Hns.
  destruct (run_tournament_all num ns ub self w Hinit Hns)
    as (n & Hn & H4 & Hmod & Hrun).
  eapply runs_mono; [exact Hrun|]. by intros r w' [_ Hfacts].
Qed.



Lemma run_tournament_fails (num : pyobj) (ns : Z) (ub : float)
    (self : Tournament) (w : world rng) :
  Tournament_init num ns ub = Built self → (ns ≤ 0)%Z →
  run_tournament self w = Raise IndexError.
Proof using HL HH.
  intros Hinit Hns.
  destruct (create_teams_built num ns ub self w Hinit)
    as (n & self1 & w1 & made & Hnum & Hn4 & Hmod & Hr1 & Ho1 & Hh1 & Hts1
        & Hnames & Hlevels & _ & _ & Hns1 & Hfs1).
  unfold run_tournament. apply fails_bind_r. exists self1, w1. split; [done|].
  apply fails_bind_r. run. apply fails_bind_r.
  eapply runs_mono; [apply print_teams_runs|].
  cbn beta. intros _ w2 _.
  apply fails_bind_r. unfold run_group_stage. run.
  eapply runs_lift; [by apply form_groups_run|].
  apply runs_bind. eapply runs_mono.
  { apply play_groups_none; [by rewrite Hns1|]. rewrite app_nil_l.
    apply zip4_four. }
  cbn beta. intros r w3 [-> Hs3]. rewrite Hfs1. run.
  eapply runs_mono; [by apply award_ranks_runs|].
  cbn beta. intros _ w4 Hs4. simpl. run.
  apply fails_bind_l. apply knockout_stages_short; simpl; lia.
Qed.

End Settled.

(** X21: on an object that the constructor accepted, with at least one
    stadium, [run_tournament] raises nothing and ends.  It makes the [n]
    teams, puts every one of them in exactly one of [n / 4] groups of
    four, takes the first two of every standing as qualifiers and names
    a champion among the first two of the only group or of a paired
    group; the last thing printed is the line with the champion's
    name. *)
Theorem run_tournament_champion {rng : Type} `{HL : RandomLaws rng}
    `{HH : HostLaws} (num : pyobj) (ns : Z) (ub : float)
    (self : Tournament) (w : world rng) :
  Tournament_init num ns ub = Built self → (1 ≤ ns)%Z →
  ∃ n, num = PyInt (Z.of_nat n) ∧ 4 ≤ n ∧ n `mod` 4 = 0 ∧
  runs (run_tournament self) w
    (λ r w',
       teams r.1 = seq (length (heap w)) n
       ∧ length (heap w') = length (heap w) + n
       ∧ length (final_standings_per_group r.1) = n / 4
       ∧ Forall (λ sg, length sg = 4) (final_standings_per_group r.1)
       ∧ concat (final_standings_per_group r.1) ≡ₚ teams r.1
       ∧ qualified_for_stage2 r.1
         = take 2 <$> final_standings_per_group r.1
       ∧ r.2 ∈ entrants r.1
       ∧ last (out w') = Some (champion_line (heap w' !!! r.2))).
Proof. exact (run_tournament_runs num ns ub self w). Qed.

Lemma run_tournament_champion_witness :
  ∃ r w',
    @run_tournament unit first_random plain_host
      (mkTournament 8 2 0%float [] [] [] ["s1"; "s2"]) (mkWorld tt [] [])
    = Ret (r, w')
    ∧ length (final_standings_per_group r.1) = 2.
Proof.
  destruct (@run_tournament_champion unit first_random first_random_laws
              plain_host plain_host_laws (PyInt 8) 2 0%float
              (mkTournament 8 2 0%float [] [] [] ["s1"; "s2"])
              (mkWorld tt [] []))
    as (n & Hn & _ & _ & r & w' & Hr & _ & _ & Hlen & _).
  - vm_compute. reflexivity.
  - lia.
  - exists r, w'. split; [exact Hr|].
    injection Hn as Hn. rewrite Hlen.
    replace n with 8 by lia. reflexivity.
Defined.

(** X22: on an object that the constructor accepted, with no stadium or
    a negative number of them, [run_tournament] raises [IndexError]: no
    group finds a schedule, no standing is made, stage 2 has no match
    and the final knockout no team. *)
Theorem run_tournament_no_stadium {rng : Type} `{HL : RandomLaws rng}
    `{HH : HostLaws} (num : pyobj) (ns : Z) (ub : float)
    (self : Tournament) (w : world rng) :
  Tournament_init num ns ub = Built self → (ns ≤ 0)%Z →
  run_tournament self w = Raise IndexError.
Proof. exact (run_tournament_fails num ns ub self w). Qed.

Lemma run_tournament_no_stadium_witness :
  @run_tournament unit first_random plain_host
    (mkTournament 4 0 0%float [] [] [] []) (mkWorld tt [] [])
  = Raise IndexError.
Proof.
  apply (@run_tournament_no_stadium unit first_random first_random_laws
           plain_host plain_host_laws (PyInt 4) 0 0%float
           (mkTournament 4 0 0%float [] [] [] []) (mkWorld tt [] [])).
  - vm_compute. reflexivity.
  - lia.
Defined.



(** X24: on an object that the constructor accepted, with at least one
    stadium, [run_tournament] leaves every standing settled (ranks 1 to
    4 in the order of the points, 12 to 18 points in a group, at most 9
    for a team), and the champion is a team of rank 1 or 2 of its
    group. *)
Theorem run_tournament_ranks {rng : Type} `{HL : RandomLaws rng}
    `{HH : HostLaws} (num : pyobj) (ns : Z) (ub : float)
    (self : Tournament) (w : world rng) :
  Tournament_init num ns ub = Built self → (1 ≤ ns)%Z →
  runs (run_tournament self) w
    (λ r w',
       (∀ j sg, final_standings_per_group r.1 !! j = Some sg →
          settled (heap w') (1 + Z.of_nat j) sg)
       ∧ (rank (heap w' !!! r.2) = Some 1%Z
          ∨ rank (heap w' !!! r.2) = Some 2%Z)).
Proof. exact (run_tournament_settled num ns ub self w). Qed.

Lemma run_tournament_ranks_witness :
  ∃ r w',
    @run_tournament unit first_random plain_host
      (mkTournament 4 1 0%float [] [] [] ["s1"]) (mkWorld tt [] [])
    = Ret (r, w')
    ∧ (rank (heap w' !!! r.2) = Some 1%Z ∨ rank (heap w' !!! r.2) = Some 2%Z).
Proof.
  destruct (@run_tournament_ranks unit first_random first_random_laws
              plain_host plain_host_laws (PyInt 4) 1 0%float
              (mkTournament 4 1 0%float [] [] [] ["s1"])
              (mkWorld tt [] []))
    as (r & w' & Hr & _ & Hrank).
  - vm_compute. reflexivity.
  - lia.
  - exists r, w'. split; [exact Hr | exact Hrank].
Defined.
